(** * open-ce build tree: dependency graph construction and traversal

    A shallow embedding of [open_ce/build_tree.py]: the [DependencyNode]
    vertex type, the networkx [DiGraph] operations the module calls, the
    depth-first postorder traversal behind [traverse_build_commands], the
    [BuildTree] passes ([__len__], [_detect_cycle],
    [remove_external_deps_from_dag]), the edge linker [_create_edges], the
    remote resolver [_create_remote_deps] and the merge rule of
    [get_installable_packages].

    Conventions.
    - A Python [dict] is an association list in insertion order; a key is
      looked up by the test CPython uses (equal hashes and [==]).
    - A Python [set] has no specified iteration order: every loop over a set
      and every [set.pop()] goes through an ordering oracle [set_order],
      constrained only to return a permutation of the elements.
    - A raised exception is the [Raise] branch of [result]. *)

From stdpp Require Import base option list gmap strings sets.
From Stdlib Require Import ZArith Ascii Lia.

Open Scope string_scope.
Open Scope list_scope.

(** ** Exceptions and results *)

Inductive Error := BUILD_TREE_CYCLE | REMOTE_PACKAGE_DEPENDENCIES | CREATE_BUILD_TREE.

Inductive exn :=
| IndexError
| KeyError
| NetworkXError
| OpenCEError (code : Error) (msg : string).

Inductive result (A : Type) :=
| Ok (a : A)
| Raise (e : exn).
Arguments Ok {A} a.
Arguments Raise {A} e.

Definition result_bind {A B} (m : result A) (k : A → result B) : result B :=
  match m with
  | Ok a => k a
  | Raise e => Raise e
  end.

Notation "x <~ m ;; k" := (result_bind m (λ x, k))
  (at level 100, m at next level, right associativity).

(** ** Python strings *)

(** The characters [str.split()] treats as separators (ASCII range). *)
Definition is_space (c : ascii) : bool :=
  let n := nat_of_ascii c in
  (Nat.eqb n 32 || (Nat.leb 9 n && Nat.leb n 13) || (Nat.leb 28 n && Nat.leb n 31))%bool.

Definition str_is_empty (s : string) : bool :=
  match s with EmptyString => true | _ => false end.

(** [s.split()]: the maximal runs of non-separator characters. [cur] is the
    run being read. *)
Fixpoint split_from (cur : string) (s : string) : list string :=
  match s with
  | EmptyString => if str_is_empty cur then [] else [cur]
  | String c rest =>
      if is_space c
      then (if str_is_empty cur then split_from "" rest
            else cur :: split_from "" rest)
      else split_from (cur +:+ String c "") rest
  end.

Definition py_split (s : string) : list string := split_from "" s.

(** [sep.join(parts)]. *)
Fixpoint join (sep : string) (parts : list string) : string :=
  match parts with
  | [] => ""
  | [p] => p
  | p :: ps => p +:+ sep +:+ join sep ps
  end.

(** ** BuildCommand *)

(** Modelled from the spec: [open_ce/build_command.py] is not among the
    sources.  A build command is one buildable unit: recipe name, source
    repository, the variant axis values that produced it, four dependency
    sets, source channels, output artifacts.  Two build commands are equal
    iff their identifying fields (recipe and variant axes) match, and the
    hash is computed from the same fields. *)
Module BuildCommand.

Record t := mk {
  recipe : string;
  repository : string;
  python : string;
  build_type : string;
  mpi_type : string;
  cudatoolkit : string;
  run_dependencies : gset string;
  host_dependencies : gset string;
  build_dependencies : gset string;
  test_dependencies : gset string;
  channels : list string;
  runtime_package : bool;
  output_files : list string
}.

Definition key (c : t) : list string :=
  [recipe c; python c; build_type c; mpi_type c; cudatoolkit c].

Definition __eq__ (c1 c2 : t) : bool := bool_decide (key c1 = key c2).

(** The aggregate dependency requirement of a build command. *)
Definition get_all_dependencies (c : t) : gset string :=
  run_dependencies c ∪ host_dependencies c ∪ build_dependencies c ∪ test_dependencies c.

End BuildCommand.

(** Python's built-in [hash], applied to the [build_command] attribute: the
    hash of [None] or [BuildCommand.__hash__].  [hash_key] stands for
    Python's hash of the identifying tuple. *)
Definition py_hash (hash_None : Z) (hash_key : list string → Z)
    (c : option BuildCommand.t) : Z :=
  match c with
  | None => hash_None
  | Some c => hash_key (BuildCommand.key c)
  end.

(** ** DependencyNode *)

Module DependencyNode.

Record t := mk {
  packages : gset string;
  build_command : option BuildCommand.t;
  channels : list string;
  _hash_val : Z
}.

Section Init.
Variable hash_None : Z.
Variable hash_key : list string → Z.

(** [__init__(self, packages, build_command=None, channels=None)]. *)
Definition __init__ (packages : gset string)
    (build_command : option BuildCommand.t)
    (channels : option (list string)) : t :=
  {| packages := packages;
     build_command := build_command;
     channels := default [] channels;
     _hash_val := py_hash hash_None hash_key build_command |}.
End Init.

Definition __hash__ (self : t) : Z := _hash_val self.

Definition __eq__ (self other : t) : bool :=
  match build_command self, build_command other with
  | Some c1, Some c2 => BuildCommand.__eq__ c1 c2
  | _, _ => bool_decide (packages self = packages other)
  end.

(** Attribute assignment, the only way a node changes after creation. *)
Inductive assignment :=
| set_packages (p : gset string)
| set_build_command (c : option BuildCommand.t)
| set_channels (l : list string).

Definition assign (self : t) (a : assignment) : t :=
  match a with
  | set_packages p =>
      {| packages := p; build_command := build_command self;
         channels := channels self; _hash_val := _hash_val self |}
  | set_build_command c =>
      {| packages := packages self; build_command := c;
         channels := channels self; _hash_val := _hash_val self |}
  | set_channels l =>
      {| packages := packages self; build_command := build_command self;
         channels := l; _hash_val := _hash_val self |}
  end.

(** The test a [dict] or [set] applies to decide that [probe] is the key
    [stored]: equal hashes, then [==]. *)
Definition same_key (stored probe : t) : bool :=
  (Z.eqb (__hash__ stored) (__hash__ probe) && __eq__ stored probe)%bool.

End DependencyNode.

(** The objects a graph holds as vertices: the traversal adds the string
    ["Starting Node"] next to the dependency nodes. *)
Inductive obj :=
| OStr (s : string)
| ONode (n : DependencyNode.t).

Definition obj_same_key (stored probe : obj) : bool :=
  match stored, probe with
  | OStr s1, OStr s2 => String.eqb s1 s2
  | ONode n1, ONode n2 => DependencyNode.same_key n1 n2
  | _, _ => false
  end.

(** [DependencyNode.__eq__] against any object: [isinstance] first. *)
Definition node_eq_obj (self : DependencyNode.t) (other : obj) : bool :=
  match other with
  | ONode o => DependencyNode.__eq__ self o
  | OStr _ => false
  end.

(** ** Python sets *)

(** A set is kept as the list of its elements; [set_order] is the order in
    which one iteration visits them.  Building a set from a sequence keeps
    the first of any two elements that are the same key. *)
Definition ordering := ∀ A : Type, list A → list A.

Definition is_ordering (set_order : ordering) : Prop :=
  ∀ (A : Type) (l : list A), set_order A l ≡ₚ l.

Definition identity_order : ordering := λ _ l, l.

(** ** networkx.DiGraph *)

Section DiGraph.
Context {V : Type}.
(** [same stored probe]: the dict-key test on vertices. *)
Variable same : V → V → bool.

Definition memb (k : V) (keys : list V) : bool :=
  existsb (λ stored, same stored k) keys.

Fixpoint dict_get {A} (d : list (V * A)) (k : V) : option A :=
  match d with
  | [] => None
  | (stored, a) :: d' => if same stored k then Some a else dict_get d' k
  end.

(** [d[k] = a]: an existing key keeps its position and its key object. *)
Fixpoint dict_set {A} (d : list (V * A)) (k : V) (a : A) : list (V * A) :=
  match d with
  | [] => [(k, a)]
  | (stored, a') :: d' =>
      if same stored k then (stored, a) :: d'
      else (stored, a') :: dict_set d' k a
  end.

Fixpoint dict_del {A} (d : list (V * A)) (k : V) : list (V * A) :=
  match d with
  | [] => []
  | (stored, a) :: d' =>
      if same stored k then d' else (stored, a) :: dict_del d' k
  end.

(** The inner adjacency dicts map a neighbour to the edge attributes; no
    caller sets attributes, so an inner dict is the list of its keys. *)
Definition keys_add (keys : list V) (k : V) : list V :=
  if memb k keys then keys else keys ++ [k].

Definition keys_del (keys : list V) (k : V) : list V :=
  filter (λ stored, negb (same stored k)) keys.

(** [set(seq)]: the elements are inserted one after the other, an element
    that is already a key of the set being left out. *)
Fixpoint set_insert_all (acc : list V) (seq : list V) : list V :=
  match seq with
  | [] => acc
  | x :: rest => set_insert_all (keys_add acc x) rest
  end.

Definition py_set (seq : list V) : list V := set_insert_all [] seq.

(** [_succ] (also [_adj]) and [_pred]; [_node] has the keys of [_succ] in
    the same order, so it is read off [_succ]. *)
Record DiGraph := mkDiGraph {
  _succ : list (V * list V);
  _pred : list (V * list V)
}.

Definition empty_graph : DiGraph := {| _succ := []; _pred := [] |}.

Definition nodes (G : DiGraph) : list V := map fst (_succ G).

Definition has_node (G : DiGraph) (n : V) : bool := memb n (nodes G).

Definition add_node (G : DiGraph) (n : V) : DiGraph :=
  if has_node G n then G
  else {| _succ := _succ G ++ [(n, [])]; _pred := _pred G ++ [(n, [])] |}.

Definition add_edge (G : DiGraph) (u v : V) : DiGraph :=
  let G1 := add_node G u in
  let G2 := add_node G1 v in
  {| _succ := dict_set (_succ G2) u (keys_add (default [] (dict_get (_succ G2) u)) v);
     _pred := dict_set (_pred G2) v (keys_add (default [] (dict_get (_pred G2) v)) u) |}.

(** [remove_node]: the node's two entries go, and the node leaves every
    inner dict it is a key of. *)
Definition remove_node (G : DiGraph) (n : V) : result DiGraph :=
  if has_node G n then
    Ok {| _succ := map (λ e, (fst e, keys_del (snd e) n)) (dict_del (_succ G) n);
          _pred := map (λ e, (fst e, keys_del (snd e) n)) (dict_del (_pred G) n) |}
  else Raise NetworkXError.

(** [successors(n)] and [predecessors(n)] return iterators; the list is
    what the iterator has left to yield. *)
Definition successors (G : DiGraph) (n : V) : result (list V) :=
  match dict_get (_succ G) n with
  | Some keys => Ok keys
  | None => Raise NetworkXError
  end.

Definition predecessors (G : DiGraph) (n : V) : result (list V) :=
  match dict_get (_pred G) n with
  | Some keys => Ok keys
  | None => Raise NetworkXError
  end.

Definition edges (G : DiGraph) : list (V * V) :=
  flat_map (λ e, map (λ v, (fst e, v)) (snd e)) (_succ G).

(** [G.copy()]: a fresh graph, filled node by node and edge by edge. *)
Definition copy (G : DiGraph) : DiGraph :=
  fold_left (λ H e, add_edge H (fst e) (snd e)) (edges G)
    (fold_left add_node (nodes G) empty_graph).

(** *** Depth-first search ([networkx.dfs_labeled_edges])

    A frame is [(parent, depth_now, children)], [children] being the
    iterator over [G[parent]].  [out] collects the targets of the edges
    labelled "reverse", which is what [dfs_postorder_nodes] keeps.  The
    loop needs fuel; [None] is an exhausted budget. *)
Definition frame : Type := V * nat * list V.

Fixpoint dfs_while (fuel : nat) (G : DiGraph) (visited : list V)
    (stack : list frame) (out : list V) : option (result (list V * list V)) :=
  match fuel with
  | O => None
  | S fuel' =>
      match stack with
      | [] => Some (Ok (visited, out))
      | (parent, depth_now, children) :: rest =>
          match children with
          | [] =>
              dfs_while fuel' G visited rest
                (match rest with [] => out | _ :: _ => out ++ [parent] end)
          | child :: children' =>
              let stack' := (parent, depth_now, children') :: rest in
              if memb child visited then dfs_while fuel' G visited stack' out
              else if Nat.ltb 1 depth_now then
                match dict_get (_succ G) child with
                | None => Some (Raise KeyError)
                | Some grandchildren =>
                    dfs_while fuel' G (child :: visited)
                      ((child, depth_now - 1, grandchildren) :: stack') out
                end
              else dfs_while fuel' G (child :: visited) stack' out
          end
      end
  end.

Fixpoint dfs_starts (fuel : nat) (G : DiGraph) (starts : list V)
    (visited : list V) (out : list V) : option (result (list V * list V)) :=
  match starts with
  | [] => Some (Ok (visited, out))
  | start :: more =>
      if memb start visited then dfs_starts fuel G more visited out
      else
        match dict_get (_succ G) start with
        | None => Some (Raise KeyError)
        | Some children =>
            match dfs_while fuel G (start :: visited)
                    [(start, length (nodes G), children)] out with
            | Some (Ok (visited', out')) =>
                dfs_starts fuel G more visited' (out' ++ [start])
            | other => other
            end
        end
  end.

Definition dfs_postorder_nodes (fuel : nat) (G : DiGraph) (source : option V)
    : option (result (list V)) :=
  let starts := match source with None => nodes G | Some s => [s] end in
  match dfs_starts fuel G starts [] [] with
  | Some (Ok (_, out)) => Some (Ok out)
  | Some (Raise e) => Some (Raise e)
  | None => None
  end.

(** A budget that always suffices: every step of the loop either takes a
    child off an iterator or pops a frame. *)
Definition dfs_fuel (G : DiGraph) : nat :=
  S (length (nodes G) + length (edges G)).

End DiGraph.

Arguments DiGraph V : clear implicits.
Arguments frame V : clear implicits.

(** ** Ancestors ([networkx.ancestors]) *)

Section Ancestors.
Context {V : Type}.
Variable same : V → V → bool.

(** One round of the backward search: the predecessors of the nodes
    reached so far that are not reached yet. *)
Definition new_predecessors (G : DiGraph V) (reached : list V) : list V :=
  py_set same
    (filter (λ p, negb (memb same p reached))
       (flat_map (λ x, default [] (dict_get same (_pred G) x)) reached)).

Fixpoint reach_back (rounds : nat) (G : DiGraph V) (reached : list V) : list V :=
  match rounds with
  | O => reached
  | S rounds' =>
      match new_predecessors G reached with
      | [] => reached
      | fresh => reach_back rounds' G (reached ++ fresh)
      end
  end.

(** All nodes with a path to [source], [source] itself left out. *)
Definition ancestors (G : DiGraph V) (source : V) : list V :=
  filter (λ x, negb (same x source))
    (reach_back (length (nodes G)) G [source]).

End Ancestors.

(** ** The heap of graph objects

    [traverse_build_commands] receives a reference to the caller's graph;
    [cells] maps references to graphs, [next_ref] is the first free one. *)

Record store := mkStore {
  cells : nat → DiGraph obj;
  next_ref : nat
}.

Definition deref (σ : store) (r : nat) : DiGraph obj := cells σ r.

Definition alloc (σ : store) (G : DiGraph obj) : nat * store :=
  (next_ref σ,
   {| cells := λ r, if Nat.eqb r (next_ref σ) then G else cells σ r;
      next_ref := S (next_ref σ) |}).

Definition mutate (σ : store) (r : nat) (f : DiGraph obj → DiGraph obj) : store :=
  {| cells := λ r', if Nat.eqb r' r then f (cells σ r) else cells σ r';
     next_ref := next_ref σ |}.

(** ** traverse_build_commands *)

Inductive yielded :=
| YNode (n : DependencyNode.t)
| YCommand (c : BuildCommand.t).

Definition false_start_node : obj := OStr "Starting Node".

(** The filter of the generator's loop body. *)
Definition yield_of (return_node : bool) (current : obj) : option yielded :=
  match current with
  | ONode n =>
      match DependencyNode.build_command n with
      | Some c => Some (if return_node then YNode n else YCommand c)
      | None => None
      end
  | OStr _ => None
  end.

(** A complete run of the generator: the final heap and everything yielded.
    An empty [starting_nodes] stands for [None] as well: the source tests
    its truth value. *)
Definition traverse_build_commands (σ : store) (build_tree : nat)
    (starting_nodes : list DependencyNode.t) (return_node : bool)
    : store * option (result (list yielded)) :=
  let '(σ', generator) :=
    match starting_nodes with
    | _ :: _ =>
        let '(new_graph, σ1) := alloc σ (copy obj_same_key (deref σ build_tree)) in
        let σ2 := mutate σ1 new_graph (λ G, add_node obj_same_key G false_start_node) in
        let σ3 :=
          fold_left
            (λ σ dep, mutate σ new_graph
                        (λ G, add_edge obj_same_key G false_start_node (ONode dep)))
            starting_nodes σ2 in
        (σ3, dfs_postorder_nodes obj_same_key (dfs_fuel (deref σ3 new_graph))
               (deref σ3 new_graph) (Some false_start_node))
    | [] =>
        (σ, dfs_postorder_nodes obj_same_key (dfs_fuel (deref σ build_tree))
              (deref σ build_tree) None)
    end in
  (σ',
   match generator with
   | Some (Ok out) => Some (Ok (omap (yield_of return_node) out))
   | Some (Raise e) => Some (Raise e)
   | None => None
   end).

(** ** BuildTree *)

Definition newline : string := String (ascii_of_nat 10) "".

Definition is_external (n : DependencyNode.t) : bool :=
  match DependencyNode.build_command n with None => true | Some _ => false end.

Definition is_buildable (n : DependencyNode.t) : bool := negb (is_external n).

Module BuildTree.

Record t := mk {
  _tree : DiGraph DependencyNode.t;
  _channels : list string;
  _initial_nodes : list DependencyNode.t
}.

Definition with_tree (self : t) (G : DiGraph DependencyNode.t) : t :=
  {| _tree := G; _channels := _channels self; _initial_nodes := _initial_nodes self |}.

(** [__len__] *)
Definition __len__ (self : t) : nat :=
  length (py_set DependencyNode.same_key (filter is_buildable (nodes (_tree self)))).

Section Passes.
Variable set_order : ordering.

(** The two nested loops of [remove_external_deps_from_dag].
    [self._tree.predecessors(node)] and [self._tree.successors(node)]
    are iterators ([iter(self._pred[n])], [iter(self._succ[n])]), each
    created once, before the loops.  [successors] is therefore one
    iterator object shared by every round of the outer loop: the inner
    loop of the first round drains it, and the inner loop of every
    later round finds it exhausted.  The edges added while the loops
    run change neither [_pred[node]] nor [_succ[node]], so the lists
    read here are what the iterators yield. *)
Definition bypass (G : DiGraph DependencyNode.t)
    (predecessors successors : list DependencyNode.t) : DiGraph DependencyNode.t :=
  fst (fold_left
         (λ (st : DiGraph DependencyNode.t * list DependencyNode.t) predecessor,
            (fold_left (λ G successor, add_edge DependencyNode.same_key G predecessor successor)
               (snd st) (fst st),
             []))
         predecessors (G, successors)).

Definition remove_external_node (G : DiGraph DependencyNode.t) (node : DependencyNode.t)
    : result (DiGraph DependencyNode.t) :=
  preds <~ predecessors DependencyNode.same_key G node ;;
  succs <~ successors DependencyNode.same_key G node ;;
  remove_node DependencyNode.same_key (bypass G preds succs) node.

Definition remove_external_deps_from_dag (self : t) : result t :=
  let external_nodes :=
    set_order _ (py_set DependencyNode.same_key (filter is_external (nodes (_tree self)))) in
  G <~ fold_left (λ acc node, G <~ acc ;; remove_external_node G node)
         external_nodes (Ok (_tree self)) ;;
  Ok (with_tree self G).

(** [networkx.simple_cycles] and [str] of a set of strings are taken as
    given. *)
Variable simple_cycles : DiGraph DependencyNode.t → list (list DependencyNode.t).
Variable str_of_set : gset string → string.

Definition cycle_label (node : DependencyNode.t) : string :=
  match DependencyNode.build_command node with
  | Some c => BuildCommand.recipe c
  | None => str_of_set (DependencyNode.packages node)
  end.

(** [any(node.build_command for node in cycle)]: the truth value of a
    build command is its presence, the class defining neither
    [__bool__] nor [__len__]. *)
Definition is_fatal (cycle : list DependencyNode.t) : bool :=
  existsb is_buildable cycle.

(** [cycle + [cycle[0]]] is rendered; only a cycle that has a node is
    ever rendered. *)
Definition render_cycle (cycle : list DependencyNode.t) : string :=
  join " -> " (map cycle_label (cycle ++ take 1 cycle)) +:+ newline.

Definition _detect_cycle (self : t) : result unit :=
  let cycle_print :=
    fold_left (λ acc cycle, if is_fatal cycle then acc +:+ render_cycle cycle else acc)
      (simple_cycles (_tree self)) "" in
  if str_is_empty cycle_print then Ok tt
  else Raise (OpenCEError BUILD_TREE_CYCLE cycle_print).
End Passes.

End BuildTree.

(** ** Edge linking and remote resolution *)

(** What the external package channel returns for a package; only the
    dependency list is read. *)
Record package_info := mkInfo { dependencies : list string }.

(** One call of [conda_utils.get_latest_package_info], as the resolver
    makes it: the node popped, the graph at that moment, the channel list
    and the package passed. *)
Record query := mkQuery {
  q_node : DependencyNode.t;
  q_graph : DiGraph DependencyNode.t;
  q_channels : list string;
  q_package : string
}.

(** The resolver's variables, and the calls made so far. *)
Record resolver := mkResolver {
  dep_graph : DiGraph DependencyNode.t;
  deps : list DependencyNode.t;
  seen : list string;
  queries : list query
}.

Inductive status :=
| Returned
| Raised (e : exn)
| OutOfFuel.

Section Linking.
Variable set_order : ordering.
Variable hash_None : Z.
Variable hash_key : list string → Z.
(** [utils.remove_version] (not among the sources): the package name with
    its version qualifier stripped. *)
Variable remove_version : string → string.

(** [DependencyNode({dependency})] *)
Definition external_node (dependency : string) : DependencyNode.t :=
  DependencyNode.__init__ hash_None hash_key {[ dependency ]} None None.

(** [name in map(utils.remove_version, dest_node.packages)] *)
Definition provides (name : string) (dest_node : DependencyNode.t) : bool :=
  existsb (String.eqb name)
    (map remove_version (elements (DependencyNode.packages dest_node))).

Definition local_dest (tree : DiGraph DependencyNode.t) (name : string)
    : list DependencyNode.t :=
  py_set DependencyNode.same_key (filter (provides name) (nodes tree)).

(** The body of the inner loop of [_create_edges]. *)
Definition link_dependency (node : DependencyNode.t)
    (tree : DiGraph DependencyNode.t) (dependency : string)
    : DiGraph DependencyNode.t :=
  match set_order _ (local_dest tree (remove_version dependency)) with
  | dest_node :: _ =>
      if negb (DependencyNode.__eq__ node dest_node)
      then add_edge DependencyNode.same_key tree node dest_node
      else tree
  | [] =>
      let new_node := external_node dependency in
      add_edge DependencyNode.same_key
        (add_node DependencyNode.same_key tree new_node) node new_node
  end.

Definition link_node (tree : DiGraph DependencyNode.t) (node : DependencyNode.t)
    : DiGraph DependencyNode.t :=
  match DependencyNode.build_command node with
  | Some cmd =>
      fold_left (link_dependency node)
        (set_order _ (elements (BuildCommand.get_all_dependencies cmd))) tree
  | None => tree
  end.

Definition _create_edges (tree : DiGraph DependencyNode.t) : DiGraph DependencyNode.t :=
  fold_left link_node (set_order _ (py_set DependencyNode.same_key (nodes tree))) tree.

(** *** _create_remote_deps *)

Variable _channels : list string.
(** [Ok None] is the empty result returned for a virtual package. *)
Variable get_latest_package_info :
  list string → string → result (option package_info).

Definition link_remote (node : DependencyNode.t)
    (st : DiGraph DependencyNode.t * list DependencyNode.t) (dep : string)
    : DiGraph DependencyNode.t * list DependencyNode.t :=
  match set_order _ (local_dest (fst st) (remove_version dep)) with
  | dest_node :: _ =>
      (add_edge DependencyNode.same_key (fst st) node dest_node, snd st)
  | [] =>
      let new_dep := external_node dep in
      (add_edge DependencyNode.same_key (fst st) node new_dep,
       keys_add DependencyNode.same_key (snd st) new_dep)
  end.

(** The loop over [node.packages]; [G0] is the graph when [node] was
    popped.  The second component is the exception that left the loop. *)
Fixpoint resolve_packages (node : DependencyNode.t) (G0 : DiGraph DependencyNode.t)
    (ancestor_channels : list string) (packages : list string) (st : resolver)
    : resolver * option exn :=
  match packages with
  | [] => (st, None)
  | package :: rest =>
      let package_name := remove_version package in
      if existsb (String.eqb package_name) (seen st)
      then resolve_packages node G0 ancestor_channels rest st
      else
        let channels := DependencyNode.channels node ++ ancestor_channels ++ _channels in
        let st1 :=
          {| dep_graph := dep_graph st; deps := deps st;
             seen := package_name :: seen st;
             queries := queries st ++ [mkQuery node G0 channels package] |} in
        match get_latest_package_info channels package with
        | Raise e => (st1, Some e)
        | Ok None => resolve_packages node G0 ancestor_channels rest st1
        | Ok (Some info) =>
            let G1 := add_node DependencyNode.same_key (dep_graph st1) (external_node package) in
            let linked := fold_left (link_remote node) (dependencies info) (G1, deps st1) in
            resolve_packages node G0 ancestor_channels rest
              {| dep_graph := fst linked; deps := snd linked;
                 seen := seen st1; queries := queries st1 |}
        end
  end.

(** The channels of the build commands among the ancestors of [node]. *)
Definition ancestor_channels_of (G : DiGraph DependencyNode.t) (node : DependencyNode.t)
    : list string :=
  let ancestor_build_cmds :=
    py_set BuildCommand.__eq__
      (omap DependencyNode.build_command (ancestors DependencyNode.same_key G node)) in
  flat_map BuildCommand.channels (set_order _ ancestor_build_cmds).

(** [str(deps)] in the error raised on a failed query. *)
Variable str_of_nodes : list DependencyNode.t → string.

Fixpoint resolve_loop (fuel : nat) (st : resolver) : resolver * status :=
  match fuel with
  | O => (st, OutOfFuel)
  | S fuel' =>
      match set_order _ (deps st) with
      | [] => (st, Returned)
      | node :: remaining =>
          let st0 := {| dep_graph := dep_graph st; deps := remaining;
                        seen := seen st; queries := queries st |} in
          match resolve_packages node (dep_graph st0)
                  (ancestor_channels_of (dep_graph st0) node)
                  (set_order _ (elements (DependencyNode.packages node))) st0 with
          | (st1, Some (OpenCEError _ msg)) =>
              (st1, Raised (OpenCEError REMOTE_PACKAGE_DEPENDENCIES
                              (str_of_nodes (deps st1) +:+ msg)))
          | (st1, Some e) => (st1, Raised e)
          | (st1, None) => resolve_loop fuel' st1
          end
      end
  end.

Definition _create_remote_deps (fuel : nat) (dep_graph : DiGraph DependencyNode.t)
    : resolver * status :=
  resolve_loop fuel
    {| dep_graph := dep_graph;
       deps := py_set DependencyNode.same_key (filter is_external (nodes dep_graph));
       seen := [];
       queries := [] |}.

End Linking.

(** ** The merge rule of get_installable_packages *)

Section Installable.
Variable set_order : ordering.
(** [utils.generalize_version] (not among the sources). *)
Variable generalize_version : string → string.

(** [dep.split()[0]] *)
Definition first_token (dep : string) : result string :=
  match py_split dep with
  | name :: _ => Ok name
  | [] => Raise IndexError
  end.

(** The last loop of [check_matching]: [true] when it returns [None]. *)
Fixpoint name_in (name : string) (deps : list string) : result bool :=
  match deps with
  | [] => Ok false
  | dep :: rest =>
      dep_name_from_set <~ first_token dep ;;
      if String.eqb name dep_name_from_set then Ok true else name_in name rest
  end.

(** [check_matching]: the set as the call leaves it, and the value
    returned. *)
Definition check_matching (deps_set : gset string) (dep_to_be_added : string)
    : result (gset string * option string) :=
  if bool_decide (dep_to_be_added ∈ deps_set) then Ok (deps_set, None)
  else
    dep_name_to_be_added <~ first_token dep_to_be_added ;;
    if (bool_decide (dep_name_to_be_added ∈ deps_set)
        && Nat.ltb 1 (length (py_split dep_to_be_added)))%bool
    then Ok (deps_set ∖ {[ dep_name_to_be_added ]}, Some dep_to_be_added)
    else
      found <~ name_in dep_name_to_be_added (set_order _ (elements deps_set)) ;;
      if found then Ok (deps_set, None) else Ok (deps_set, Some dep_to_be_added).

(** [r = check_matching(s, dep)] followed by [if r: s.add(r)]. *)
Definition merge_one (acc : result (gset string)) (dep : string) : result (gset string) :=
  deps_set <~ acc ;;
  r <~ check_matching deps_set dep ;;
  match snd r with
  | Some dep_to_update =>
      if str_is_empty dep_to_update then Ok (fst r)
      else Ok (fst r ∪ {[ dep_to_update ]})
  | None => Ok (fst r)
  end.

(** [dependencies] is the sequence the loop visits. *)
Definition _get_unique_deps_names (dependencies : list string) : result (gset string) :=
  fold_left merge_one (map generalize_version dependencies) (Ok ∅).

Definition check_and_add (dependencies : list string) (parent_set : gset string)
    : result (gset string) :=
  unique <~ _get_unique_deps_names dependencies ;;
  fold_left merge_one (set_order _ (elements unique)) (Ok parent_set).

End Installable.

(** ** Vocabulary of the specifications *)

Section GraphVocabulary.
Context {V : Type}.
Variable same : V → V → bool.

(** On the objects of [U] the key test is identity: no two distinct
    objects of [U] are the same key.  A dict keeps this true of its keys. *)
Definition canonical (U : list V) : Prop :=
  Forall (λ x, Forall (λ y, same x y = true ↔ x = y) U) U.

(** No key is stored twice. *)
Fixpoint distinct_keys (keys : list V) : Prop :=
  match keys with
  | [] => True
  | x :: rest => Forall (λ y, same x y = false) rest ∧ distinct_keys rest
  end.

(** [A → B]: [B] is a key of [G[A]]. *)
Definition edge (G : DiGraph V) (u v : V) : Prop :=
  ∃ keys, (u, keys) ∈ _succ G ∧ v ∈ keys.

(** [A] depends on [B], directly or transitively. *)
Definition depends_on (G : DiGraph V) : relation V := tc (edge G).

Definition acyclic (G : DiGraph V) : Prop := ∀ x, ¬ depends_on G x x.

(** The shape networkx keeps: one entry per node, every neighbour a
    node. *)
Definition well_formed (G : DiGraph V) : Prop :=
  NoDup (nodes G) ∧
  Forall (λ e, Forall (λ v, v ∈ nodes G) (snd e)) (_succ G).

(** [_pred] mirrors [_succ]: the same nodes, and [u] a key of
    [_pred[v]] exactly when [v] is a key of [_succ[u]]. *)
Definition pred_consistent (G : DiGraph V) : Prop :=
  map fst (_pred G) = nodes G ∧
  ∀ u v, (∃ keys, (v, keys) ∈ _pred G ∧ u ∈ keys) ↔ edge G u v.

(** [a] is yielded before [b]. *)
Definition before {A} (l : list A) (a b : A) : Prop :=
  ∃ l1 l2 l3, l = l1 ++ a :: l2 ++ b :: l3.

(** Consecutive elements are joined by edges. *)
Fixpoint chain (G : DiGraph V) (l : list V) : Prop :=
  match l with
  | [] => True
  | x :: rest =>
      match rest with
      | [] => True
      | y :: _ => edge G x y ∧ chain G rest
      end
  end.

(** A simple cycle, listed from any of its nodes: no node twice, each
    node joined to the next and the last to the first. *)
Definition simple_cycle (G : DiGraph V) (c : list V) : Prop :=
  c ≠ [] ∧ NoDup c ∧ chain G (c ++ take 1 c).

Definition rotation (c c' : list V) : Prop :=
  ∃ l1 l2, c = l1 ++ l2 ∧ c' = l2 ++ l1.

(** What [networkx.simple_cycles] promises: simple cycles only, and each
    simple cycle of the graph from one of its nodes. *)
Definition lists_simple_cycles (G : DiGraph V) (cycles : list (list V)) : Prop :=
  Forall (simple_cycle G) cycles ∧
  ∀ c, simple_cycle G c → ∃ c', c' ∈ cycles ∧ rotation c c'.

End GraphVocabulary.

(** ** The loop invariant of the depth-first search *)

Section DfsInvariant.
Context {V : Type}.
Variable same : V → V → bool.
Variable G : DiGraph V.

Definition frame_node (f : frame V) : V := f.1.1.
Definition frame_depth (f : frame V) : nat := f.1.2.
Definition frame_children (f : frame V) : list V := f.2.

(** The stack is a path of the graph from the root of the search to the
    node on top, and the depth budget of a frame counts down from
    [len(G)] at the root. *)
Fixpoint stack_linked (stack : list (frame V)) : Prop :=
  match stack with
  | [] => True
  | f :: rest =>
      frame_depth f + length rest = length (nodes G) ∧
      match rest with
      | [] => True
      | g :: _ => edge G (frame_node g) (frame_node f)
      end ∧
      stack_linked rest
  end.

Record dfs_inv (visited : list V) (stack : list (frame V)) (out : list V) : Prop := {
  inv_nodes : ∀ x, x ∈ visited → x ∈ nodes G;
  inv_visited : ∀ x, x ∈ visited ↔ x ∈ out ∨ x ∈ map frame_node stack;
  inv_nodup : NoDup (out ++ map frame_node stack);
  inv_linked : stack_linked stack;
  inv_children :
    Forall (λ f,
      (∀ c, c ∈ frame_children f → edge G (frame_node f) c) ∧
      (∀ v, edge G (frame_node f) v → v ∈ frame_children f ∨ v ∈ visited)) stack;
  inv_topo : ∀ u v, u ∈ out → edge G u v → before out v u
}.

(** What is left to do: the children still to be taken off each frame,
    and the adjacency lists of the nodes not entered yet. *)
Definition stack_cost (stack : list (frame V)) : nat :=
  sum_list (map (λ f, S (length (frame_children f))) stack).

Definition weight (visited : list V) : nat :=
  sum_list (map (λ e : V * list V,
                   if memb same e.1 visited then 0 else S (length e.2))
              (_succ G)).
End DfsInvariant.

(** A graph in good shape, all of whose nodes are objects of [U]. *)
Definition good {V : Type} (U : list V) (G : DiGraph V) : Prop :=
  well_formed G ∧ ∀ x, x ∈ nodes G → x ∈ U.

(** Every element of the set has a first token: [split()[0]] succeeds on
    it. *)
Definition tokens_ok (deps_set : gset string) : Prop :=
  ∀ d, d ∈ deps_set → py_split d ≠ [].

(** The base name of an entry, and the test of the last loop of
    [check_matching]. *)
Definition base_name (dep : string) : option string := head (py_split dep).

Definition same_base (name dep : string) : bool :=
  String.eqb name (default "" (base_name dep)).

(** The concatenation of a list of strings. *)
Definition concat_strings (parts : list string) : string :=
  fold_right String.append "" parts.

(** What the resolver guarantees of each call to the external channel:
    the node has no build command, the package is one of its packages, and
    the channels are the node's own, then the channels of the build
    commands among its ancestors in the graph at that moment, then the
    global list. *)
Definition query_ok (set_order : ordering) (global_channels : list string) (q : query) : Prop :=
  DependencyNode.build_command (q_node q) = None ∧
  q_package q ∈ DependencyNode.packages (q_node q) ∧
  q_channels q =
    DependencyNode.channels (q_node q)
    ++ ancestor_channels_of set_order (q_graph q) (q_node q)
    ++ global_channels.

(** The linker as the specification words it, searching the node set as it
    was before linking began: for a buildable node of that set and a
    dependency of its build command, an edge to a node of that set that
    provides the dependency and differs from the source, and, when no node
    of that set provides it, a new external node holding exactly the
    dependency string, with an edge to it. *)
Definition searches_snapshot (set_order : ordering) (hash_None : Z)
    (hash_key : list string → Z) (remove_version : string → string)
    (tree : DiGraph DependencyNode.t) : Prop :=
  let linked := _create_edges set_order hash_None hash_key remove_version tree in
  ∀ node cmd dependency,
    node ∈ nodes tree →
    DependencyNode.build_command node = Some cmd →
    dependency ∈ BuildCommand.get_all_dependencies cmd →
    let found := filter (provides remove_version (remove_version dependency)) (nodes tree) in
    (found ≠ [] →
       ∃ dest, dest ∈ found ∧
         (DependencyNode.__eq__ node dest = false → edge linked node dest)) ∧
    (found = [] →
       external_node hash_None hash_key dependency ∈ nodes linked ∧
       edge linked node (external_node hash_None hash_key dependency)).

(** ** Decidable equality and decidable shapes *)

#[global] Instance Error_eq_dec : EqDecision Error.
Proof. solve_decision. Defined.

#[global] Instance exn_eq_dec : EqDecision exn.
Proof. solve_decision. Defined.

#[global] Instance result_eq_dec {A : Type} `{EqDecision A} : EqDecision (result A).
Proof. solve_decision. Defined.

#[global] Instance BuildCommand_eq_dec : EqDecision BuildCommand.t.
Proof. solve_decision. Defined.

#[global] Instance DependencyNode_eq_dec : EqDecision DependencyNode.t.
Proof. solve_decision. Defined.

#[global] Instance obj_eq_dec : EqDecision obj.
Proof. solve_decision. Defined.

#[global] Instance well_formed_dec {V : Type} `{EqDecision V} (G : DiGraph V) :
  Decision (well_formed G).
Proof. unfold well_formed. apply _. Defined.

#[global] Instance canonical_dec {V : Type} `{EqDecision V} (same : V → V → bool) U :
  Decision (canonical same U).
Proof. unfold canonical. apply _. Defined.

#[global] Instance distinct_keys_dec {V : Type} (same : V → V → bool) (keys : list V) :
  Decision (distinct_keys same keys).
Proof. induction keys as [|x keys IH]; simpl; apply _. Defined.

(** ** A small build tree

    Three recipes: tensorflow and pytorch, which both need numpy, and
    blas.  No recipe builds numpy: it comes from the external channel,
    whose metadata says that numpy needs blas and libgcc. *)

(** A hash for the examples: the length of the recipe name. *)
Definition example_hash (key : list string) : Z :=
  Z.of_nat (String.length (default "" (head key))).

Definition example_cmd (recipe : string) (deps : gset string) (channels : list string)
    : BuildCommand.t :=
  BuildCommand.mk recipe "repo" "3.9" "cpu" "openmpi" "11.2" deps ∅ ∅ ∅ channels true [].

Definition example_node (recipe : string) (deps : gset string) : DependencyNode.t :=
  DependencyNode.__init__ 0 example_hash {[ recipe ]}
    (Some (example_cmd recipe deps [recipe +:+ "-channel"])) None.

Definition tensorflow : DependencyNode.t := example_node "tensorflow" {[ "numpy" ]}.
Definition pytorch : DependencyNode.t := example_node "pytorch" {[ "numpy" ]}.
Definition blas : DependencyNode.t := example_node "blas" ∅.
Definition numpy : DependencyNode.t :=
  DependencyNode.__init__ 0 example_hash {[ "numpy" ]} None None.
Definition libgcc : DependencyNode.t :=
  DependencyNode.__init__ 0 example_hash {[ "libgcc" ]} None None.

(** Modelled from the spec: [utils.remove_version] is not among the
    sources.  The qualifier-stripped name is the package name with its
    version or constraint suffix removed; for the examples, the first token
    of the dependency string. *)
Definition example_remove_version (dep : string) : string :=
  default "" (base_name dep).

(** The external channel of the example; libgcc is a virtual package. *)
Definition example_channel (channels : list string) (package : string)
    : result (option package_info) :=
  if String.eqb package "numpy" then Ok (Some (mkInfo ["blas"; "libgcc"]))
  else if String.eqb package "libgcc" then Ok None
  else Ok (Some (mkInfo [])).

(** The three recipe nodes, as [_create_nodes] returns them. *)
Definition example_recipes : DiGraph DependencyNode.t :=
  add_node DependencyNode.same_key
    (add_node DependencyNode.same_key
       (add_node DependencyNode.same_key empty_graph tensorflow) pytorch) blas.

(** After [_create_edges]: tensorflow → numpy, pytorch → numpy. *)
Definition example_linked_tree : DiGraph DependencyNode.t :=
  _create_edges identity_order 0 example_hash example_remove_version example_recipes.

(** After [_create_remote_deps]: numpy → blas and numpy → libgcc besides. *)
Definition example_tree : DiGraph DependencyNode.t :=
  dep_graph
    (_create_remote_deps identity_order 0 example_hash example_remove_version
       ["defaults"] example_channel (λ _, "deps") 10 example_linked_tree).1.

(** The same graph as a graph of objects, for the traversal. *)
Definition as_objects (G : DiGraph DependencyNode.t) : DiGraph obj :=
  {| _succ := map (λ e, (ONode e.1, map ONode e.2)) (_succ G);
     _pred := map (λ e, (ONode e.1, map ONode e.2)) (_pred G) |}.

Definition example_obj_tree : DiGraph obj := as_objects example_tree.

Definition example_store : store :=
  {| cells := λ _, example_obj_tree; next_ref := 1 |}.

(** A rank that decreases along every edge of the example. *)
Definition example_rank (x : obj) : nat :=
  match x with
  | ONode n =>
      match elements (DependencyNode.packages n) with
      | [p] =>
          if String.eqb p "numpy" then 2
          else if (String.eqb p "blas" || String.eqb p "libgcc")%bool then 1
          else 3
      | _ => 0
      end
  | OStr _ => 0
  end.

(** One recipe that names the same package twice, bare and qualified. *)
Definition scipy : DependencyNode.t :=
  example_node "scipy" {[ "numpy"; "numpy >=1.19" ]}.

Definition scipy_tree : DiGraph DependencyNode.t :=
  add_node DependencyNode.same_key empty_graph scipy.

(** Two recipes that need each other, and the one simple cycle of their
    graph. *)
Definition cyclic_tree : DiGraph DependencyNode.t :=
  add_edge DependencyNode.same_key
    (add_edge DependencyNode.same_key empty_graph tensorflow pytorch)
    pytorch tensorflow.

Definition cyclic_tree_cycles (G : DiGraph DependencyNode.t) : list (list DependencyNode.t) :=
  [[tensorflow; pytorch]].

From Stdlib Require Import Sorted.

(** * The rest of the module *)

(** ** Exhausted generators

    [next(generator)] raises [StopIteration] when the generator has
    nothing left to yield.  The functions below call [next]; their
    outcome is a value, one of the exceptions above, or
    [StopIteration]. *)

Inductive raised :=
| StopIteration
| Exception (e : exn).

Inductive outcome (A : Type) :=
| Returns (a : A)
| Raises (r : raised).
Arguments Returns {A} a.
Arguments Raises {A} r.

Definition outcome_bind {A B} (m : outcome A) (k : A → outcome B) : outcome B :=
  match m with
  | Returns a => k a
  | Raises r => Raises r
  end.

Notation "x <~~ m ;; k" := (outcome_bind m (λ x, k))
  (at level 100, m at next level, right associativity).

Definition lift {A} (m : result A) : outcome A :=
  match m with
  | Ok a => Returns a
  | Raise e => Raises (Exception e)
  end.

(** ** Descendants ([networkx.descendants]) *)

Section Descendants.
Context {V : Type}.
Variable same : V → V → bool.

(** One round of the forward search: the successors of the nodes
  reached so far that are not reached yet. *)
Definition new_successors (G : DiGraph V) (reached : list V) : list V :=
py_set same
  (filter (λ s, negb (memb same s reached))
     (flat_map (λ x, default [] (dict_get same (_succ G) x)) reached)).

Fixpoint reach_forward (rounds : nat) (G : DiGraph V) (reached : list V) : list V :=
match rounds with
| O => reached
| S rounds' =>
    match new_successors G reached with
    | [] => reached
    | fresh => reach_forward rounds' G (reached ++ fresh)
    end
end.

(** All nodes that a path from [source] leads to, [source] itself left
  out; a [source] that is not a node of the graph is an error. *)
Definition descendants (G : DiGraph V) (source : V) : result (list V) :=
if has_node same G source
then Ok (filter (λ x, negb (same x source))
           (reach_forward (length (nodes G)) G [source]))
else Raise NetworkXError.

(** [G.in_degree()]: each node with the number of its predecessors. *)
Definition in_degree (G : DiGraph V) : result (list (V * nat)) :=
fold_right
  (λ n acc,
     rest <~ acc ;;
     match dict_get same (_pred G) n with
     | Some preds => Ok ((n, length preds) :: rest)
     | None => Raise KeyError
     end)
  (Ok []) (nodes G).

End Descendants.

(** ** is_independent and get_independent_runtime_deps *)

(** [not {x for x in networkx.descendants(tree, node) if x.build_command is not None}] *)
Definition is_independent (node : DependencyNode.t) (tree : DiGraph DependencyNode.t)
    : result bool :=
  reachable <~ descendants DependencyNode.same_key tree node ;;
  Ok (match py_set DependencyNode.same_key (filter is_buildable reachable) with
      | [] => true
      | _ :: _ => false
      end).

Section IndependentDeps.
Variable set_order : ordering.
Variable remove_version : string → string.

(** The run dependencies that are not packages of the node itself. *)
Definition foreign_run_deps (node : DependencyNode.t) (cmd : BuildCommand.t) : gset string :=
filter (λ x, provides remove_version (remove_version x) node = false)
  (BuildCommand.run_dependencies cmd).

(** The body of the loop over [run_deps].  The generator expression reads
  [tree.successors(node)] when it is created, and [next] takes its
  first element that provides the dependency. *)
Definition add_if_independent (tree : DiGraph DependencyNode.t) (node : DependencyNode.t)
  (acc : outcome (gset string)) (run_dep : string) : outcome (gset string) :=
deps <~~ acc ;;
candidates <~~ lift (successors DependencyNode.same_key tree node) ;;
match filter (provides remove_version (remove_version run_dep)) candidates with
| [] => Raises StopIteration
| run_dep_node :: _ =>
    independent <~~ lift (is_independent run_dep_node tree) ;;
    Returns (if independent then deps ∪ {[ run_dep ]} else deps)
end.

Definition get_independent_runtime_deps (tree : DiGraph DependencyNode.t)
  (node : DependencyNode.t) : outcome (gset string) :=
match DependencyNode.build_command node with
| Some cmd =>
    fold_left (add_if_independent tree node)
      (set_order _ (elements (foreign_run_deps node cmd))) (Returns ∅)
| None => Returns ∅
end.

End IndependentDeps.

(** ** BuildTree: iteration and dependency names *)

(** The heap in which the graph of a tree sits at reference 0. *)
Definition graph_store (G : DiGraph DependencyNode.t) : store :=
  {| cells := λ _, as_objects G; next_ref := 1 |}.

(** [BuildTree.__iter__] and [BuildTree.BuildNodes], run to the end. *)
Definition __iter__ (self : BuildTree.t) : option (result (list yielded)) :=
  (traverse_build_commands (graph_store (BuildTree._tree self)) 0
     (BuildTree._initial_nodes self) false).2.

Definition BuildNodes (self : BuildTree.t) : option (result (list yielded)) :=
  (traverse_build_commands (graph_store (BuildTree._tree self)) 0
     (BuildTree._initial_nodes self) true).2.

Section DependencyNames.
(** [BuildCommand.name] (not among the sources). *)
Variable name : BuildCommand.t → string.

(** [[dep for dep in self._tree.successors(node) if dep.build_command]],
  each node with the build command the filter found. *)
Definition buildable_successors (succs : list DependencyNode.t)
  : list (DependencyNode.t * BuildCommand.t) :=
omap (λ dep, cmd ← DependencyNode.build_command dep; Some (dep, cmd)) succs.

(** The unique package groups, in the order of their first occurrence. *)
Definition unique_packages (deps : list (DependencyNode.t * BuildCommand.t))
  : list (gset string) :=
fold_left
  (λ dep_packages dep,
     if bool_decide (DependencyNode.packages dep.1 ∈ dep_packages)
     then dep_packages
     else dep_packages ++ [DependencyNode.packages dep.1])
  deps [].

(** [next(x.build_command.name() for x in deps if dep_package == x.packages)] *)
Definition first_name (deps : list (DependencyNode.t * BuildCommand.t))
  (dep_package : gset string) : outcome string :=
match filter (λ x, dep_package = DependencyNode.packages x.1) deps with
| x :: _ => Returns (name x.2)
| [] => Raises StopIteration
end.

Definition quoted (x : string) : string := "'" +:+ x +:+ "'".

Definition build_command_dependencies (self : BuildTree.t) (node : DependencyNode.t)
  : outcome string :=
succs <~~ lift (successors DependencyNode.same_key (BuildTree._tree self) node) ;;
let deps := buildable_successors succs in
terms <~~
  fold_left
    (λ acc dep_package,
       terms <~~ acc ;;
       term <~~ first_name deps dep_package ;;
       Returns (terms ++ [term]))
    (unique_packages deps) (Returns []) ;;
Returns (join ", " (map quoted terms)).

End DependencyNames.

(** ** get_installable_packages *)

(** [sorted(retval, key=len)]: a stable sort, here by insertion behind the
    entries that are not longer. *)
Fixpoint insert_by_len (x : string) (l : list string) : list string :=
  match l with
  | [] => [x]
  | y :: rest =>
      if Nat.ltb (String.length x) (String.length y) then x :: l
      else y :: insert_by_len x rest
  end.

Definition sorted_by_len (l : list string) : list string :=
  fold_left (λ acc x, insert_by_len x acc) l [].

Section InstallablePackages.
Variable set_order : ordering.
Variable hash_None : Z.
Variable hash_key : list string → Z.
Variable remove_version : string → string.
Variable generalize_version : string → string.
(** [conda_utils.output_file_to_string] (not among the sources). *)
Variable output_file_to_string : string → string.

(** [check_and_add] on a set of dependencies. *)
Definition check_and_add_set (dependencies : gset string) (parent_set : gset string)
  : result (gset string) :=
check_and_add set_order generalize_version (set_order _ (elements dependencies)) parent_set.

(** The body of the loop over the nodes the traversal yields; every
  yielded node has a build command. *)
Definition add_node_packages (build_commands : DiGraph DependencyNode.t)
  (independent : bool) (acc : outcome (gset string))
  (item : DependencyNode.t * BuildCommand.t) : outcome (gset string) :=
retval <~~ acc ;;
let '(node, build_command) := item in
if BuildCommand.runtime_package build_command then
  run_deps <~~
    (if independent
     then get_independent_runtime_deps set_order remove_version build_commands node
     else Returns (BuildCommand.run_dependencies build_command)) ;;
  retval <~~ lift (check_and_add_set run_deps retval) ;;
  if independent then Returns retval
  else
    lift (check_and_add set_order generalize_version
            (map output_file_to_string (BuildCommand.output_files build_command))
            retval)
else Returns retval.

(** The body of the loop over [external_deps]. *)
Definition add_external_dep (build_commands : DiGraph DependencyNode.t)
  (independent : bool) (acc : outcome (gset string)) (dep : string)
  : outcome (gset string) :=
retval <~~ acc ;;
wanted <~~
  (if independent
   then lift (is_independent
                (DependencyNode.__init__ hash_None hash_key {[ dep ]} None None)
                build_commands)
   else Returns true) ;;
if (wanted : bool) then lift (check_and_add_set {[ dep ]} retval)
else Returns retval.

(** The nodes of a traversal that returns nodes, each with its build
  command. *)
Definition yielded_nodes (items : list yielded)
  : list (DependencyNode.t * BuildCommand.t) :=
omap (λ y, match y with
           | YNode n => cmd ← DependencyNode.build_command n; Some (n, cmd)
           | YCommand _ => None
           end) items.

(** The traversal is run to its end before the loop body; on a
  well-formed graph it does not raise.  [None] is a traversal that ran
  out of budget. *)
Definition get_installable_packages (build_commands : DiGraph DependencyNode.t)
  (external_deps : list string) (starting_nodes : list DependencyNode.t)
  (independent : bool) : option (outcome (list string)) :=
match (traverse_build_commands (graph_store build_commands) 0 starting_nodes true).2 with
| None => None
| Some (Raise e) => Some (Raises (Exception e))
| Some (Ok items) =>
    Some (
      retval <~~ fold_left (add_node_packages build_commands independent)
                   (yielded_nodes items) (Returns ∅) ;;
      retval <~~ fold_left (add_external_dep build_commands independent)
                   external_deps (Returns retval) ;;
      Returns (sorted_by_len (set_order _ (elements retval))))
end.

End InstallablePackages.

(** ** BuildTree.__init__: the start nodes of a variant *)

(** [n.packages.intersection(packages)] is not empty. *)
Definition has_one_of (packages : list string) (n : DependencyNode.t) : bool :=
  existsb (λ p, bool_decide (p ∈ DependencyNode.packages n)) packages.

(** The nodes without predecessors, replaced, when packages are asked
    for, by the nodes the traversal yields that have one of them.  The
    source runs the same traversal once more for every package, to log
    the packages that no recipe has. *)
Definition variant_start_nodes (variant_tree : DiGraph DependencyNode.t)
    (packages : list string) : option (result (list DependencyNode.t)) :=
  match in_degree DependencyNode.same_key variant_tree with
  | Raise e => Some (Raise e)
  | Ok degrees =>
      let roots :=
        py_set DependencyNode.same_key
          (map fst (filter (λ nd, Nat.eqb nd.2 0 = true) degrees)) in
      match packages with
      | [] => Some (Ok roots)
      | _ :: _ =>
          match (traverse_build_commands (graph_store variant_tree) 0 [] true).2 with
          | None => None
          | Some (Raise e) => Some (Raise e)
          | Some (Ok items) =>
              Some (Ok (py_set DependencyNode.same_key
                          (filter (λ n, has_one_of packages n = true)
                             (map fst (yielded_nodes items)))))
          end
      end
  end.

(** ** BuildTree._get_repo *)

(** [s.rfind(c)]: the index of the last occurrence, if there is one. *)
Fixpoint rfind (c : ascii) (s : string) : option nat :=
  match s with
  | EmptyString => None
  | String x rest =>
      match rfind c rest with
      | Some i => Some (S i)
      | None => if Ascii.eqb x c then Some 0 else None
      end
  end.

(** [s[i:]] *)
Fixpoint drop_chars (i : nat) (s : string) : string :=
  match i, s with
  | S i', String _ rest => drop_chars i' rest
  | _, _ => s
  end.

(** [s.endswith(suffix)] *)
Definition endswith (s suffix : string) : bool :=
  (Nat.leb (String.length suffix) (String.length s)
   && String.eqb (drop_chars (String.length s - String.length suffix) s) suffix)%bool.

(** [os.path.basename(p)]: [p[p.rfind('/') + 1:]]. *)
Definition basename (p : string) : string :=
  match rfind "/" p with
  | Some i => drop_chars (S i) p
  | None => p
  end.

(** Some character of the string is not a dot. *)
Fixpoint has_non_dot (s : string) : bool :=
  match s with
  | EmptyString => false
  | String x rest => (negb (Ascii.eqb x ".") || has_non_dot rest)%bool
  end.

(** [os.path.splitext(p)[0]]: the extension starts at the last dot, when
    that dot comes after the last slash and some character between the
    two is not a dot. *)
Definition splitext_root (p : string) : string :=
  match rfind "." p with
  | Some dotIndex =>
      let filenameIndex := match rfind "/" p with Some sepIndex => S sepIndex | None => 0 end in
      if (Nat.leb filenameIndex dotIndex
          && has_non_dot (String.substring filenameIndex (dotIndex - filenameIndex) p))%bool
      then String.substring 0 dotIndex p
      else p
  | None => p
  end.

(** [os.path.join(a, b)] *)
Definition path_join (a b : string) : string :=
  if String.prefix "/" b then b
  else if (str_is_empty a || endswith a "/")%bool then a +:+ b
  else a +:+ "/" +:+ b.

Section GetRepo.
(** [utils.SUPPORTED_GIT_PROTOCOLS] (not among the sources). *)
Variable SUPPORTED_GIT_PROTOCOLS : list string.
(** [os.path.exists] when the method is called. *)
Variable path_exists : string → bool.
Variable _git_location : string.
Variable _repository_folder : string.

(** The directory returned, and the arguments of the call to
  [_clone_repo] when the directory does not exist yet. *)
Definition _get_repo (feedstock_value : string) : string * option (string * string) :=
let '(git_url, repository) :=
  if existsb (λ protocol, String.prefix protocol feedstock_value) SUPPORTED_GIT_PROTOCOLS
  then
    let git_url :=
      if endswith feedstock_value ".git" then feedstock_value
      else feedstock_value +:+ ".git" in
    (git_url, splitext_root (basename git_url))
  else
    (_git_location +:+ "/" +:+ feedstock_value +:+ "-feedstock.git",
     feedstock_value +:+ "-feedstock") in
let repo_dir :=
  if str_is_empty _repository_folder then repository
  else path_join _repository_folder repository in
(repo_dir, if path_exists repo_dir then None else Some (git_url, repo_dir)).
End GetRepo.

(** ** Vocabulary of further properties *)

(** The graph with every edge turned round ([_succ] and [_pred]
    exchanged). *)
Definition transpose {V : Type} (G : DiGraph V) : DiGraph V :=
  {| _succ := _pred G; _pred := _succ G |}.

(** The shape networkx keeps, on both adjacency dicts, with all nodes
    objects of [U]. *)
Definition sound {V : Type} (U : list V) (G : DiGraph V) : Prop :=
  good U G ∧ pred_consistent G.

(** No separator character occurs in the string. *)
Fixpoint no_space (s : string) : bool :=
  match s with
  | EmptyString => true
  | String c rest => negb (is_space c) && no_space rest
  end.

(** No two entries of the set name the same package, and every entry
    names one. *)
Definition one_entry_per_package (deps_set : gset string) : Prop :=
  tokens_ok deps_set ∧
  ∀ d1 d2, d1 ∈ deps_set → d2 ∈ deps_set → base_name d1 = base_name d2 → d1 = d2.

(** The strings a node contributes to the installable packages: the run
    dependencies of its build command and, unless only independent
    packages are asked for, its output files. *)
Definition contributes (output_file_to_string : string → string) (independent : bool)
    (cmd : BuildCommand.t) (x : string) : Prop :=
  BuildCommand.runtime_package cmd = true ∧
  (x ∈ BuildCommand.run_dependencies cmd ∨
   (independent = false ∧
    x ∈ map output_file_to_string (BuildCommand.output_files cmd))).

(** Where an entry of the installable packages comes from: the
    generalised form of an external dependency, or of a string that a
    build command yielded by the traversal contributes. *)
Definition from_inputs (generalize_version output_file_to_string : string → string)
    (items : list yielded) (external_deps : list string) (independent : bool)
    (d : string) : Prop :=
  ∃ x, d = generalize_version x ∧
       (x ∈ external_deps ∨
        ∃ node cmd, YNode node ∈ items ∧
                    DependencyNode.build_command node = Some cmd ∧
                    contributes output_file_to_string independent cmd x).

(** [G] has grown out of [G0] by nodes without build commands: every
    node and every edge of [G0] is in [G], and [G] has no node with a
    build command that [G0] does not have. *)
Definition grown (G0 G : DiGraph DependencyNode.t) : Prop :=
  (∀ x, x ∈ nodes G0 → x ∈ nodes G) ∧
  (∀ x, x ∈ nodes G → is_buildable x = true → x ∈ nodes G0) ∧
  (∀ a b, edge G0 a b → edge G a b).

(** No two calls to the channel were for the same package name, and
    the name of every call is recorded as seen. *)
Definition asked_once (remove_version : string → string) (st : resolver) : Prop :=
  NoDup (map (λ q, remove_version (q_package q)) (queries st)) ∧
  ∀ q, q ∈ queries st →
       existsb (String.eqb (remove_version (q_package q))) (seen st) = true.

(** The node depends on no other node that has a build command. *)
Definition no_build_below (tree : DiGraph DependencyNode.t) (node : DependencyNode.t)
    : Prop :=
  ∀ x, x ≠ node → depends_on tree node x → DependencyNode.build_command x = None.

(** A dependency of a node is met in the graph: the node itself provides
    the package, or one of its successors does. *)
Definition dependency_met (remove_version : string → string)
    (G : DiGraph DependencyNode.t) (node : DependencyNode.t) (dependency : string) : Prop :=
  provides remove_version (remove_version dependency) node = true ∨
  ∃ dest, edge G node dest ∧
          provides remove_version (remove_version dependency) dest = true.

(** The node is as [__init__] made it: the stored hash is the hash of
    its build command. *)
Definition as_created (hash_None : Z) (hash_key : list string → Z)
    (n : DependencyNode.t) : Prop :=
  DependencyNode._hash_val n = py_hash hash_None hash_key (DependencyNode.build_command n).

#[global] Instance as_created_dec hash_None hash_key n :
  Decision (as_created hash_None hash_key n).
Proof. unfold as_created. apply _. Defined.

(** * Properties *)

(** ** DependencyNode: equality and hash *)

Section NodeIdentity.
Variable hash_None : Z.
Variable hash_key : list string → Z.

Abbreviation init := (DependencyNode.__init__ hash_None hash_key).

Lemma BuildCommand_eq_refl c : BuildCommand.__eq__ c c = true.
Proof. unfold BuildCommand.__eq__. by apply bool_decide_eq_true. Qed.

Lemma BuildCommand_eq_trans c1 c2 c3 :
  BuildCommand.__eq__ c1 c2 = true → BuildCommand.__eq__ c2 c3 = true →
  BuildCommand.__eq__ c1 c3 = true.
Proof.
  unfold BuildCommand.__eq__. rewrite !bool_decide_eq_true. congruence.
Qed.

Lemma BuildCommand_eq_sym c1 c2 :
  BuildCommand.__eq__ c1 c2 = BuildCommand.__eq__ c2 c1.
Proof.
  unfold BuildCommand.__eq__. apply bool_decide_ext. split; congruence.
Qed.

Lemma BuildCommand_eq_hash c1 c2 :
  BuildCommand.__eq__ c1 c2 = true →
  py_hash hash_None hash_key (Some c1) = py_hash hash_None hash_key (Some c2).
Proof.
  unfold BuildCommand.__eq__. rewrite bool_decide_eq_true. simpl. by intros ->.
Qed.

Lemma node_eq_sym a b : DependencyNode.__eq__ a b = DependencyNode.__eq__ b a.
Proof.
  unfold DependencyNode.__eq__.
  destruct (DependencyNode.build_command a), (DependencyNode.build_command b);
    try apply BuildCommand_eq_sym; apply bool_decide_ext; split; congruence.
Qed.

Lemma node_eq_refl a : DependencyNode.__eq__ a a = true.
Proof.
  unfold DependencyNode.__eq__. destruct (DependencyNode.build_command a).
  - apply BuildCommand_eq_refl.
  - by apply bool_decide_eq_true.
Qed.

Lemma same_key_refl a : DependencyNode.same_key a a = true.
Proof.
  unfold DependencyNode.same_key. rewrite node_eq_refl, Z.eqb_refl. done.
Qed.

(** A stored key that has a build command cannot tell apart two probes
    whose build commands are equal. *)
Lemma same_key_buildable_probe s a b ca cb :
  is_buildable s = true →
  DependencyNode.build_command a = Some ca →
  DependencyNode.build_command b = Some cb →
  BuildCommand.__eq__ ca cb = true →
  DependencyNode.__hash__ a = DependencyNode.__hash__ b →
  DependencyNode.same_key s a = DependencyNode.same_key s b.
Proof.
  unfold is_buildable, is_external, DependencyNode.same_key, DependencyNode.__eq__.
  intros Hs Ha Hb Heq ->. rewrite Ha, Hb.
  destruct (DependencyNode.build_command s) as [cs|]; [|done].
  f_equal.
  destruct (BuildCommand.__eq__ cs ca) eqn:E1, (BuildCommand.__eq__ cs cb) eqn:E2; try done.
  - rewrite <- E2. symmetry. eauto using BuildCommand_eq_trans.
  - rewrite <- E1. rewrite BuildCommand_eq_sym in Heq. eauto using BuildCommand_eq_trans.
Qed.


End NodeIdentity.



(** ** Sets built from key-distinct sequences *)

Section PySet.
Context {V : Type}.
Variable same : V → V → bool.

Lemma distinct_keys_fresh (acc rest : list V) x :
  distinct_keys same (acc ++ x :: rest) → memb same x acc = false.
Proof.
  induction acc as [|s acc IH]; [done|]. simpl. intros [Hs Hrest].
  rewrite (IH Hrest), orb_false_r.
  rewrite Forall_forall in Hs. apply Hs. apply elem_of_app. right. left.
Qed.

Lemma set_insert_all_distinct (acc seq : list V) :
  distinct_keys same (acc ++ seq) → set_insert_all same acc seq = acc ++ seq.
Proof.
  revert acc. induction seq as [|x seq IH]; intros acc Hd; simpl.
  - by rewrite app_nil_r.
  - unfold keys_add. rewrite (distinct_keys_fresh acc seq x Hd).
    rewrite IH; by rewrite <- app_assoc.
Qed.

Lemma py_set_distinct (l : list V) :
  distinct_keys same l → py_set same l = l.
Proof. intros Hd. by apply (set_insert_all_distinct []). Qed.

Lemma set_insert_all_elem_of (acc seq : list V) x :
  x ∈ set_insert_all same acc seq → x ∈ acc ∨ x ∈ seq.
Proof.
  revert acc. induction seq as [|y seq IH]; intros acc; simpl; [by left|].
  intros [Hx|Hx]%IH; [|right; by right].
  unfold keys_add in Hx. destruct (memb same y acc); [by left|].
  apply elem_of_app in Hx as [?| ->%list_elem_of_singleton]; [by left|right; left].
Qed.

Lemma set_insert_all_prefix (acc seq : list V) :
  ∃ more, set_insert_all same acc seq = acc ++ more.
Proof.
  revert acc. induction seq as [|y seq IH]; intros acc; simpl.
  - exists []. by rewrite app_nil_r.
  - unfold keys_add. destruct (memb same y acc); [apply IH|].
    destruct (IH (acc ++ [y])) as [more ->]. exists (y :: more).
    by rewrite <- app_assoc.
Qed.

Lemma py_set_elem_of (l : list V) x : x ∈ py_set same l → x ∈ l.
Proof. intros [?%elem_of_nil|?]%set_insert_all_elem_of; done. Qed.

Lemma py_set_nil (l : list V) : py_set same l = [] ↔ l = [].
Proof.
  split; [|by intros ->]. destruct l as [|x l]; [done|].
  unfold py_set. simpl. unfold keys_add. simpl.
  destruct (set_insert_all_prefix [x] l) as [more ->]. done.
Qed.

Lemma distinct_keys_filter (P : V → bool) (l : list V) :
  distinct_keys same l → distinct_keys same (filter P l).
Proof.
  induction l as [|x l IH]; [done|]. intros [Hx Hl].
  rewrite filter_cons. case_decide; simpl; [|by apply IH].
  split; [|by apply IH].
  apply Forall_forall. intros y Hy. apply list_elem_of_filter in Hy as [_ Hy].
  by eapply Forall_forall in Hx.
Qed.
End PySet.

(** ** Sets and orderings *)

Lemma ordering_elem_of (set_order : ordering) {A} (l : list A) x :
  is_ordering set_order → x ∈ set_order A l ↔ x ∈ l.
Proof. intros Hord. by rewrite (Hord A l). Qed.

Lemma keys_add_subset {V} (same : V → V → bool) (keys : list V) k x :
  x ∈ keys_add same keys k → x ∈ keys ∨ x = k.
Proof.
  unfold keys_add. destruct (memb same k keys); [by left|].
  by rewrite elem_of_app, list_elem_of_singleton.
Qed.

(** ** BuildTree.__len__ *)

Lemma filter_length_lt {A} (P : A → bool) (l : list A) (x : A) :
  x ∈ l → P x = false → length (filter P l) < length l.
Proof.
  induction l as [|y l IH]; [by intros ?%elem_of_nil|].
  intros [->|Hx]%elem_of_cons HP; rewrite filter_cons.
  - rewrite decide_False by (rewrite HP; intros []). simpl. pose proof (length_filter P l). lia.
  - specialize (IH Hx HP). case_decide; simpl; lia.
Qed.

(** C10. [len()] is the number of nodes of the graph that have a build
    command; it is below the number of nodes as soon as one node has
    none. *)
Theorem BuildTree_len_counts_buildable (self : BuildTree.t) :
  distinct_keys DependencyNode.same_key (nodes (BuildTree._tree self)) →
  BuildTree.__len__ self =
    length (filter is_buildable (nodes (BuildTree._tree self))) ∧
  (∀ n, n ∈ nodes (BuildTree._tree self) →
        DependencyNode.build_command n = None →
        BuildTree.__len__ self < length (nodes (BuildTree._tree self))).
Proof.
  intros Hd. unfold BuildTree.__len__.
  rewrite py_set_distinct by by apply distinct_keys_filter.
  split; [done|]. intros n Hn Hnone.
  apply (filter_length_lt _ _ n Hn). unfold is_buildable, is_external. by rewrite Hnone.
Qed.

(** ** traverse_build_commands and the caller's graph *)

Lemma mutate_other σ r f r' : r' ≠ r → cells (mutate σ r f) r' = cells σ r'.
Proof. intros Hne. simpl. by apply Nat.eqb_neq in Hne as ->. Qed.

Lemma fold_mutate_other {A} (f : A → DiGraph obj → DiGraph obj) (l : list A) σ r r' :
  r' ≠ r →
  cells (fold_left (λ σ x, mutate σ r (f x)) l σ) r' = cells σ r'.
Proof.
  intros Hne. revert σ. induction l as [|x l IH]; intros σ; [done|].
  simpl. rewrite IH. by apply mutate_other.
Qed.

(** C9. A complete run of [traverse_build_commands] leaves every graph
    that existed before the call as it was, the caller's graph among them:
    same nodes, same edges.  The virtual start node and its edges go to a
    copy held in a fresh cell. *)
Theorem traverse_leaves_graph_unchanged
    (σ : store) (build_tree : nat) (starting_nodes : list DependencyNode.t)
    (return_node : bool) :
  build_tree < next_ref σ →
  let σ' := fst (traverse_build_commands σ build_tree starting_nodes return_node) in
  deref σ' build_tree = deref σ build_tree ∧
  nodes (deref σ' build_tree) = nodes (deref σ build_tree) ∧
  edges (deref σ' build_tree) = edges (deref σ build_tree) ∧
  ∀ r, r < next_ref σ → deref σ' r = deref σ r.
Proof.
  intros Hlt σ'.
  assert (Hall : ∀ r, r < next_ref σ → deref σ' r = deref σ r).
  { intros r Hr. subst σ'. unfold traverse_build_commands, deref.
    destruct starting_nodes as [|s starts]; [done|].
    cbn -[fold_left add_edge add_node copy dfs_postorder_nodes dfs_fuel].
    rewrite (fold_mutate_other
               (λ dep G, add_edge obj_same_key G false_start_node (ONode dep))) by lia.
    assert (Hne : r ≠ next_ref σ) by lia.
    simpl. apply Nat.eqb_neq in Hne. by rewrite Hne. }
  rewrite (Hall build_tree Hlt). done.
Qed.

(** ** The merge rule *)

Lemma existsb_perm {A} (f : A → bool) (l1 l2 : list A) :
  l1 ≡ₚ l2 → existsb f l1 = existsb f l2.
Proof.
  induction 1 as [|x l1 l2 _ IH|x y l|l1 l2 l3 _ IH1 _ IH2]; simpl.
  - done.
  - by rewrite IH.
  - destruct (f x), (f y); done.
  - congruence.
Qed.

Lemma perm3_inv {A} (a b c : A) (l : list A) :
  l ≡ₚ [a; b; c] →
  l = [a; b; c] ∨ l = [a; c; b] ∨ l = [b; a; c] ∨
  l = [b; c; a] ∨ l = [c; a; b] ∨ l = [c; b; a].
Proof.
  intros Hp.
  assert (Hlen := Permutation_length Hp).
  destruct l as [|x [|y [|z [|]]]]; simplify_eq/=.
  assert (Hx : x ∈ [a; b; c]) by (rewrite <- Hp; left).
  apply elem_of_cons in Hx as [->|Hx]; [|apply elem_of_cons in Hx as [->|Hx]].
  - apply Permutation_cons_inv in Hp.
    apply Permutation_sym, Permutation_length_2_inv in Hp as [?|?]; simplify_eq; auto.
  - assert (Hp' : [y; z] ≡ₚ [a; c]).
    { apply (Permutation_cons_inv (a := b)). rewrite Hp. apply Permutation_swap. }
    apply Permutation_sym, Permutation_length_2_inv in Hp' as [?|?]; simplify_eq; auto 10.
  - apply list_elem_of_singleton in Hx as ->.
    assert (Hp' : [y; z] ≡ₚ [a; b]).
    { apply (Permutation_cons_inv (a := c)). rewrite Hp.
      change ([a; b; c]) with ([a; b] ++ [c]). by rewrite Permutation_app_comm. }
    apply Permutation_sym, Permutation_length_2_inv in Hp' as [?|?]; simplify_eq; auto 10.
Qed.

Lemma tokens_ok_empty : tokens_ok ∅.
Proof. intros d Hd. by apply not_elem_of_empty in Hd. Qed.

Section MergeRule.
Variable set_order : ordering.
Hypothesis set_order_perm : is_ordering set_order.

Lemma name_in_tokens name deps :
  Forall (λ d, py_split d ≠ []) deps →
  name_in name deps = Ok (existsb (same_base name) deps).
Proof.
  induction 1 as [|d deps Hd _ IH]; [done|]. simpl.
  unfold first_token, same_base, base_name.
  destruct (py_split d) as [|n ts]; [done|]. simpl.
  destruct (String.eqb name n); [done|]. apply IH.
Qed.

Lemma name_in_set name (deps_set : gset string) :
  tokens_ok deps_set →
  name_in name (set_order _ (elements deps_set))
    = Ok (existsb (same_base name) (elements deps_set)).
Proof.
  intros Hok. rewrite name_in_tokens.
  - by rewrite (existsb_perm _ _ _ (set_order_perm _ _)).
  - apply Forall_forall. intros d Hd. apply Hok.
    rewrite (set_order_perm _ _) in Hd. by apply elem_of_elements in Hd.
Qed.

Lemma check_matching_any_order deps_set dep :
  tokens_ok deps_set →
  check_matching set_order deps_set dep = check_matching identity_order deps_set dep.
Proof.
  intros Hok. unfold check_matching.
  case_bool_decide; [done|].
  destruct (first_token dep) as [n|e]; [|done]. simpl.
  destruct (_ && _); [done|].
  rewrite name_in_set by done.
  unfold identity_order. rewrite name_in_tokens; [done|].
  apply Forall_forall. intros d Hd. apply Hok. by apply elem_of_elements in Hd.
Qed.

Lemma check_matching_tokens deps_set dep deps_set' r :
  tokens_ok deps_set →
  check_matching set_order deps_set dep = Ok (deps_set', r) →
  tokens_ok deps_set' ∧ (∀ d, r = Some d → d = dep ∧ py_split d ≠ []).
Proof.
  intros Hok. unfold check_matching, first_token.
  case_bool_decide; [intros [= <- <-]; split; [done|by intros]|].
  destruct (py_split dep) as [|n ts] eqn:Hs; [done|]. simpl.
  destruct (_ && _).
  - intros [= <- <-]. split.
    + intros d [Hd _]%elem_of_difference. by apply Hok.
    + intros d [= <-]. by rewrite Hs.
  - destruct (name_in _ _) as [[]|]; simpl; intros [= <- <-]; (split; [done|]).
    + by intros.
    + intros d [= <-]. by rewrite Hs.
Qed.

Lemma merge_one_any_order deps_set dep :
  tokens_ok deps_set →
  merge_one set_order (Ok deps_set) dep = merge_one identity_order (Ok deps_set) dep.
Proof.
  intros Hok. unfold merge_one. simpl. by rewrite check_matching_any_order.
Qed.

Lemma merge_one_tokens deps_set dep deps_set' :
  tokens_ok deps_set →
  merge_one set_order (Ok deps_set) dep = Ok deps_set' →
  tokens_ok deps_set'.
Proof.
  intros Hok. unfold merge_one. simpl.
  destruct (check_matching _ _ _) as [[s r]|] eqn:Hc; [|done]. simpl.
  destruct (check_matching_tokens _ _ _ _ Hok Hc) as [Hs Hr].
  destruct r as [d|]; [|by intros [= <-]].
  destruct (str_is_empty d); intros [= <-]; [done|].
  destruct (Hr d eq_refl) as [-> Hd].
  intros x [Hx|Hx%elem_of_singleton]%elem_of_union; [by apply Hs|by subst].
Qed.

Lemma fold_merge_raise (order : ordering) l e :
  fold_left (merge_one order) l (Raise e) = Raise e.
Proof. induction l; [done|]. simpl. done. Qed.

Lemma fold_merge_any_order l deps_set :
  tokens_ok deps_set →
  fold_left (merge_one set_order) l (Ok deps_set)
    = fold_left (merge_one identity_order) l (Ok deps_set).
Proof.
  revert deps_set. induction l as [|dep l IH]; intros deps_set Hok; [done|].
  cbn [fold_left]. rewrite <- merge_one_any_order by done.
  destruct (merge_one set_order (Ok deps_set) dep) as [s|e] eqn:Hm.
  - apply IH. by eapply merge_one_tokens.
  - by rewrite !fold_merge_raise.
Qed.

Lemma merge_example_orders l :
  l ≡ₚ ["pkgA"; "pkgA >=2.0"; "pkgB"] →
  fold_left (merge_one set_order) l (Ok ∅) = Ok {[ "pkgA >=2.0"; "pkgB" ]}.
Proof.
  intros Hl. rewrite fold_merge_any_order by apply tokens_ok_empty.
  apply perm3_inv in Hl as [ -> | [ -> | [ -> | [ -> | [ -> | -> ]]]]];
    by apply (bool_decide_unpack _); vm_compute.
Qed.
End MergeRule.

Section MergeRuleExample.
Variable set_order : ordering.
Variable generalize_version : string → string.

Lemma check_and_add_example l :
  is_ordering set_order →
  l ≡ₚ ["pkgA"; "pkgA >=2.0"; "pkgB"] →
  Forall (λ d, generalize_version d = d) l →
  check_and_add set_order generalize_version l ∅ = Ok {[ "pkgA >=2.0"; "pkgB" ]}.
Proof.
  intros Hord Hl Hgv. unfold check_and_add, _get_unique_deps_names.
  assert (Hmap : map generalize_version l = l).
  { clear Hl. induction Hgv as [|d l Hd _ IH]; [done|]. simpl. by rewrite Hd, IH. }
  rewrite Hmap, (merge_example_orders _ Hord _ Hl). cbn [result_bind].
  rewrite (fold_merge_any_order _ Hord) by apply tokens_ok_empty.
  pose proof (Hord _ (elements ({[ "pkgA >=2.0"; "pkgB" ]} : gset string))) as Hp.
  assert (He : elements ({[ "pkgA >=2.0"; "pkgB" ]} : gset string)
               = ["pkgA >=2.0"; "pkgB"]) by (by vm_compute).
  rewrite He in Hp |- *.
  apply Permutation_sym, Permutation_length_2_inv in Hp as [-> | ->];
    by apply (bool_decide_unpack _); vm_compute.
Qed.

(** C8. Whatever order the entries of {"pkgA", "pkgA >=2.0", "pkgB"}
    are visited in, the merge rule leaves {"pkgA >=2.0", "pkgB"}.  One
    application of the rule to a set whose entries all have a base name:
    an entry already in the set is skipped; a qualified entry whose bare
    base name is in the set replaces it; otherwise an entry whose base
    name is the base name of some entry of the set is skipped; otherwise
    the entry is added. *)
Theorem merge_rule_example_and_cases :
  is_ordering set_order →
  (∀ l, l ≡ₚ ["pkgA"; "pkgA >=2.0"; "pkgB"] →
        fold_left (merge_one set_order) l (Ok ∅) = Ok {[ "pkgA >=2.0"; "pkgB" ]} ∧
        (Forall (λ d, generalize_version d = d) l →
         check_and_add set_order generalize_version l ∅
           = Ok {[ "pkgA >=2.0"; "pkgB" ]})) ∧
  (∀ deps_set dep, tokens_ok deps_set →
      (dep ∈ deps_set →
         merge_one set_order (Ok deps_set) dep = Ok deps_set) ∧
      (∀ name qualifier, dep ∉ deps_set → py_split dep = name :: qualifier →
         (name ∈ deps_set → qualifier ≠ [] →
            merge_one set_order (Ok deps_set) dep
              = Ok (deps_set ∖ {[ name ]} ∪ {[ dep ]})) ∧
         (¬ (name ∈ deps_set ∧ qualifier ≠ []) →
          (∃ d, d ∈ deps_set ∧ base_name d = Some name) →
            merge_one set_order (Ok deps_set) dep = Ok deps_set) ∧
         (¬ (name ∈ deps_set ∧ qualifier ≠ []) →
          (∀ d, d ∈ deps_set → base_name d ≠ Some name) →
            merge_one set_order (Ok deps_set) dep = Ok (deps_set ∪ {[ dep ]})))).
Proof.
  intros Hord. split.
  - intros l Hl. split; [by apply merge_example_orders|].
    by apply check_and_add_example.
  - intros deps_set dep Hok. split.
    + intros Hin. unfold merge_one, check_matching. simpl.
      by rewrite bool_decide_eq_true_2.
    + intros name qualifier Hnin Hsplit.
      assert (Hne : str_is_empty dep = false).
      { destruct dep; [by vm_compute in Hsplit|done]. }
      assert (Hlen : Nat.ltb 1 (length (py_split dep)) = bool_decide (qualifier ≠ [])).
      { rewrite Hsplit. destruct qualifier as [|q qs].
        - transitivity false; [done|].
          symmetry. apply bool_decide_eq_false_2. by intros [].
        - transitivity true; [done|].
          symmetry. by apply bool_decide_eq_true_2. }
      assert (Hfound :
        name_in name (set_order _ (elements deps_set))
          = Ok (existsb (same_base name) (elements deps_set)))
        by (by apply name_in_set).
      unfold merge_one, check_matching, first_token. cbn [result_bind].
      rewrite bool_decide_eq_false_2 by done. rewrite Hlen, Hsplit.
      cbn [result_bind]. rewrite Hfound. clear Hlen Hfound.
      split; [|split].
      * intros Hname Hq. rewrite !bool_decide_eq_true_2 by done. simpl.
        by rewrite Hne.
      * intros Hnot (d & Hd & Hbase).
        replace (bool_decide (name ∈ deps_set) && bool_decide (qualifier ≠ []))%bool
          with false.
        2:{ symmetry. apply andb_false_iff.
            destruct (decide (name ∈ deps_set)), (decide (qualifier ≠ []));
              try (left; by apply bool_decide_eq_false_2);
              try (right; by apply bool_decide_eq_false_2).
            by destruct Hnot. }
        simpl.
        replace (existsb (same_base name) (elements deps_set)) with true; [done|].
        symmetry. apply existsb_exists. exists d. split.
        { apply list_elem_of_In. by apply elem_of_elements. }
        unfold same_base. rewrite Hbase. simpl. apply String.eqb_refl.
      * intros Hnot Hnone.
        replace (bool_decide (name ∈ deps_set) && bool_decide (qualifier ≠ []))%bool
          with false.
        2:{ symmetry. apply andb_false_iff.
            destruct (decide (name ∈ deps_set)), (decide (qualifier ≠ []));
              try (left; by apply bool_decide_eq_false_2);
              try (right; by apply bool_decide_eq_false_2).
            by destruct Hnot. }
        simpl.
        replace (existsb (same_base name) (elements deps_set)) with false.
        { simpl. by rewrite Hne. }
        symmetry. apply not_true_is_false. intros (d & Hd & Hb)%existsb_exists.
        apply list_elem_of_In, elem_of_elements in Hd.
        apply (Hnone d Hd). unfold same_base in Hb. apply String.eqb_eq in Hb.
        unfold base_name in *. specialize (Hok d Hd).
        destruct (py_split d); [done|]. simpl in *. by subst.
Qed.
End MergeRuleExample.

Lemma merge_rule_example_and_cases_witness :
  check_and_add identity_order (λ d, d) ["pkgB"; "pkgA"; "pkgA >=2.0"] ∅
    = Ok {[ "pkgA >=2.0"; "pkgB" ]}.
Proof.
  assert (Hord : is_ordering identity_order) by (intros A l; reflexivity).
  destruct (merge_rule_example_and_cases identity_order (λ d, d) Hord) as [H _].
  apply (H ["pkgB"; "pkgA"; "pkgA >=2.0"]).
  - change ["pkgB"; "pkgA"; "pkgA >=2.0"] with (["pkgB"] ++ ["pkgA"; "pkgA >=2.0"]).
    by rewrite Permutation_app_comm.
  - by repeat constructor.
Defined.

(** ** Dicts and graphs over canonical keys *)

Section Canonical.
Context {V : Type}.
Variable same : V → V → bool.

Lemma canonical_same U x y :
  canonical same U → x ∈ U → y ∈ U → same x y = true ↔ x = y.
Proof.
  intros Hc Hx Hy. unfold canonical in Hc.
  rewrite Forall_forall in Hc. specialize (Hc x Hx).
  rewrite Forall_forall in Hc. by apply Hc.
Qed.

Lemma canonical_subseteq U U' :
  canonical same U → (∀ x, x ∈ U' → x ∈ U) → canonical same U'.
Proof.
  intros Hc Hsub. apply Forall_forall. intros x Hx.
  apply Forall_forall. intros y Hy. apply (canonical_same U); auto.
Qed.

Lemma memb_elem_of U k keys :
  canonical same U → k ∈ U → (∀ x, x ∈ keys → x ∈ U) →
  memb same k keys = true ↔ k ∈ keys.
Proof.
  intros Hc Hk Hsub. unfold memb. rewrite existsb_exists. split.
  - intros (s & Hs%list_elem_of_In & Hsame).
    apply (canonical_same U) in Hsame; auto. by subst.
  - intros Hin. exists k. split; [by apply list_elem_of_In|].
    by apply (canonical_same U).
Qed.

Lemma memb_false_not_elem_of U k keys :
  canonical same U → k ∈ U → (∀ x, x ∈ keys → x ∈ U) →
  memb same k keys = false ↔ k ∉ keys.
Proof.
  intros Hc Hk Hsub. rewrite <- (memb_elem_of U) by done.
  by destruct (memb same k keys).
Qed.

Lemma dict_get_elem_of {A} U (d : list (V * A)) k a :
  canonical same U → (∀ x, x ∈ map fst d → x ∈ U) → NoDup (map fst d) → k ∈ U →
  (k, a) ∈ d ↔ dict_get same d k = Some a.
Proof.
  intros Hc Hsub Hnd Hk. induction d as [|[s a'] d IH]; simpl.
  - split; [by intros ?%elem_of_nil|done].
  - simpl in Hnd. apply NoDup_cons in Hnd as [Hs Hnd].
    assert (Hs' : s ∈ U) by (apply Hsub; left).
    assert (Hsub' : ∀ x, x ∈ map fst d → x ∈ U) by (intros; apply Hsub; by right).
    specialize (IH Hsub' Hnd).
    destruct (same s k) eqn:Hsame.
    + apply (canonical_same U) in Hsame; auto. subst s. split.
      * intros [[= ->]|Hin]%elem_of_cons; [done|].
        exfalso. apply Hs. apply list_elem_of_fmap. by exists (k, a).
      * intros [= ->]. left.
    + assert (s ≠ k).
      { intros ->. rewrite (proj2 (canonical_same U k k Hc Hk Hk) eq_refl) in Hsame. done. }
      rewrite <- IH. split.
      * intros [[= -> ->]|Hin]%elem_of_cons; [done|done].
      * intros. by right.
Qed.

Lemma dict_get_is_Some {A} U (d : list (V * A)) k :
  canonical same U → k ∈ U → k ∈ map fst d → is_Some (dict_get same d k).
Proof.
  intros Hc Hk. induction d as [|[s a] d IH]; simpl.
  - by intros ?%elem_of_nil.
  - intros [Heq|Hin]%elem_of_cons.
    + subst s. rewrite (proj2 (canonical_same U k k Hc Hk Hk) eq_refl). by eexists.
    + destruct (same s k); [by eexists|by apply IH].
Qed.
End Canonical.

Section WellFormed.
Context {V : Type}.
Variable same : V → V → bool.
Variable G : DiGraph V.
Hypothesis Hcan : canonical same (nodes G).
Hypothesis Hwf : well_formed G.

Lemma edge_source u v : edge G u v → u ∈ nodes G.
Proof.
  intros (keys & Hin & _). unfold nodes. apply list_elem_of_fmap. by exists (u, keys).
Qed.

Lemma edge_target u v : edge G u v → v ∈ nodes G.
Proof.
  intros (keys & Hin & Hv). destruct Hwf as [_ Hcl].
  rewrite Forall_forall in Hcl. specialize (Hcl _ Hin). simpl in Hcl.
  rewrite Forall_forall in Hcl. by apply Hcl.
Qed.

Lemma succ_lookup u keys :
  u ∈ nodes G → (u, keys) ∈ _succ G ↔ dict_get same (_succ G) u = Some keys.
Proof.
  intros Hu. apply (dict_get_elem_of same (nodes G)); auto. by destruct Hwf.
Qed.

Lemma succ_lookup_node u :
  u ∈ nodes G → ∃ keys, dict_get same (_succ G) u = Some keys ∧
                         ∀ v, edge G u v ↔ v ∈ keys.
Proof.
  intros Hu.
  destruct (dict_get_is_Some same (nodes G) (_succ G) u Hcan Hu Hu) as [keys Hk].
  exists keys. split; [done|]. intros v. split.
  - intros (keys' & Hin & Hv). apply succ_lookup in Hin; [|done]. congruence.
  - intros Hv. exists keys. split; [|done]. by apply succ_lookup.
Qed.

Lemma depends_on_target u v : depends_on G u v → v ∈ nodes G.
Proof. induction 1; eauto using edge_target. Qed.

Lemma depends_on_source u v : depends_on G u v → u ∈ nodes G.
Proof. induction 1; eauto using edge_source. Qed.
End WellFormed.

Open Scope nat_scope.
Open Scope list_scope.

(** ** Order of a sequence *)

(** Membership in lists built from [++] and [::]. *)
Ltac list_membership :=
  rewrite ?elem_of_app, ?elem_of_cons, ?list_elem_of_singleton, ?elem_of_nil;
  first [ tauto | intuition (subst; auto 10); fail ].

Lemma before_app_r {A} (l : list A) w a b : before l a b → before (l ++ [w]) a b.
Proof.
  intros (l1 & l2 & l3 & ->). exists l1, l2, (l3 ++ [w]).
  by rewrite <- !app_assoc, <- !app_comm_cons, <- app_assoc.
Qed.

Lemma before_snoc {A} (l : list A) a b : a ∈ l → before (l ++ [b]) a b.
Proof.
  intros (l1 & l2 & ->)%list_elem_of_split. exists l1, l2, [].
  by rewrite <- app_assoc.
Qed.

Lemma before_elem_of {A} (l : list A) a b : before l a b → a ∈ l ∧ b ∈ l.
Proof.
  intros (l1 & l2 & l3 & ->). split.
  - apply elem_of_app. right. left.
  - apply elem_of_app. right. right. apply elem_of_app. right. left.
Qed.

Lemma NoDup_split_unique {A} (p p' q q' : list A) b :
  NoDup (p ++ b :: q) → p ++ b :: q = p' ++ b :: q' → p = p' ∧ q = q'.
Proof.
  revert p'. induction p as [|y p IH]; intros p' Hnd Heq.
  - destruct p' as [|x p']; simplify_eq/=; [done|].
    apply NoDup_cons in Hnd as [Hb _]. exfalso. apply Hb. apply elem_of_app. right. left.
  - destruct p' as [|x p']; simplify_eq/=.
    + apply NoDup_cons in Hnd as [Hb _]. exfalso. apply Hb. apply elem_of_app. right. left.
    + apply NoDup_cons in Hnd as [_ Hnd]. destruct (IH p' Hnd) as [-> ->]; done.
Qed.

Lemma before_trans {A} (l : list A) a b c :
  NoDup l → before l a b → before l b c → before l a c.
Proof.
  intros Hnd (l1 & l2 & l3 & Hl) (m1 & m2 & m3 & Hm).
  assert (Heq : (l1 ++ a :: l2) ++ b :: l3 = m1 ++ b :: (m2 ++ c :: m3)).
  { rewrite <- Hm, Hl. by rewrite <- app_assoc. }
  apply NoDup_split_unique in Heq as [_ ->].
  - exists l1, (l2 ++ b :: m2), m3. rewrite Hl. by rewrite <- !app_assoc.
  - rewrite <- app_assoc. simpl. by rewrite <- Hl.
Qed.

Lemma before_omap {A B} (f : A → option B) (l : list A) a b a' b' :
  f a = Some a' → f b = Some b' → before l a b → before (omap f l) a' b'.
Proof.
  intros Ha Hb (l1 & l2 & l3 & ->).
  exists (omap f l1), (omap f l2), (omap f l3).
  rewrite omap_app. simpl. rewrite Ha. rewrite omap_app. simpl. by rewrite Hb.
Qed.

(** ** Depth-first search on an acyclic graph *)

Section Dfs.
Context {V : Type}.
Variable same : V → V → bool.
Variable G : DiGraph V.
Hypothesis Hcan : canonical same (nodes G).
Hypothesis Hwf : well_formed G.
Hypothesis Hacyc : acyclic G.

Local Arguments memb : simpl never.

Lemma same_refl_node x : x ∈ nodes G → same x x = true.
Proof. intros Hx. by apply (canonical_same same (nodes G)). Qed.

Lemma stack_path (f : frame V) rest v :
  stack_linked G (f :: rest) → v ∈ map frame_node (f :: rest) →
  rtc (edge G) v (frame_node f).
Proof.
  revert f. induction rest as [|g rest IH]; intros f Hl Hv.
  - apply list_elem_of_singleton in Hv as ->. done.
  - simpl in Hv. apply elem_of_cons in Hv as [->|Hv]; [done|].
    destruct Hl as (_ & Hedge & Hl).
    eapply rtc_r; [|exact Hedge]. by apply IH.
Qed.

Lemma dfs_inv_pop visited parent d rest out :
  dfs_inv G visited ((parent, d, []) :: rest) out →
  dfs_inv G visited rest (out ++ [parent]).
Proof.
  intros [Hn Hv Hnd Hl Hc Ht]. split.
  - done.
  - intros x. rewrite Hv. simpl. list_membership.
  - simpl in Hnd. by rewrite <- app_assoc.
  - by destruct Hl as (_ & _ & Hl).
  - by apply Forall_cons in Hc as [_ Hc].
  - intros u v [Hu|Hu%list_elem_of_singleton]%elem_of_app Hedge.
    + by apply before_app_r, Ht.
    + subst u. apply before_snoc.
      apply Forall_cons in Hc as [[_ Hc] _]. simpl in Hc.
      destruct (Hc v Hedge) as [?%elem_of_nil|Hvis]; [done|].
      apply Hv in Hvis as [Hout|Hstack]; [done|].
      exfalso. apply (Hacyc parent).
      eapply tc_rtc_r; [by apply tc_once|].
      by apply (stack_path (parent, d, []) rest).
Qed.

Lemma dfs_inv_child_node visited parent d child cs rest out :
  dfs_inv G visited ((parent, d, child :: cs) :: rest) out →
  edge G parent child ∧ child ∈ nodes G.
Proof.
  intros [_ _ _ _ Hc _]. apply Forall_cons in Hc as [[Hc _] _].
  assert (edge G parent child) by (apply Hc; left).
  split; [done|]. by eapply edge_target.
Qed.

Lemma dfs_inv_skip visited parent d child cs rest out :
  dfs_inv G visited ((parent, d, child :: cs) :: rest) out →
  memb same child visited = true →
  dfs_inv G visited ((parent, d, cs) :: rest) out.
Proof.
  intros Hinv Hmem. destruct (dfs_inv_child_node _ _ _ _ _ _ _ Hinv) as [_ Hchild].
  destruct Hinv as [Hn Hv Hnd Hl Hc Ht].
  apply (memb_elem_of same (nodes G)) in Hmem; [|done..].
  split; try done.
  apply Forall_cons in Hc as [[Hc1 Hc2] Hc]. apply Forall_cons. split; [|done].
  simpl in *. split.
  - intros c Hin. apply Hc1. by right.
  - intros v Hedge. destruct (Hc2 v Hedge) as [[->|?]%elem_of_cons|?]; auto.
Qed.

Lemma memb_cons k x (l : list V) : memb same k (x :: l) = (same x k || memb same k l)%bool.
Proof. done. Qed.

Lemma sum_weight_visit (l : list (V * list V)) visited child gc :
  (child, gc) ∈ l → same child child = true → memb same child visited = false →
  sum_list (map (λ e : V * list V,
                   if memb same e.1 (child :: visited) then 0 else S (length e.2)) l)
    + S (length gc)
  ≤ sum_list (map (λ e : V * list V,
                     if memb same e.1 visited then 0 else S (length e.2)) l).
Proof.
  intros Hin Hrefl Hmem.
  assert (Hterm : ∀ e : V * list V,
    (if memb same e.1 (child :: visited) then 0 else S (length e.2))
    ≤ (if memb same e.1 visited then 0 else S (length e.2))).
  { intros e. rewrite memb_cons.
    destruct (same child e.1), (memb same e.1 visited); simpl; lia. }
  assert (Hle : ∀ l' : list (V * list V),
    sum_list (map (λ e : V * list V,
                   if memb same e.1 (child :: visited) then 0 else S (length e.2)) l')
    ≤ sum_list (map (λ e : V * list V,
                   if memb same e.1 visited then 0 else S (length e.2)) l')).
  { induction l' as [|e l' IH]; [done|]. simpl.
    specialize (Hterm e). lia. }
  induction l as [|e l IH]; [by apply elem_of_nil in Hin|].
  simpl.
  apply elem_of_cons in Hin as [<-|Hin].
  - rewrite memb_cons. cbn [fst snd]. rewrite Hrefl, Hmem. cbn [orb].
    specialize (Hle l). lia.
  - specialize (IH Hin). specialize (Hterm e). lia.
Qed.

Lemma weight_le_nil visited : weight same G visited ≤ weight same G [].
Proof.
  unfold weight, memb. induction (_succ G) as [|e l IH]; [done|]. simpl in *.
  destruct (existsb _ visited); lia.
Qed.

Lemma weight_nil : weight same G [] = length (nodes G) + length (edges G).
Proof.
  unfold weight, nodes, edges, memb. induction (_succ G) as [|e l IH]; [done|].
  simpl in *. rewrite IH, length_app, !length_map. lia.
Qed.

Lemma dfs_inv_push visited parent d child cs rest out :
  dfs_inv G visited ((parent, d, child :: cs) :: rest) out →
  memb same child visited = false →
  ∃ gc, dict_get same (_succ G) child = Some gc ∧
        Nat.ltb 1 d = true ∧
        dfs_inv G (child :: visited) ((child, d - 1, gc) :: (parent, d, cs) :: rest) out ∧
        weight same G (child :: visited) + S (length gc) ≤ weight same G visited.
Proof.
  intros Hinv Hmem.
  destruct (dfs_inv_child_node _ _ _ _ _ _ _ Hinv) as [Hedge Hchild].
  destruct Hinv as [Hn Hv Hnd Hl Hc Ht].
  apply (memb_false_not_elem_of same (nodes G)) in Hmem as Hnotin; [|done..].
  destruct (succ_lookup_node same G Hcan Hwf child Hchild) as (gc & Hgc & Hgc_edge).
  exists gc. split; [done|].
  assert (Hstack_vis : ∀ x, x ∈ map frame_node ((parent, d, child :: cs) :: rest) →
                            x ∈ visited) by (intros; apply Hv; by right).
  assert (Hout_vis : ∀ x, x ∈ out → x ∈ visited) by (intros; apply Hv; by left).
  assert (Hnd_stack : NoDup (child :: map frame_node ((parent, d, child :: cs) :: rest))).
  { apply NoDup_cons. split; [by intros ?%Hstack_vis|].
    by apply NoDup_app in Hnd as (_ & _ & ?). }
  assert (Hd : 1 < d).
  { destruct Hl as (Hdepth & _ & _). simpl in Hdepth.
    assert (Hlen : length (child :: map frame_node ((parent, d, child :: cs) :: rest))
                   ≤ length (nodes G)).
    { apply submseteq_length, NoDup_submseteq; [done|].
      intros x [->|Hx]%elem_of_cons; [done|]. by apply Hn, Hstack_vis. }
    simpl in Hlen. rewrite length_map in Hlen. unfold frame_depth in Hdepth.
    simpl in Hdepth. lia. }
  split; [by apply Nat.ltb_lt|]. split.
  - split.
    + intros x [->|Hx]%elem_of_cons; auto.
    + intros x. rewrite elem_of_cons, Hv. simpl. list_membership.
    + simpl. apply NoDup_app. apply NoDup_app in Hnd as (Hnd1 & Hnd2 & Hnd3).
      split; [done|]. split.
      * intros x Hx [->|Hin]%elem_of_cons; [by apply Hnotin, Hout_vis|].
        by apply (Hnd2 x).
      * done.
    + simpl. destruct Hl as (Hdepth & Hl1 & Hl2). unfold frame_depth in *. simpl in *.
      repeat split; try done. lia.
    + apply Forall_cons in Hc as [[Hc1 Hc2] Hc]. simpl in *.
      apply Forall_cons. split; [|apply Forall_cons; split].
      * simpl. split; [intros c Hin; by apply Hgc_edge|].
        intros v Hv'. left. by apply Hgc_edge.
      * simpl. split; [intros c Hin; apply Hc1; by right|].
        intros v Hv'. destruct (Hc2 v Hv') as [[->|?]%elem_of_cons|?].
        -- right. left.
        -- by left.
        -- right. by right.
      * eapply Forall_impl; [exact Hc|]. simpl. intros f [Hf1 Hf2]. split; [done|].
        intros v Hv'. destruct (Hf2 v Hv'); [by left|right; by right].
    + done.
  - unfold weight. apply sum_weight_visit; [|by apply same_refl_node|done].
    by apply (succ_lookup same G Hcan Hwf).
Qed.

Lemma dfs_while_correct fuel visited stack out root :
  dfs_inv G visited stack out →
  last (map frame_node stack) = Some root →
  stack_cost stack + weight same G visited < fuel →
  ∃ visited' out',
    dfs_while same fuel G visited stack out = Some (Ok (visited', out')) ∧
    dfs_inv G visited' [] (out' ++ [root]) ∧
    (∀ x, x ∈ visited → x ∈ visited').
Proof.
  revert visited stack out. induction fuel as [|fuel IH]; intros visited stack out;
    [lia|].
  intros Hinv Hroot Hfuel.
  destruct stack as [|[[parent d] children] rest]; [done|].
  simpl dfs_while. destruct children as [|child cs].
  - apply dfs_inv_pop in Hinv. destruct rest as [|g rest].
    + simpl in Hroot. injection Hroot as <-.
      destruct fuel as [|fuel]; [unfold stack_cost in Hfuel; simpl in Hfuel; lia|].
      simpl. eauto.
    + apply (IH _ _ _ Hinv).
      * rewrite !map_cons in Hroot. rewrite last_cons_cons in Hroot.
        by rewrite map_cons.
      * unfold stack_cost in *. simpl in *. lia.
  - destruct (memb same child visited) eqn:Hmem.
    + apply (IH _ _ _ (dfs_inv_skip _ _ _ _ _ _ _ Hinv Hmem)).
      * done.
      * unfold stack_cost in *. simpl in *. lia.
    + destruct (dfs_inv_push _ _ _ _ _ _ _ Hinv Hmem) as (gc & -> & -> & Hinv' & Hw).
      destruct (IH _ _ _ Hinv') as (visited' & out' & Hrun & Hfinal & Hmono).
      * rewrite !map_cons. rewrite last_cons_cons. by rewrite !map_cons in Hroot.
      * unfold stack_cost in *. simpl in *. unfold frame_children in *. simpl in *. lia.
      * exists visited', out'. split; [done|]. split; [done|].
        intros x Hx. apply Hmono. by right.
Qed.

Lemma dfs_starts_correct fuel starts visited out :
  dfs_fuel G ≤ fuel →
  dfs_inv G visited [] out →
  (∀ s, s ∈ starts → s ∈ nodes G) →
  ∃ visited' out',
    dfs_starts same fuel G starts visited out = Some (Ok (visited', out')) ∧
    dfs_inv G visited' [] out' ∧
    (∀ x, x ∈ visited → x ∈ visited') ∧
    (∀ s, s ∈ starts → s ∈ visited').
Proof.
  intros Hfuel. revert visited out.
  induction starts as [|start starts IH]; intros visited out Hinv Hstarts.
  - exists visited, out. split; [done|]. split; [done|]. split; [done|].
    by intros s ?%elem_of_nil.
  - assert (Hstart : start ∈ nodes G) by (apply Hstarts; left).
    assert (Hstarts' : ∀ s, s ∈ starts → s ∈ nodes G) by (intros; apply Hstarts; by right).
    simpl. destruct (memb same start visited) eqn:Hmem.
    + destruct (IH _ _ Hinv Hstarts') as (visited' & out' & Hrun & Hinv' & Hmono & Hcov).
      exists visited', out'. split; [done|]. split; [done|]. split; [done|].
      intros s [->|Hs]%elem_of_cons; [|by apply Hcov].
      apply Hmono. apply (memb_elem_of same (nodes G)) in Hmem; try done.
      by destruct Hinv.
    + destruct (succ_lookup_node same G Hcan Hwf start Hstart) as (cs & Hcs & Hcs_edge).
      rewrite Hcs.
      assert (Hnotin : start ∉ visited).
      { apply (memb_false_not_elem_of same (nodes G)) in Hmem; try done.
        by destruct Hinv. }
      assert (Hinv0 : dfs_inv G (start :: visited)
                        [(start, length (nodes G), cs)] out).
      { destruct Hinv as [Hn Hv Hnd Hl Hc Ht]. split.
        - intros x [->|Hx]%elem_of_cons; auto.
        - intros x. rewrite elem_of_cons, Hv. simpl. list_membership.
        - simpl in *. rewrite app_nil_r in Hnd. apply NoDup_app.
          split; [done|]. split; [|apply NoDup_singleton].
          intros x Hx ->%list_elem_of_singleton. apply Hnotin, Hv. by left.
        - simpl. unfold frame_depth. simpl. split; [lia|done].
        - apply Forall_singleton. simpl. split; [intros c ?; by apply Hcs_edge|].
          intros v Hv'. left. by apply Hcs_edge.
        - done. }
      destruct (dfs_while_correct fuel _ _ _ start Hinv0 eq_refl)
        as (visited1 & out1 & -> & Hinv1 & Hmono1).
      { unfold stack_cost. simpl. unfold frame_children. simpl.
        assert (weight same G (start :: visited) + S (length cs)
                ≤ weight same G visited).
        { unfold weight. apply sum_weight_visit; [|by apply same_refl_node|done].
          by apply (succ_lookup same G Hcan Hwf). }
        pose proof (weight_le_nil visited). rewrite weight_nil in *.
        unfold dfs_fuel in Hfuel. lia. }
      destruct (IH _ _ Hinv1 Hstarts') as (visited' & out' & Hrun & Hinv' & Hmono & Hcov).
      exists visited', out'. split; [done|]. split; [done|]. split.
      * intros x Hx. apply Hmono, Hmono1. by right.
      * intros s [->|Hs]%elem_of_cons; [|by apply Hcov].
        apply Hmono, Hmono1. left.
Qed.

(** The postorder of an acyclic graph: the search returns, no node is
    yielded twice, and whatever a yielded node depends on is yielded
    before it. *)
Lemma dfs_postorder_correct fuel source :
  dfs_fuel G ≤ fuel →
  (∀ s, source = Some s → s ∈ nodes G) →
  ∃ out,
    dfs_postorder_nodes same fuel G source = Some (Ok out) ∧
    NoDup out ∧
    (∀ u v, u ∈ out → depends_on G u v → before out v u) ∧
    (source = None → ∀ x, x ∈ nodes G → x ∈ out) ∧
    (∀ s, source = Some s → s ∈ out).
Proof.
  intros Hfuel Hsource. unfold dfs_postorder_nodes.
  set (starts := match source with None => nodes G | Some s => [s] end).
  assert (Hinv0 : dfs_inv G [] [] []).
  { split; try done.
    - by intros x ?%elem_of_nil.
    - intros x. simpl. list_membership.
    - simpl. constructor.
    - by intros u v ?%elem_of_nil. }
  destruct (dfs_starts_correct fuel starts [] [] Hfuel Hinv0)
    as (visited & out & -> & [Hn Hv Hnd Hl Hc Ht] & _ & Hcov).
  { subst starts. destruct source as [s|]; [|done].
    intros s' ->%list_elem_of_singleton. by apply Hsource. }
  exists out. split; [done|]. simpl in Hnd. rewrite app_nil_r in Hnd.
  split; [done|]. split; [|split].
  - intros u v Hu Hdep. revert Hu. induction Hdep as [u v Hedge|u w v Hedge Hdep IH].
    + intros Hu. by apply Ht.
    + intros Hu. pose proof (Ht u w Hu Hedge) as Hwu.
      apply (before_trans _ _ w); [done| |done].
      apply IH. by apply before_elem_of in Hwu as [? _].
  - intros -> x Hx. subst starts. specialize (Hcov x Hx). apply Hv in Hcov.
    simpl in Hcov. revert Hcov. list_membership.
  - intros s ->. subst starts. specialize (Hcov s). apply Hv in Hcov; [|left].
    simpl in Hcov. revert Hcov. list_membership.
Qed.
End Dfs.

(** ** Building graphs: add_node, add_edge, copy *)

Section Build.
Context {V : Type}.
Variable same : V → V → bool.
Variable U : list V.
Hypothesis HU : canonical same U.

Local Arguments memb : simpl never.

Abbreviation good := (good U).

Lemma canonical_eq_or_ne x y : x ∈ U → y ∈ U → x = y ∨ x ≠ y.
Proof.
  intros Hx Hy. destruct (same x y) eqn:Hsame.
  - left. by apply (canonical_same same U).
  - right. intros ->.
    rewrite (proj2 (canonical_same same U y y HU Hy Hy) eq_refl) in Hsame. done.
Qed.

Lemma edge_edges (G : DiGraph V) a b : edge G a b ↔ (a, b) ∈ edges G.
Proof.
  unfold edge, edges. rewrite list_elem_of_In, in_flat_map. split.
  - intros (keys & Hin & Hb). exists (a, keys). split; [by apply list_elem_of_In|].
    apply list_elem_of_In. simpl. apply list_elem_of_fmap. by exists b.
  - intros ([a' keys] & Hin%list_elem_of_In & Hb%list_elem_of_In). simpl in Hb.
    apply list_elem_of_fmap in Hb as (b' & [= -> ->] & Hb'). by exists keys.
Qed.

Lemma has_node_elem_of G n :
  good G → n ∈ U → has_node same G n = true ↔ n ∈ nodes G.
Proof. intros [_ HG] Hn. unfold has_node. by apply (memb_elem_of same U). Qed.

Lemma good_empty : good empty_graph.
Proof.
  split; [split|]; simpl; [constructor|constructor|by intros x ?%elem_of_nil].
Qed.

Lemma add_node_spec G n :
  good G → n ∈ U →
  good (add_node same G n) ∧
  (∀ x, x ∈ nodes (add_node same G n) ↔ x ∈ nodes G ∨ x = n) ∧
  (∀ a b, edge (add_node same G n) a b ↔ edge G a b).
Proof.
  intros HG Hn. unfold add_node.
  destruct (has_node same G n) eqn:Hhas.
  - apply has_node_elem_of in Hhas; [|done..].
    split; [done|]. split; [|done]. intros x. split; [by left|]. by intros [?| ->].
  - assert (Hnotin : n ∉ nodes G).
    { intros Hin. apply has_node_elem_of in Hin; [|done..]. congruence. }
    destruct HG as [[Hnd Hcl] HGU].
    assert (Hnodes : nodes {| _succ := _succ G ++ [(n, [])]; _pred := _pred G ++ [(n, [])] |}
                     = nodes G ++ [n]).
    { unfold nodes. simpl. by rewrite map_app. }
    split; [split; [split|]|split].
    + rewrite Hnodes. apply NoDup_app. split; [done|]. split; [|apply NoDup_singleton].
      by intros x Hx ->%list_elem_of_singleton.
    + rewrite Hnodes. simpl. apply Forall_app. split.
      * eapply Forall_impl; [exact Hcl|]. simpl. intros e He.
        eapply Forall_impl; [exact He|]. simpl. intros v Hv. apply elem_of_app. by left.
      * apply Forall_singleton. simpl. constructor.
    + intros x. rewrite Hnodes. intros [Hx| ->%list_elem_of_singleton]%elem_of_app; auto.
    + intros x. rewrite Hnodes, elem_of_app, list_elem_of_singleton. done.
    + intros a b. unfold edge. simpl. split.
      * intros (keys & [Hin|Hin%list_elem_of_singleton]%elem_of_app & Hb).
        -- by exists keys.
        -- injection Hin as -> ->. by apply elem_of_nil in Hb.
      * intros (keys & Hin & Hb). exists keys. split; [|done]. apply elem_of_app. by left.
Qed.

Lemma dict_set_present {A} (d : list (V * A)) k a :
  (∀ x, x ∈ map fst d → x ∈ U) → NoDup (map fst d) → k ∈ U → k ∈ map fst d →
  map fst (dict_set same d k a) = map fst d ∧
  ∀ x b, (x, b) ∈ dict_set same d k a ↔ (x = k ∧ b = a) ∨ (x ≠ k ∧ (x, b) ∈ d).
Proof.
  intros Hsub Hnd Hk Hin. induction d as [|[s a'] d IH]; [by apply elem_of_nil in Hin|].
  simpl in *. apply NoDup_cons in Hnd as [Hs Hnd].
  assert (Hs' : s ∈ U) by (apply Hsub; left).
  assert (Hsub' : ∀ x, x ∈ map fst d → x ∈ U) by (intros; apply Hsub; by right).
  destruct (same s k) eqn:Hsame.
  - apply (canonical_same same U) in Hsame; [|done..]. subst s. simpl.
    split; [done|]. intros x b. rewrite !elem_of_cons. split.
    + intros [[= -> ->]|Hx]; [by left|]. right. split; [|by right].
      intros ->. apply Hs. apply list_elem_of_fmap. by exists (k, b).
    + intros [[-> ->]|[Hne [[= ->]|Hx]]]; [by left|done|by right].
  - assert (Hne : s ≠ k).
    { intros ->. rewrite (proj2 (canonical_same same U k k HU Hk Hk) eq_refl) in Hsame.
      done. }
    apply elem_of_cons in Hin as [->|Hin]; [done|].
    destruct (IH Hsub' Hnd Hin) as [IH1 IH2]. simpl. split; [by rewrite IH1|].
    intros x b. rewrite !elem_of_cons, IH2. split.
    + intros [[= -> ->]|[?|[? ?]]]; [right; split; [done|by left]|by left|].
      right. split; [done|by right].
    + intros [?|[Hx [[= -> ->]|?]]]; [right; by left|by left|].
      right. right. done.
Qed.

Lemma keys_add_elem_of keys k x :
  (∀ y, y ∈ keys → y ∈ U) → k ∈ U →
  x ∈ keys_add same keys k ↔ x ∈ keys ∨ x = k.
Proof.
  intros Hsub Hk. unfold keys_add. destruct (memb same k keys) eqn:Hmem.
  - apply (memb_elem_of same U) in Hmem; [|done..]. split; [by left|]. by intros [?| ->].
  - by rewrite elem_of_app, list_elem_of_singleton.
Qed.

Lemma add_edge_spec G u v :
  good G → u ∈ U → v ∈ U →
  good (add_edge same G u v) ∧
  (∀ x, x ∈ nodes (add_edge same G u v) ↔ x ∈ nodes G ∨ x = u ∨ x = v) ∧
  (∀ a b, edge (add_edge same G u v) a b ↔ edge G a b ∨ (a = u ∧ b = v)).
Proof.
  intros HG Hu Hv.
  destruct (add_node_spec G u HG Hu) as (HG1 & Hn1 & He1).
  destruct (add_node_spec _ v HG1 Hv) as (HG2 & Hn2 & He2).
  set (G2 := add_node same (add_node same G u) v) in *.
  assert (Hu2 : u ∈ nodes G2) by (apply Hn2; left; apply Hn1; by right).
  assert (Hv2 : v ∈ nodes G2) by (apply Hn2; by right).
  destruct HG2 as [[Hnd Hcl] HGU].
  assert (Hcan2 : canonical same (nodes G2)) by (by apply (canonical_subseteq same U)).
  destruct (succ_lookup_node same G2 Hcan2 (conj Hnd Hcl) u Hu2) as (keys & Hkeys & Hkeys_edge).
  destruct (dict_set_present (_succ G2) u (keys_add same keys v) HGU Hnd Hu Hu2)
    as [Hfst Hset].
  assert (Hkeys_U : ∀ y, y ∈ keys → y ∈ U).
  { intros y Hy. apply HGU. apply (edge_target G2 (conj Hnd Hcl) u). by apply Hkeys_edge. }
  unfold add_edge. fold G2. rewrite Hkeys. simpl.
  assert (Hnodes : nodes {| _succ := dict_set same (_succ G2) u (keys_add same keys v);
                            _pred := dict_set same (_pred G2) v
                              (keys_add same (default [] (dict_get same (_pred G2) v)) u) |}
                   = nodes G2) by (unfold nodes; simpl; done).
  split; [split; [split|]|split].
  - by rewrite Hnodes.
  - rewrite Hnodes. simpl. apply Forall_forall. intros [x l] Hx. simpl.
    apply Hset in Hx as [[-> ->]|[Hne Hx]].
    + apply Forall_forall. intros y [Hy| ->]%keys_add_elem_of; [|done|done..].
      apply (edge_target G2 (conj Hnd Hcl) u). by apply Hkeys_edge.
    + rewrite Forall_forall in Hcl. by apply (Hcl (x, l)).
  - intros x. rewrite Hnodes. apply HGU.
  - intros x. rewrite Hnodes, Hn2, Hn1. split; [tauto|].
    intros [?|[->| ->]]; [tauto| |tauto]. left. by right.
  - intros a b. rewrite <- He1, <- He2. fold G2. unfold edge at 1. simpl. split.
    + intros (l & Hin & Hb). apply Hset in Hin as [[-> ->]|[Hne Hin]].
      * apply keys_add_elem_of in Hb as [Hb| ->]; [|by right|done..].
        left. by apply Hkeys_edge.
      * left. by exists l.
    + intros [(l & Hin & Hb)|[-> ->]].
      * assert (Ha : a ∈ nodes G2).
        { unfold nodes. apply list_elem_of_fmap. by exists (a, l). }
        destruct (canonical_eq_or_ne a u (HGU a Ha) Hu) as [->|Hne].
        -- apply (succ_lookup same G2 Hcan2 (conj Hnd Hcl) u l Hu2) in Hin.
           assert (l = keys) as -> by congruence.
           exists (keys_add same keys v). split; [apply Hset; by left|].
           apply keys_add_elem_of; [done..|]. by left.
        -- exists l. split; [|done]. apply Hset. by right.
      * exists (keys_add same keys v). split; [apply Hset; by left|].
        apply keys_add_elem_of; [done..|]. by right.
Qed.

Lemma fold_add_node_spec l G :
  good G → (∀ x, x ∈ l → x ∈ U) →
  good (fold_left (add_node same) l G) ∧
  (∀ x, x ∈ nodes (fold_left (add_node same) l G) ↔ x ∈ nodes G ∨ x ∈ l) ∧
  (∀ a b, edge (fold_left (add_node same) l G) a b ↔ edge G a b).
Proof.
  revert G. induction l as [|n l IH]; intros G HG Hl.
  - split; [done|]. split; [|done]. intros x. rewrite elem_of_nil. tauto.
  - simpl. destruct (add_node_spec G n HG) as (HG1 & Hn1 & He1); [apply Hl; left|].
    destruct (IH _ HG1) as (HG2 & Hn2 & He2); [intros; apply Hl; by right|].
    split; [done|]. split.
    + intros x. rewrite Hn2, Hn1, elem_of_cons. tauto.
    + intros a b. by rewrite He2, He1.
Qed.

Lemma fold_add_edge_spec (es : list (V * V)) G :
  good G → (∀ e, e ∈ es → e.1 ∈ U ∧ e.2 ∈ U) →
  good (fold_left (λ H e, add_edge same H e.1 e.2) es G) ∧
  (∀ x, x ∈ nodes (fold_left (λ H e, add_edge same H e.1 e.2) es G) ↔
        x ∈ nodes G ∨ ∃ e, e ∈ es ∧ (x = e.1 ∨ x = e.2)) ∧
  (∀ a b, edge (fold_left (λ H e, add_edge same H e.1 e.2) es G) a b ↔
          edge G a b ∨ (a, b) ∈ es).
Proof.
  revert G. induction es as [|[u v] es IH]; intros G HG Hes.
  - split; [done|]. split.
    + intros x. split; [by left|]. intros [?|(e & ?%elem_of_nil & _)]; done.
    + intros a b. rewrite elem_of_nil. tauto.
  - simpl. destruct (Hes (u, v)) as [Hu Hv]; [left|]. simpl in *.
    destruct (add_edge_spec G u v HG Hu Hv) as (HG1 & Hn1 & He1).
    destruct (IH _ HG1) as (HG2 & Hn2 & He2); [intros; apply Hes; by right|].
    split; [done|]. split.
    + intros x. rewrite Hn2, Hn1. split.
      * intros [[?|[->| ->]]|(e & He & Hx)]; [by left| | |].
        -- right. exists (u, v). split; [left|by left].
        -- right. exists (u, v). split; [left|by right].
        -- right. exists e. split; [by right|done].
      * intros [?|(e & [->|He]%elem_of_cons & Hx)]; [by left; left| |].
        -- simpl in Hx. left. right. done.
        -- right. by exists e.
    + intros a b. rewrite He2, He1, elem_of_cons. split.
      * intros [[?|[-> ->]]|?]; [by left|right; by left|right; by right].
      * intros [?|[[= -> ->]|?]]; [left; by left|left; by right|by right].
Qed.

Lemma copy_spec G :
  good G →
  good (copy same G) ∧
  (∀ x, x ∈ nodes (copy same G) ↔ x ∈ nodes G) ∧
  (∀ a b, edge (copy same G) a b ↔ edge G a b).
Proof.
  intros HG. unfold copy.
  destruct (fold_add_node_spec (nodes G) empty_graph good_empty) as (H1 & Hn1 & He1);
    [by destruct HG|].
  assert (Hends : ∀ e, e ∈ edges G → e.1 ∈ nodes G ∧ e.2 ∈ nodes G).
  { intros [a b] He%edge_edges. simpl. destruct HG as [HG _].
    split; [by eapply edge_source|by eapply edge_target]. }
  destruct (fold_add_edge_spec (edges G) _ H1) as (H2 & Hn2 & He2).
  { intros e He. destruct (Hends e He). destruct HG as [_ HG]. split; by apply HG. }
  split; [done|]. split.
  - intros x. rewrite Hn2, Hn1. simpl. rewrite elem_of_nil. split.
    + intros [[[]|?]|(e & He & [->| ->])]; [done|by apply Hends..].
    + intros ?. left. by right.
  - intros a b. rewrite He2, He1. rewrite <- edge_edges. split; [|by right].
    intros [(keys & ?%elem_of_nil & _)|?]; done.
Qed.
End Build.

(** A root with outgoing edges only closes no cycle. *)
Lemma acyclic_add_root {V : Type} (G G' : DiGraph V) (root : V) :
  acyclic G →
  (∀ a b, edge G' a b → (edge G a b ∨ a = root) ∧ b ≠ root) →
  acyclic G'.
Proof.
  intros Hacyc Hedges.
  assert (Hpath : ∀ x y, depends_on G' x y → y ≠ root ∧ (x ≠ root → depends_on G x y)).
  { intros x y Hdep. induction Hdep as [x y Hxy|x w y Hxw _ [IH1 IH2]].
    - destruct (Hedges x y Hxy) as [[?|?] ?]; split; try done.
      intros _. by apply tc_once.
    - split; [done|]. intros Hx. destruct (Hedges x w Hxw) as [[?|?] Hw]; [|done].
      eapply tc_l; [done|]. by apply IH2. }
  intros x Hx. destruct (Hpath x x Hx) as [Hne Hdep]. by apply (Hacyc x), Hdep.
Qed.

Lemma edge_depends_on_mono {V : Type} (G G' : DiGraph V) :
  (∀ a b, edge G a b → edge G' a b) →
  ∀ a b, depends_on G a b → depends_on G' a b.
Proof.
  intros Hsub a b Hdep. induction Hdep as [a b Hab|a w b Haw _ IH].
  - by apply tc_once, Hsub.
  - eapply tc_l; [by apply Hsub|done].
Qed.

(** ** traverse_build_commands yields dependencies first *)

Lemma fold_mutate_same {A} (f : A → DiGraph obj → DiGraph obj) (l : list A) σ r :
  cells (fold_left (λ σ x, mutate σ r (f x)) l σ) r
    = fold_left (λ G x, f x G) l (cells σ r).
Proof.
  revert σ. induction l as [|x l IH]; intros σ; [done|].
  simpl. rewrite IH. simpl. by rewrite Nat.eqb_refl.
Qed.

Lemma fold_add_edge_from (root : obj) (l : list DependencyNode.t) (G : DiGraph obj) :
  fold_left (λ G dep, add_edge obj_same_key G root (ONode dep)) l G
    = fold_left (λ H e, add_edge obj_same_key H e.1 e.2)
        (map (λ x, (root, x)) (map ONode l)) G.
Proof. revert G. induction l as [|x l IH]; intros G; [done|]. simpl. by rewrite IH. Qed.

Lemma yield_node_elem_of (out : list obj) (n : DependencyNode.t) :
  YNode n ∈ omap (yield_of true) out ↔ ONode n ∈ out ∧ is_buildable n = true.
Proof.
  rewrite list_elem_of_omap. unfold yield_of, is_buildable, is_external. split.
  - intros ([s|m] & Hin & Hy); [done|].
    destruct (DependencyNode.build_command m) eqn:Hm; [|done].
    injection Hy as ->. by rewrite Hm.
  - intros [Hin Hb]. exists (ONode n). split; [done|].
    by destruct (DependencyNode.build_command n).
Qed.

Lemma traverse_rooted σ build_tree starting_nodes return_node :
  starting_nodes ≠ [] →
  let G' := fold_left (λ G dep, add_edge obj_same_key G false_start_node (ONode dep))
              starting_nodes
              (add_node obj_same_key (copy obj_same_key (deref σ build_tree))
                 false_start_node) in
  snd (traverse_build_commands σ build_tree starting_nodes return_node)
    = match dfs_postorder_nodes obj_same_key (dfs_fuel G') G' (Some false_start_node) with
      | Some (Ok out) => Some (Ok (omap (yield_of return_node) out))
      | Some (Raise e) => Some (Raise e)
      | None => None
      end.
Proof.
  intros Hne G'. unfold traverse_build_commands.
  destruct starting_nodes as [|s starts]; [done|].
  cbn [alloc]. cbv zeta. cbn [fst snd]. unfold deref at 2 4.
  rewrite (fold_mutate_same
             (λ dep G, add_edge obj_same_key G false_start_node (ONode dep))).
  cbn [mutate cells]. rewrite Nat.eqb_refl. done.
Qed.

(** The graph the walk runs on when start nodes are given. *)
Lemma rooted_graph_spec (G : DiGraph obj) (starting_nodes : list DependencyNode.t) :
  well_formed G → acyclic G →
  canonical obj_same_key (false_start_node :: nodes G ++ map ONode starting_nodes) →
  false_start_node ∉ nodes G →
  let G' := fold_left (λ G dep, add_edge obj_same_key G false_start_node (ONode dep))
              starting_nodes
              (add_node obj_same_key (copy obj_same_key G) false_start_node) in
  well_formed G' ∧ canonical obj_same_key (nodes G') ∧ acyclic G' ∧
  false_start_node ∈ nodes G' ∧
  (∀ a b, edge G a b → edge G' a b) ∧
  (∀ s, s ∈ starting_nodes → edge G' false_start_node (ONode s)).
Proof.
  intros Hwf Hacyc Hcan Hroot G'.
  set (U := false_start_node :: nodes G ++ map ONode starting_nodes) in *.
  assert (HG : good U G).
  { split; [done|]. intros x Hx. subst U. right. apply elem_of_app. by left. }
  destruct (copy_spec obj_same_key U Hcan G HG) as (H1 & Hn1 & He1).
  destruct (add_node_spec obj_same_key U Hcan _ false_start_node H1) as (H2 & Hn2 & He2);
    [left|].
  assert (Hfold : G' = fold_left (λ H e, add_edge obj_same_key H e.1 e.2)
                         (map (λ x, (false_start_node, x)) (map ONode starting_nodes))
                         (add_node obj_same_key (copy obj_same_key G) false_start_node)).
  { subst G'. by rewrite fold_add_edge_from. }
  destruct (fold_add_edge_spec obj_same_key U Hcan
              (map (λ x, (false_start_node, x)) (map ONode starting_nodes)) _ H2)
    as (H3 & Hn3 & He3).
  { intros e (x & -> & Hx)%list_elem_of_fmap. simpl. split; [left|].
    right. apply elem_of_app. by right. }
  rewrite <- Hfold in H3, Hn3, He3. destruct H3 as [Hwf3 HU3].
  split; [done|]. split; [by apply (canonical_subseteq obj_same_key U)|].
  split; [|split; [|split]].
  - apply (acyclic_add_root G G' false_start_node Hacyc).
    intros a b [Hab|Hab]%He3.
    + apply He2, He1 in Hab. split; [by left|].
      intros ->. apply Hroot. by eapply edge_target.
    + apply list_elem_of_fmap in Hab as (x & [= -> ->] & Hx). split; [by right|].
      apply list_elem_of_fmap in Hx as (s & -> & _). done.
  - apply Hn3. left. apply Hn2. by right.
  - intros a b Hab. apply He3. left. by apply He2, He1.
  - intros s Hs. apply He3. right. apply list_elem_of_fmap.
    exists (ONode s). split; [done|]. apply list_elem_of_fmap. by exists s.
Qed.

(** C2. On an acyclic graph the traversal returns, and whenever it yields
    a node [A], every buildable node [B] that [A] depends on, by an edge or
    through a chain of edges (external nodes included), was yielded
    earlier.  Seeded at all nodes it reaches every node; seeded at start
    nodes, through the virtual root, it reaches every start node.  [out] is
    the postorder walk before the filter on build commands. *)
Theorem traversal_yields_dependencies_first
    (σ : store) (build_tree : nat) (starting_nodes : list DependencyNode.t) :
  well_formed (deref σ build_tree) →
  acyclic (deref σ build_tree) →
  canonical obj_same_key
    (false_start_node :: nodes (deref σ build_tree) ++ map ONode starting_nodes) →
  false_start_node ∉ nodes (deref σ build_tree) →
  ∃ out : list obj,
    NoDup out ∧
    (∀ return_node,
        snd (traverse_build_commands σ build_tree starting_nodes return_node)
          = Some (Ok (omap (yield_of return_node) out))) ∧
    (∀ return_node A B yA yB,
        ONode A ∈ out →
        depends_on (deref σ build_tree) (ONode A) (ONode B) →
        yield_of return_node (ONode A) = Some yA →
        yield_of return_node (ONode B) = Some yB →
        before (omap (yield_of return_node) out) yB yA) ∧
    (∀ A, YNode A ∈ omap (yield_of true) out ↔ ONode A ∈ out ∧ is_buildable A = true) ∧
    (starting_nodes = [] → ∀ x, x ∈ nodes (deref σ build_tree) → x ∈ out) ∧
    (∀ s, s ∈ starting_nodes → ONode s ∈ out).
Proof.
  intros Hwf Hacyc Hcan Hroot.
  set (G := deref σ build_tree) in *.
  assert (Hgoal : ∃ out : list obj,
    NoDup out ∧
    (∀ return_node,
        snd (traverse_build_commands σ build_tree starting_nodes return_node)
          = Some (Ok (omap (yield_of return_node) out))) ∧
    (∀ u v, u ∈ out → depends_on G u v → before out v u) ∧
    (starting_nodes = [] → ∀ x, x ∈ nodes G → x ∈ out) ∧
    (∀ s, s ∈ starting_nodes → ONode s ∈ out)).
  { destruct starting_nodes as [|s0 starts].
    - assert (Hcan' : canonical obj_same_key (nodes G)).
      { apply (canonical_subseteq obj_same_key _ _ Hcan). intros x Hx.
        right. apply elem_of_app. by left. }
      destruct (dfs_postorder_correct obj_same_key G Hcan' Hwf Hacyc (dfs_fuel G) None)
        as (out & Hrun & Hnd & Hdep & Hall & _); [done|done|].
      exists out. split; [done|]. split; [|split; [done|split]].
      + intros return_node. unfold traverse_build_commands. fold G. by rewrite Hrun.
      + intros _. by apply Hall.
      + by intros s ?%elem_of_nil.
    - assert (Hne : s0 :: starts ≠ []) by done.
      set (l := s0 :: starts) in *. clearbody l.
      destruct (rooted_graph_spec G l Hwf Hacyc Hcan Hroot)
        as (Hwf' & Hcan' & Hacyc' & Hroot' & Hsub & Hstart_edges).
      set (G' := fold_left (λ G dep, add_edge obj_same_key G false_start_node (ONode dep))
                   l (add_node obj_same_key (copy obj_same_key G) false_start_node)) in *.
      destruct (dfs_postorder_correct obj_same_key G' Hcan' Hwf' Hacyc' (dfs_fuel G')
                  (Some false_start_node))
        as (out & Hrun & Hnd & Hdep & _ & Hsrc); [done|by intros ? [= <-]|].
      exists out. split; [done|]. split; [|split; [|split]].
      + intros return_node. rewrite traverse_rooted by done. fold G. fold G'.
        by rewrite Hrun.
      + intros u v Hu Huv. apply Hdep; [done|]. by apply (edge_depends_on_mono G G').
      + done.
      + intros s Hs.
        assert (Hb : before out (ONode s) false_start_node).
        { apply Hdep; [by apply Hsrc|]. apply tc_once. by apply Hstart_edges. }
        by apply before_elem_of in Hb as [? _]. }
  destruct Hgoal as (out & Hnd & Hrun & Hdep & Hall & Hstart).
  exists out. split; [done|]. split; [done|]. split; [|split; [|done]].
  - intros return_node A B yA yB HA HAB HyA HyB.
    apply (before_omap _ _ (ONode B) (ONode A)); [done..|]. by apply Hdep.
  - apply yield_node_elem_of.
Qed.

Open Scope string_scope.
Open Scope list_scope.

(** ** The example tree *)

Lemma acyclic_ranked {V : Type} (rank : V → nat) (G : DiGraph V) :
  Forall (λ e, (rank e.2 < rank e.1)%nat) (edges G) → acyclic G.
Proof.
  intros Hrank.
  assert (Hdep : ∀ x y, depends_on G x y → (rank y < rank x)%nat).
  { intros x y Hxy. induction Hxy as [x y Hxy|x w y Hxw _ IH].
    - apply edge_edges in Hxy. rewrite Forall_forall in Hrank. by apply (Hrank (x, y)).
    - apply edge_edges in Hxw. rewrite Forall_forall in Hrank.
      specialize (Hrank (x, w) Hxw). simpl in Hrank. lia. }
  intros x Hx. specialize (Hdep x x Hx). lia.
Qed.

Lemma example_obj_tree_well_formed : well_formed example_obj_tree.
Proof. by apply (bool_decide_unpack _); vm_compute. Qed.

Lemma example_obj_tree_acyclic : acyclic example_obj_tree.
Proof.
  apply (acyclic_ranked example_rank). by apply (bool_decide_unpack _); vm_compute.
Qed.

Lemma example_obj_tree_canonical starts :
  starts = [pytorch] ∨ starts = [] →
  canonical obj_same_key (false_start_node :: nodes example_obj_tree ++ map ONode starts).
Proof. intros [-> | ->]; by apply (bool_decide_unpack _); vm_compute. Qed.

Lemma traversal_yields_dependencies_first_witness :
  ∃ out : list obj,
    snd (traverse_build_commands example_store 0 [pytorch] true)
      = Some (Ok (omap (yield_of true) out)) ∧
    before (omap (yield_of true) out) (YNode blas) (YNode pytorch).
Proof.
  destruct (traversal_yields_dependencies_first example_store 0 [pytorch])
    as (out & _ & Hrun & Hdep & _ & _ & Hstart).
  - exact example_obj_tree_well_formed.
  - exact example_obj_tree_acyclic.
  - apply example_obj_tree_canonical. by left.
  - by apply (bool_decide_unpack _); vm_compute.
  - exists out. split; [apply Hrun|].
    apply (Hdep true pytorch blas); [apply Hstart; left| |reflexivity|reflexivity].
    apply (tc_l _ _ (ONode numpy)); [|apply tc_once];
      apply edge_edges; by apply (bool_decide_unpack _); vm_compute.
Defined.

(** ** remove_external_deps_from_dag on the example tree *)

Lemma depends_on_first_edge {V : Type} (G : DiGraph V) x y :
  depends_on G x y → ∃ z, (x, z) ∈ edges G.
Proof.
  intros Hxy. destruct Hxy as [x y H|x z y H _].
  - exists y. by apply edge_edges.
  - exists z. by apply edge_edges.
Qed.

(** C1, on the example tree, the graph that the linker and the resolver
    build from the three recipes.  Before the pass pytorch depends on blas
    through the external node numpy.  numpy has two predecessors,
    tensorflow and pytorch: the pass gives tensorflow its edges, finds the
    iterator over the successors of numpy exhausted when it comes to
    pytorch, and removes numpy.  Only buildable nodes remain, and pytorch
    no longer depends on blas.  This holds in whichever order the set of
    external nodes is iterated. *)
Theorem remove_external_deps_loses_dependency (set_order : ordering) :
  is_ordering set_order →
  depends_on example_tree pytorch blas ∧
  ∃ G',
    BuildTree.remove_external_deps_from_dag set_order (BuildTree.mk example_tree [] [])
      = Ok (BuildTree.mk G' [] []) ∧
    nodes G' = [tensorflow; pytorch; blas] ∧
    edges G' = [(tensorflow, blas)] ∧
    ¬ depends_on G' pytorch blas.
Proof.
  intros Hord. split.
  - apply (tc_l _ _ numpy); [|apply tc_once];
      apply edge_edges; by apply (bool_decide_unpack _); vm_compute.
  - unfold BuildTree.remove_external_deps_from_dag.
    assert (Hext : set_order _ (py_set DependencyNode.same_key
                     (filter is_external (nodes (BuildTree._tree
                        (BuildTree.mk example_tree [] []))))) ≡ₚ [numpy; libgcc]).
    { rewrite (Hord _ _). by apply (bool_decide_unpack _); vm_compute. }
    assert (Hcases : ∀ l : list DependencyNode.t,
               l ≡ₚ [numpy; libgcc] → l = [numpy; libgcc] ∨ l = [libgcc; numpy]).
    { intros l Hl. pose proof (Permutation_length Hl) as Hlen.
      destruct l as [|a [|b [|c l]]]; try discriminate Hlen.
      assert (Ha : a ∈ [numpy; libgcc]) by (rewrite <- Hl; left).
      assert (Hb : b ∈ [numpy; libgcc]) by (rewrite <- Hl; right; left).
      assert (Hnd : NoDup [a; b]).
      { rewrite Hl. by apply (bool_decide_unpack _); vm_compute. }
      apply NoDup_cons in Hnd as [Hab _]. rewrite list_elem_of_singleton in Hab.
      apply elem_of_cons in Ha as [->|Ha%list_elem_of_singleton];
        apply elem_of_cons in Hb as [->|Hb%list_elem_of_singleton];
        subst; auto; done. }
    destruct (Hcases _ Hext) as [-> | ->];
      (eexists; split; [by vm_compute|]; split; [by vm_compute|]; split; [by vm_compute|];
       intros (z & Hz)%depends_on_first_edge;
       vm_compute in Hz; apply list_elem_of_singleton in Hz;
       apply (f_equal (λ e, DependencyNode._hash_val e.1)) in Hz; by vm_compute in Hz).
Qed.

Lemma remove_external_deps_loses_dependency_witness :
  ∃ G',
    BuildTree.remove_external_deps_from_dag identity_order (BuildTree.mk example_tree [] [])
      = Ok (BuildTree.mk G' [] []) ∧
    ¬ depends_on G' pytorch blas.
Proof.
  destruct (remove_external_deps_loses_dependency identity_order)
    as (_ & G' & Hrun & _ & _ & Hlost).
  - intros A l. reflexivity.
  - exists G'. split; assumption.
Defined.

(** ** The store and the length of the example tree *)

Lemma traverse_leaves_graph_unchanged_witness :
  deref (fst (traverse_build_commands example_store 0 [pytorch] true)) 0
    = example_obj_tree.
Proof.
  destruct (traverse_leaves_graph_unchanged example_store 0 [pytorch] true) as [H _].
  - simpl. lia.
  - exact H.
Defined.

Lemma BuildTree_len_counts_buildable_witness :
  BuildTree.__len__ (BuildTree.mk example_tree [] []) = 3.
Proof.
  destruct (BuildTree_len_counts_buildable (BuildTree.mk example_tree [] [])) as [H _].
  - by apply (bool_decide_unpack _); vm_compute.
  - rewrite H. by vm_compute.
Defined.

Open Scope nat_scope.
Open Scope list_scope.

(** ** networkx.ancestors: the nodes with a path to the source *)

Section AncestorsSpec.
Context {V : Type}.
Variable same : V → V → bool.
Variable G : DiGraph V.
Hypothesis Hcan : canonical same (nodes G).
Hypothesis Hwf : well_formed G.
Hypothesis Hpred : pred_consistent G.

Local Arguments memb : simpl never.

Lemma pred_lookup x p :
  x ∈ nodes G →
  p ∈ default [] (dict_get same (_pred G) x) ↔ edge G p x.
Proof.
  intros Hx. destruct Hpred as [Hkeys Hmirror]. rewrite <- Hmirror.
  assert (Hnd : NoDup (map fst (_pred G))) by (rewrite Hkeys; by destruct Hwf).
  assert (Hsub : ∀ y, y ∈ map fst (_pred G) → y ∈ nodes G) by (by rewrite Hkeys).
  split.
  - destruct (dict_get same (_pred G) x) as [keys|] eqn:Hget; [|by intros ?%elem_of_nil].
    intros Hp. exists keys. split; [|done].
    by apply (dict_get_elem_of same (nodes G)).
  - intros (keys & Hin & Hp).
    apply (dict_get_elem_of same (nodes G)) in Hin; [|done..]. by rewrite Hin.
Qed.

Lemma set_insert_all_NoDup (acc l : list V) :
  (∀ x, x ∈ acc → x ∈ nodes G) → (∀ x, x ∈ l → x ∈ nodes G) →
  NoDup acc → NoDup (set_insert_all same acc l).
Proof.
  revert acc. induction l as [|y l IH]; intros acc Hacc Hl Hnd; [done|]. simpl.
  assert (Hy : y ∈ nodes G) by (apply Hl; left).
  assert (Hl' : ∀ x, x ∈ l → x ∈ nodes G) by (intros; apply Hl; by right).
  unfold keys_add. destruct (memb same y acc) eqn:Hmem; [by apply IH|].
  apply (memb_false_not_elem_of same (nodes G)) in Hmem; [|done..].
  apply IH; [|done|].
  - intros x [?| ->%list_elem_of_singleton]%elem_of_app; auto.
  - apply NoDup_app. split; [done|]. split; [|apply NoDup_singleton].
    by intros x Hx ->%list_elem_of_singleton.
Qed.

Lemma py_set_NoDup (l : list V) :
  (∀ x, x ∈ l → x ∈ nodes G) → NoDup (py_set same l).
Proof.
  intros Hl. apply set_insert_all_NoDup; [by intros x ?%elem_of_nil|done|constructor].
Qed.

Lemma set_insert_all_keeps (acc l : list V) x :
  (∀ y, y ∈ acc → y ∈ nodes G) → (∀ y, y ∈ l → y ∈ nodes G) →
  x ∈ acc ∨ x ∈ l → x ∈ set_insert_all same acc l.
Proof.
  revert acc. induction l as [|y l IH]; intros acc Hacc Hl Hx; simpl.
  - by destruct Hx as [?|?%elem_of_nil].
  - assert (Hy : y ∈ nodes G) by (apply Hl; left).
    assert (Hl' : ∀ z, z ∈ l → z ∈ nodes G) by (intros; apply Hl; by right).
    unfold keys_add. destruct (memb same y acc) eqn:Hmem.
    + apply (memb_elem_of same (nodes G)) in Hmem; [|done..].
      apply IH; [done..|]. destruct Hx as [?|[->|?]%elem_of_cons]; auto.
    + apply IH; [|done|].
      * intros z [?| ->%list_elem_of_singleton]%elem_of_app; auto.
      * destruct Hx as [?|[->|?]%elem_of_cons]; [left|left|by right];
          apply elem_of_app; [by left|right; left].
Qed.

Lemma py_set_keeps (l : list V) x :
  (∀ y, y ∈ l → y ∈ nodes G) → x ∈ l → x ∈ py_set same l.
Proof.
  intros Hl Hx. apply set_insert_all_keeps; [by intros y ?%elem_of_nil|done|by right].
Qed.

Lemma predecessors_of_reached reached p :
  (∀ x, x ∈ reached → x ∈ nodes G) →
  p ∈ flat_map (λ x, default [] (dict_get same (_pred G) x)) reached ↔
  ∃ x, x ∈ reached ∧ edge G p x.
Proof.
  intros Hreached. rewrite list_elem_of_In, in_flat_map. split.
  - intros (x & Hx%list_elem_of_In & Hp%list_elem_of_In). exists x. split; [done|].
    apply pred_lookup; [by apply Hreached|done].
  - intros (x & Hx & Hp). exists x. split; [by apply list_elem_of_In|].
    apply list_elem_of_In, pred_lookup; [by apply Hreached|done].
Qed.

Lemma new_predecessors_spec reached p :
  (∀ x, x ∈ reached → x ∈ nodes G) →
  p ∈ new_predecessors same G reached ↔
  (p ∉ reached) ∧ ∃ x, x ∈ reached ∧ edge G p x.
Proof.
  intros Hreached. unfold new_predecessors.
  assert (Hfilter : ∀ q,
    q ∈ filter (λ p, negb (memb same p reached))
          (flat_map (λ x, default [] (dict_get same (_pred G) x)) reached) ↔
    (q ∉ reached) ∧ ∃ x, x ∈ reached ∧ edge G q x).
  { intros q. rewrite list_elem_of_filter, predecessors_of_reached by done. split.
    - intros [Hfresh (x & Hx & Hq)]. split; [|by exists x].
      apply Is_true_true, negb_true_iff in Hfresh.
      apply (memb_false_not_elem_of same (nodes G)) in Hfresh; [done..| |done].
      by eapply edge_source.
    - intros [Hfresh (x & Hx & Hq)]. split; [|by exists x].
      apply Is_true_true, negb_true_iff.
      apply (memb_false_not_elem_of same (nodes G)); [done| |done..].
      by eapply edge_source. }
  split.
  - intros Hp%py_set_elem_of. by apply Hfilter.
  - intros Hp. apply py_set_keeps; [|by apply Hfilter].
    intros y (_ & x & _ & Hy)%Hfilter. by eapply edge_source.
Qed.

Lemma closed_reaches (reached : list V) source x :
  (∀ p y, y ∈ reached → edge G p y → p ∈ reached) →
  source ∈ reached → rtc (edge G) x source → x ∈ reached.
Proof.
  intros Hclosed Hsrc Hpath. revert Hsrc.
  induction Hpath as [|x y z Hxy _ IH]; [done|].
  intros Hz. apply (Hclosed x y); [by apply IH|done].
Qed.

Lemma reach_back_spec rounds reached source :
  source ∈ reached →
  NoDup reached →
  (∀ x, x ∈ reached → x ∈ nodes G ∧ rtc (edge G) x source) →
  length (nodes G) < rounds + length reached →
  ∀ x, x ∈ reach_back same rounds G reached ↔ rtc (edge G) x source.
Proof.
  revert reached. induction rounds as [|rounds IH]; intros reached Hsrc Hnd Hsound Hfuel.
  - exfalso.
    assert (length reached ≤ length (nodes G)); [|simpl in Hfuel; lia].
    apply submseteq_length, NoDup_submseteq; [done|]. intros x Hx. by apply Hsound.
  - assert (Hreached : ∀ x, x ∈ reached → x ∈ nodes G) by (intros; by apply Hsound).
    simpl. destruct (new_predecessors same G reached) as [|p fresh] eqn:Hnew.
    + intros x. split; [by apply Hsound|].
      apply closed_reaches; [|done]. intros q y Hy Hqy.
      assert (Hq : q ∈ nodes G) by (by eapply edge_source).
      destruct (memb same q reached) eqn:Hmem.
      * by apply (memb_elem_of same (nodes G)) in Hmem.
      * apply (memb_false_not_elem_of same (nodes G)) in Hmem; [|done..].
        assert (Hin : q ∈ new_predecessors same G reached).
        { apply new_predecessors_spec; [done|]. split; [done|]. by exists y. }
        rewrite Hnew in Hin. by apply elem_of_nil in Hin.
    + rewrite <- Hnew.
      assert (Hfresh : ∀ q, q ∈ new_predecessors same G reached →
                (q ∉ reached) ∧ ∃ x, x ∈ reached ∧ edge G q x)
        by (intros q; by apply new_predecessors_spec).
      apply IH.
      * apply elem_of_app. by left.
      * apply NoDup_app. split; [done|]. split.
        -- intros x Hx Hx'. by apply Hfresh in Hx' as [? _].
        -- unfold new_predecessors. apply py_set_NoDup.
           intros y [_ Hy]%list_elem_of_filter.
           apply predecessors_of_reached in Hy as (x & _ & Hy); [|done].
           by eapply edge_source.
      * intros x [Hx|Hx]%elem_of_app; [by apply Hsound|].
        apply Hfresh in Hx as [_ (y & Hy & Hxy)]. split; [by eapply edge_source|].
        eapply rtc_l; [done|]. by apply Hsound.
      * rewrite length_app, Hnew. simpl. lia.
Qed.

(** [ancestors] returns the nodes, other than the source, that the
    source is reachable from. *)
Lemma ancestors_spec source x :
  source ∈ nodes G →
  x ∈ ancestors same G source ↔ x ≠ source ∧ depends_on G x source.
Proof.
  intros Hsrc. unfold ancestors. rewrite list_elem_of_filter.
  rewrite (reach_back_spec (length (nodes G)) [source] source).
  - rewrite rtc_tc. split.
    + intros [Hne [->|Hdep]].
      * apply Is_true_true, negb_true_iff in Hne.
        by rewrite (same_refl_node same G Hcan source Hsrc) in Hne.
      * split; [|done]. intros ->.
        apply Is_true_true, negb_true_iff in Hne.
        by rewrite (same_refl_node same G Hcan source Hsrc) in Hne.
    + intros [Hne Hdep]. split; [|by right].
      apply Is_true_true, negb_true_iff.
      destruct (same x source) eqn:Hsame; [|done].
      apply (canonical_same same (nodes G)) in Hsame; [done..| |done].
      by eapply depends_on_source.
  - left.
  - apply NoDup_singleton.
  - intros y ->%list_elem_of_singleton. done.
  - simpl. lia.
Qed.
End AncestorsSpec.

Open Scope string_scope.
Open Scope list_scope.

(** ** The remote resolver *)

Section Resolver.
Variable set_order : ordering.
Hypothesis set_order_perm : is_ordering set_order.
Variable hash_None : Z.
Variable hash_key : list string → Z.
Variable remove_version : string → string.
Variable _channels : list string.
Variable get_latest_package_info : list string → string → result (option package_info).
Variable str_of_nodes : list DependencyNode.t → string.

Abbreviation external := (λ n, DependencyNode.build_command n = None).

Lemma link_remote_external node st dep :
  Forall external st.2 →
  Forall external (link_remote set_order hash_None hash_key remove_version node st dep).2.
Proof.
  intros Hst. unfold link_remote.
  destruct (set_order _ _) as [|dest ?]; simpl; [|done].
  apply Forall_forall. intros x [Hx| ->]%keys_add_subset; [|done].
  rewrite Forall_forall in Hst. by apply Hst.
Qed.

Lemma fold_link_remote_external node info st :
  Forall external st.2 →
  Forall external
    (fold_left (link_remote set_order hash_None hash_key remove_version node) info st).2.
Proof.
  revert st. induction info as [|dep info IH]; intros st Hst; [done|].
  simpl. by apply IH, link_remote_external.
Qed.

Lemma resolve_packages_inv node G0 packages st st' e :
  external node →
  (∀ p, p ∈ packages → p ∈ DependencyNode.packages node) →
  Forall external (deps st) →
  Forall (query_ok set_order _channels) (queries st) →
  resolve_packages set_order hash_None hash_key remove_version _channels
    get_latest_package_info node G0
    (ancestor_channels_of set_order G0 node) packages st = (st', e) →
  Forall external (deps st') ∧ Forall (query_ok set_order _channels) (queries st').
Proof.
  intros Hnode. revert st. induction packages as [|package rest IH];
    intros st Hpk Hdeps Hq; simpl.
  - by intros [= <- <-].
  - assert (Hrest : ∀ p, p ∈ rest → p ∈ DependencyNode.packages node)
      by (intros; apply Hpk; by right).
    destruct (existsb _ (seen st)); [by apply IH|].
    assert (Hq1 : Forall (query_ok set_order _channels)
                    (queries st ++
                     [mkQuery node G0
                        (DependencyNode.channels node ++
                         ancestor_channels_of set_order G0 node ++ _channels) package])).
    { apply Forall_app. split; [done|]. apply Forall_singleton.
      split; [done|]. split; [apply Hpk; left|done]. }
    destruct (get_latest_package_info _ package) as [[info|]|err].
    + apply IH; simpl; [done| |done]. by apply fold_link_remote_external.
    + by apply IH.
    + by intros [= <- <-].
Qed.

Lemma resolve_loop_inv fuel st :
  Forall external (deps st) →
  Forall (query_ok set_order _channels) (queries st) →
  let run := resolve_loop set_order hash_None hash_key remove_version _channels
               get_latest_package_info str_of_nodes fuel st in
  Forall external (deps run.1) ∧ Forall (query_ok set_order _channels) (queries run.1).
Proof.
  revert st. induction fuel as [|fuel IH]; intros st Hdeps Hq; [done|].
  simpl. destruct (set_order _ (deps st)) as [|node remaining] eqn:Hpop; [done|].
  assert (Hperm : node :: remaining ≡ₚ deps st) by (rewrite <- Hpop; apply set_order_perm).
  assert (Hall : Forall external (node :: remaining)) by (by rewrite Hperm).
  apply Forall_cons in Hall as [Hnode Hremaining].
  destruct (resolve_packages _ _ _ _ _ _ _ _ _ _ _) as [st1 e] eqn:Hres.
  apply resolve_packages_inv in Hres as [Hdeps1 Hq1]; try done.
  - destruct e as [[| | |code msg]|]; simpl; try done. by apply IH.
  - intros p Hp. apply (proj1 (ordering_elem_of set_order _ _ set_order_perm)) in Hp.
    by apply elem_of_elements in Hp.
Qed.

End Resolver.


(** ** The edge linker *)

(** C6 as stated fails: scipy needs "numpy" and "numpy >=1.19", and no node
    of the graph before linking provides numpy.  The linker creates the
    external node for the entry it visits first and finds that node when
    it searches for the other entry, for which no node is created. *)
Lemma linker_does_not_search_snapshot :
  ¬ searches_snapshot identity_order 0 example_hash example_remove_version scipy_tree.
Proof.
  intros Hsnapshot.
  destruct (Hsnapshot scipy (example_cmd "scipy" {[ "numpy"; "numpy >=1.19" ]} ["scipy-channel"])
              "numpy") as [_ Hnew].
  - by apply (bool_decide_unpack _); vm_compute.
  - reflexivity.
  - by apply (bool_decide_unpack _); vm_compute.
  - destruct Hnew as [Hin _]; [by vm_compute|].
    revert Hin. by apply (bool_decide_unpack _); vm_compute.
Qed.

Section Linker.
Variable set_order : ordering.
Hypothesis set_order_perm : is_ordering set_order.
Variable hash_None : Z.
Variable hash_key : list string → Z.
Variable remove_version : string → string.

(** C6, amended.  The linker visits the nodes of a snapshot of the node
    set taken before linking, and for each one that has a build command
    the dependency strings of its aggregate requirement.  For each
    string it searches the node set as it is at that moment, nodes
    created earlier in the pass included, for nodes one of whose packages
    has the same qualifier-stripped name.  When there are such nodes one
    of them is taken, and an edge source→match is added unless the match
    equals the source; when there is none, an external node holding
    exactly the dependency string is added, with an edge to it. *)
Theorem linker_searches_current_nodes (tree : DiGraph DependencyNode.t) :
  (∃ snapshot,
      snapshot ≡ₚ py_set DependencyNode.same_key (nodes tree) ∧
      _create_edges set_order hash_None hash_key remove_version tree
        = fold_left (link_node set_order hash_None hash_key remove_version) snapshot tree) ∧
  (∀ current node,
      match DependencyNode.build_command node with
      | None => link_node set_order hash_None hash_key remove_version current node = current
      | Some cmd =>
          ∃ dependencies,
            dependencies ≡ₚ elements (BuildCommand.get_all_dependencies cmd) ∧
            link_node set_order hash_None hash_key remove_version current node
              = fold_left (link_dependency set_order hash_None hash_key remove_version node)
                  dependencies current
      end) ∧
  (∀ current node dependency,
      let found := filter (provides remove_version (remove_version dependency))
                     (nodes current) in
      let new_node := external_node hash_None hash_key dependency in
      (found = [] →
         link_dependency set_order hash_None hash_key remove_version node current dependency
           = add_edge DependencyNode.same_key
               (add_node DependencyNode.same_key current new_node) node new_node ∧
         DependencyNode.packages new_node = {[ dependency ]} ∧
         DependencyNode.build_command new_node = None) ∧
      (found ≠ [] →
         ∃ dest_node,
           dest_node ∈ nodes current ∧
           provides remove_version (remove_version dependency) dest_node = true ∧
           link_dependency set_order hash_None hash_key remove_version node current dependency
             = if DependencyNode.__eq__ node dest_node then current
               else add_edge DependencyNode.same_key current node dest_node)).
Proof.
  split; [|split].
  - eexists. split; [|reflexivity]. apply set_order_perm.
  - intros current node. unfold link_node.
    destruct (DependencyNode.build_command node) as [cmd|]; [|done].
    eexists. split; [|reflexivity]. apply set_order_perm.
  - intros current node dependency found new_node. unfold link_dependency, local_dest.
    fold found. split.
    + intros ->. unfold py_set. simpl.
      assert (Hnil : set_order DependencyNode.t [] = []).
      { apply Permutation_nil_r. by rewrite (set_order_perm _ []). }
      by rewrite Hnil.
    + intros Hne.
      destruct (set_order _ (py_set DependencyNode.same_key found)) as [|dest rest] eqn:Hpop.
      * exfalso. apply Hne. apply (py_set_nil DependencyNode.same_key).
        apply Permutation_nil_r. by rewrite <- (set_order_perm _ _), Hpop.
      * assert (Hdest : dest ∈ found).
        { apply (py_set_elem_of DependencyNode.same_key).
          apply (ordering_elem_of set_order _ _ set_order_perm). rewrite Hpop. left. }
        apply list_elem_of_filter in Hdest as [Hprov Hin].
        exists dest. split; [done|]. split; [by apply Is_true_true|].
        by destruct (DependencyNode.__eq__ node dest).
Qed.
End Linker.

Lemma linker_searches_current_nodes_witness :
  ∃ snapshot,
    snapshot ≡ₚ py_set DependencyNode.same_key (nodes scipy_tree) ∧
    _create_edges identity_order 0 example_hash example_remove_version scipy_tree
      = fold_left (link_node identity_order 0 example_hash example_remove_version)
          snapshot scipy_tree.
Proof.
  exact (proj1 (linker_searches_current_nodes identity_order
                  (λ A l, reflexivity l) 0 example_hash example_remove_version scipy_tree)).
Defined.

(** ** Cycle detection *)

Lemma string_app_assoc (a b c : string) : (a +:+ b) +:+ c = a +:+ (b +:+ c).
Proof.
  induction a as [|x a IH]; [done|].
  change (String x ((a +:+ b) +:+ c) = String x (a +:+ (b +:+ c))). by rewrite IH.
Qed.

Lemma string_app_nil_r (a : string) : a +:+ "" = a.
Proof.
  induction a as [|x a IH]; [done|].
  change (String x (a +:+ "") = String x a). by rewrite IH.
Qed.

Lemma str_is_empty_app (a b : string) :
  str_is_empty (a +:+ b) = (str_is_empty a && str_is_empty b)%bool.
Proof. by destruct a. Qed.

Lemma rotation_elem_of {V} (c c' : list V) x : rotation c c' → x ∈ c → x ∈ c'.
Proof. intros (l1 & l2 & -> & ->). rewrite !elem_of_app. tauto. Qed.

Section DetectCycle.
Variable simple_cycles : DiGraph DependencyNode.t → list (list DependencyNode.t).
Variable str_of_set : gset string → string.

Abbreviation render := (BuildTree.render_cycle str_of_set).

Lemma cycle_print_fold (cycles : list (list DependencyNode.t)) (acc : string) :
  fold_left (λ acc cycle,
               if BuildTree.is_fatal cycle then acc +:+ render cycle else acc)
    cycles acc
  = acc +:+ concat_strings (map render (filter BuildTree.is_fatal cycles)).
Proof.
  revert acc. induction cycles as [|c cycles IH]; intros acc; cbn [fold_left].
  - by rewrite string_app_nil_r.
  - rewrite IH, filter_cons. destruct (BuildTree.is_fatal c) eqn:Hc.
    + rewrite decide_True by done. cbn [map concat_strings fold_right].
      by rewrite string_app_assoc.
    + rewrite decide_False by (by intros []). done.
Qed.

Lemma render_not_empty c : str_is_empty (render c) = false.
Proof.
  unfold BuildTree.render_cycle. rewrite str_is_empty_app. simpl.
  by rewrite andb_false_r.
Qed.

Lemma is_fatal_elem_of c :
  BuildTree.is_fatal c = true ↔ ∃ n, n ∈ c ∧ DependencyNode.build_command n ≠ None.
Proof.
  unfold BuildTree.is_fatal. rewrite existsb_exists. split.
  - intros (n & Hn%list_elem_of_In & Hb). exists n. split; [done|].
    unfold is_buildable, is_external in Hb. by destruct (DependencyNode.build_command n).
  - intros (n & Hn & Hb). exists n. split; [by apply list_elem_of_In|].
    unfold is_buildable, is_external. by destruct (DependencyNode.build_command n).
Qed.

(** C3. Cycle detection fails exactly when some simple cycle of the
    graph has a node with a build command.  It then raises the cycle
    error with one report: for each listed cycle that has such a node, in
    turn, the labels of its nodes (the recipe name of a node with a
    build command, the package set of an external node) and again the
    label of its first node, joined by " -> " and closed by a newline.
    Cycles of external nodes only add nothing to the report and raise
    nothing. *)
Theorem detect_cycle_fails_on_buildable_cycles (self : BuildTree.t) :
  lists_simple_cycles (BuildTree._tree self) (simple_cycles (BuildTree._tree self)) →
  let fatal := filter BuildTree.is_fatal (simple_cycles (BuildTree._tree self)) in
  ((∃ c n, simple_cycle (BuildTree._tree self) c ∧ n ∈ c ∧
           DependencyNode.build_command n ≠ None) ↔
   BuildTree._detect_cycle simple_cycles str_of_set self ≠ Ok tt) ∧
  (fatal = [] → BuildTree._detect_cycle simple_cycles str_of_set self = Ok tt) ∧
  (fatal ≠ [] →
     BuildTree._detect_cycle simple_cycles str_of_set self
       = Raise (OpenCEError BUILD_TREE_CYCLE (concat_strings (map render fatal)))) ∧
  (∀ c, render c
          = join " -> " (map (BuildTree.cycle_label str_of_set) (c ++ take 1 c)) +:+ newline) ∧
  (∀ n, BuildTree.cycle_label str_of_set n
          = match DependencyNode.build_command n with
            | Some cmd => BuildCommand.recipe cmd
            | None => str_of_set (DependencyNode.packages n)
            end).
Proof.
  intros [Hsound Hcomplete] fatal.
  assert (Hrun : BuildTree._detect_cycle simple_cycles str_of_set self
                 = if str_is_empty (concat_strings (map render fatal)) then Ok tt
                   else Raise (OpenCEError BUILD_TREE_CYCLE
                                 (concat_strings (map render fatal)))).
  { unfold BuildTree._detect_cycle. by rewrite cycle_print_fold. }
  assert (Hnil : fatal = [] → BuildTree._detect_cycle simple_cycles str_of_set self = Ok tt).
  { intros Hf. rewrite Hrun, Hf. done. }
  assert (Hcons : fatal ≠ [] →
     BuildTree._detect_cycle simple_cycles str_of_set self
       = Raise (OpenCEError BUILD_TREE_CYCLE (concat_strings (map render fatal)))).
  { intros Hf. rewrite Hrun. destruct fatal as [|c rest]; [done|]. simpl.
    by rewrite str_is_empty_app, render_not_empty. }
  split; [|done].
  split.
  - intros (c & n & Hc & Hn & Hb).
    destruct (Hcomplete c Hc) as (c' & Hc' & Hrot).
    assert (Hfatal : c' ∈ fatal).
    { apply list_elem_of_filter. split; [|done]. apply Is_true_true.
      apply is_fatal_elem_of. exists n. split; [|done]. by eapply rotation_elem_of. }
    rewrite Hcons; [done|]. intros Hf. rewrite Hf in Hfatal. by apply elem_of_nil in Hfatal.
  - intros Hfail. destruct fatal as [|c rest] eqn:Hf; [by rewrite Hnil in Hfail|].
    assert (Hc : c ∈ filter BuildTree.is_fatal (simple_cycles (BuildTree._tree self)))
      by (fold fatal; rewrite Hf; left).
    apply list_elem_of_filter in Hc as [Hfat%Is_true_true Hc].
    apply is_fatal_elem_of in Hfat as (n & Hn & Hb).
    exists c, n. split; [|done]. rewrite Forall_forall in Hsound. by apply Hsound.
Qed.
End DetectCycle.

Lemma cyclic_tree_edge x y :
  edge cyclic_tree x y → (x = tensorflow ∧ y = pytorch) ∨ (x = pytorch ∧ y = tensorflow).
Proof.
  intros Hxy%edge_edges. vm_compute in Hxy.
  apply elem_of_cons in Hxy as [[= -> ->]|Hxy]; [by left|].
  apply list_elem_of_singleton in Hxy as [= -> ->]. by right.
Qed.

Lemma tensorflow_ne_pytorch : tensorflow ≠ pytorch.
Proof. intros H. apply (f_equal DependencyNode._hash_val) in H. by vm_compute in H. Qed.

Lemma cyclic_tree_contract : lists_simple_cycles cyclic_tree (cyclic_tree_cycles cyclic_tree).
Proof.
  split.
  - apply Forall_singleton. split; [done|]. split.
    + apply NoDup_cons. split; [|apply NoDup_singleton].
      intros ?%list_elem_of_singleton. by apply tensorflow_ne_pytorch.
    + simpl. repeat split; apply edge_edges; by apply (bool_decide_unpack _); vm_compute.
  - intros c (Hne & Hnd & Hchain). exists [tensorflow; pytorch]. split; [left|].
    destruct c as [|x [|y [|z rest]]]; [done| | |]; simpl in Hchain.
    + destruct Hchain as [Hxx _]. apply cyclic_tree_edge in Hxx as [[-> ?]|[-> ?]];
        by destruct tensorflow_ne_pytorch.
    + destruct Hchain as (Hxy & _). apply cyclic_tree_edge in Hxy as [[-> ->]|[-> ->]].
      * by exists [], [tensorflow; pytorch].
      * by exists [pytorch], [tensorflow].
    + destruct Hchain as (Hxy & Hyz & _).
      assert (x = z) as ->.
      { apply cyclic_tree_edge in Hxy as [[-> ->]|[-> ->]];
          apply cyclic_tree_edge in Hyz as [[Hy ->]|[Hy ->]]; try done;
          by destruct tensorflow_ne_pytorch. }
      apply NoDup_cons in Hnd as [Hz _]. exfalso. apply Hz. right. left.
Qed.

Lemma detect_cycle_fails_on_buildable_cycles_witness :
  BuildTree._detect_cycle cyclic_tree_cycles (λ _, "{}") (BuildTree.mk cyclic_tree [] [])
    = Raise (OpenCEError BUILD_TREE_CYCLE
               ("tensorflow -> pytorch -> tensorflow" +:+ newline)).
Proof.
  destruct (detect_cycle_fails_on_buildable_cycles cyclic_tree_cycles (λ _, "{}")
              (BuildTree.mk cyclic_tree [] []) cyclic_tree_contract)
    as (_ & _ & Hfail & _).
  rewrite Hfail; [by vm_compute|]. by vm_compute.
Defined.

(** * Further properties *)

(** ** Tokens of str.split() *)

Lemma no_space_app (a b : string) :
  no_space (a +:+ b) = (no_space a && no_space b)%bool.
Proof.
  induction a as [|c a IH]; [done|].
  change (no_space (String c (a +:+ b)) = (no_space (String c a) && no_space b)%bool).
  simpl. rewrite IH. by rewrite andb_assoc.
Qed.

Lemma split_from_no_space (t cur : string) :
  no_space t = true →
  split_from cur t = if str_is_empty (cur +:+ t) then [] else [cur +:+ t].
Proof.
  revert cur. induction t as [|c t IH]; intros cur Ht.
  - simpl. rewrite string_app_nil_r. done.
  - simpl in Ht. apply andb_true_iff in Ht as [Hc Ht]. apply negb_true_iff in Hc.
    simpl. rewrite Hc, IH by done. rewrite string_app_assoc.
    change (String c "" +:+ t) with (String c t).
    rewrite str_is_empty_app. simpl. by rewrite andb_false_r.
Qed.

Lemma split_from_tokens (s cur : string) :
  no_space cur = true →
  Forall (λ t, no_space t = true ∧ str_is_empty t = false) (split_from cur s).
Proof.
  revert cur. induction s as [|c s IH]; intros cur Hcur; simpl.
  - destruct (str_is_empty cur) eqn:He; [constructor|]. by repeat constructor.
  - destruct (is_space c) eqn:Hc.
    + destruct (str_is_empty cur) eqn:He; [by apply IH|].
      constructor; [done|]. by apply IH.
    + apply IH. rewrite no_space_app, Hcur. simpl. by rewrite Hc.
Qed.

(** A token of [s.split()] splits into itself. *)
Lemma py_split_token (s t : string) : t ∈ py_split s → py_split t = [t].
Proof.
  intros Ht. pose proof (split_from_tokens s "" eq_refl) as Hall.
  rewrite Forall_forall in Hall. destruct (Hall t Ht) as [Hns Hne].
  unfold py_split. rewrite split_from_no_space by done.
  change ("" +:+ t) with t. by rewrite Hne.
Qed.

Lemma base_name_token (dep name : string) :
  base_name dep = Some name → base_name name = Some name.
Proof.
  unfold base_name. intros Hd.
  assert (Hin : name ∈ py_split dep).
  { destruct (py_split dep) as [|n ts]; [done|]. injection Hd as ->. left. }
  by rewrite (py_split_token _ _ Hin).
Qed.

(** ** The merge rule keeps one entry per package *)

Lemma one_entry_per_package_empty : one_entry_per_package ∅.
Proof.
  split; [apply tokens_ok_empty|]. intros d1 d2 Hd1. by apply not_elem_of_empty in Hd1.
Qed.

Section MergeInvariant.
Variable set_order : ordering.
Hypothesis set_order_perm : is_ordering set_order.

Lemma merge_one_invariant deps_set dep deps_set' :
one_entry_per_package deps_set →
merge_one set_order (Ok deps_set) dep = Ok deps_set' →
one_entry_per_package deps_set' ∧ (∀ d, d ∈ deps_set' → d ∈ deps_set ∨ d = dep).
Proof.
intros [Hok Huniq]. unfold merge_one, check_matching, first_token. cbn [result_bind].
case_bool_decide as Hin.
{ simpl. intros [= <-]. split; [done|]. by left. }
destruct (py_split dep) as [|name qualifier] eqn:Hsplit; [done|]. cbn [result_bind].
assert (Hne : str_is_empty dep = false).
{ destruct dep; [by vm_compute in Hsplit|done]. }
assert (Hbase : base_name dep = Some name) by (unfold base_name; by rewrite Hsplit).
destruct (bool_decide (name ∈ deps_set) && _)%bool eqn:Hcase.
- apply andb_true_iff in Hcase as [Hname%bool_decide_eq_true _].
  simpl. rewrite Hne. intros [= <-]. split; [split|].
  + intros d [[Hd _]%elem_of_difference | ->%elem_of_singleton]%elem_of_union;
      [by apply Hok|by rewrite Hsplit].
  + assert (Hfresh : ∀ d, d ∈ deps_set ∖ {[ name ]} → base_name d ≠ Some name).
    { intros d [Hd Hdn]%elem_of_difference Hb. apply Hdn, elem_of_singleton.
      apply Huniq; [done..|]. rewrite Hb. symmetry. by apply (base_name_token dep). }
    intros d1 d2 [H1 | ->%elem_of_singleton]%elem_of_union
                 [H2 | ->%elem_of_singleton]%elem_of_union Hb; try done.
    * apply elem_of_difference in H1 as [H1 _], H2 as [H2 _]. by apply Huniq.
    * exfalso. apply (Hfresh d1 H1). by rewrite Hb.
    * exfalso. apply (Hfresh d2 H2). by rewrite <- Hb.
  + intros d [[Hd _]%elem_of_difference | ->%elem_of_singleton]%elem_of_union; auto.
- clear Hcase. rewrite (name_in_set set_order set_order_perm) by done.
  cbn [result_bind]. destruct (existsb _ _) eqn:Hfound; simpl.
  { intros [= <-]. split; [done|]. by left. }
  rewrite Hne. intros [= <-].
  assert (Hfresh : ∀ d, d ∈ deps_set → base_name d ≠ Some name).
  { intros d Hd Hb. apply not_true_iff_false in Hfound. apply Hfound.
    apply existsb_exists. exists d. split.
    - apply list_elem_of_In. by apply elem_of_elements.
    - unfold same_base. rewrite Hb. simpl. apply String.eqb_refl. }
  split; [split|].
  + intros d [Hd | ->%elem_of_singleton]%elem_of_union; [by apply Hok|by rewrite Hsplit].
  + intros d1 d2 [H1 | ->%elem_of_singleton]%elem_of_union
                 [H2 | ->%elem_of_singleton]%elem_of_union Hb; try done.
    * by apply Huniq.
    * exfalso. apply (Hfresh d1 H1). by rewrite Hb.
    * exfalso. apply (Hfresh d2 H2). by rewrite <- Hb.
  + intros d [Hd | ->%elem_of_singleton]%elem_of_union; auto.
Qed.

Lemma fold_merge_invariant l deps_set deps_set' :
one_entry_per_package deps_set →
fold_left (merge_one set_order) l (Ok deps_set) = Ok deps_set' →
one_entry_per_package deps_set' ∧ (∀ d, d ∈ deps_set' → d ∈ deps_set ∨ d ∈ l).
Proof.
revert deps_set. induction l as [|dep l IH]; intros deps_set Hinv.
- simpl. intros [= <-]. split; [done|]. by left.
- cbn [fold_left].
  destruct (merge_one set_order (Ok deps_set) dep) as [s|e] eqn:Hm;
    [|by rewrite fold_merge_raise].
  destruct (merge_one_invariant _ _ _ Hinv Hm) as [Hinv1 Hsub1].
  intros Hfold. destruct (IH _ Hinv1 Hfold) as [Hinv2 Hsub2].
  split; [done|]. intros d [Hd|Hd]%Hsub2.
  + destruct (Hsub1 d Hd) as [?| ->]; [by left|right; left].
  + right. by right.
Qed.

Lemma check_and_add_invariant (generalize_version : string → string)
  dependencies parent_set parent_set' :
one_entry_per_package parent_set →
check_and_add set_order generalize_version dependencies parent_set = Ok parent_set' →
one_entry_per_package parent_set' ∧
(∀ d, d ∈ parent_set' →
      d ∈ parent_set ∨ ∃ x, x ∈ dependencies ∧ d = generalize_version x).
Proof.
intros Hinv. unfold check_and_add, _get_unique_deps_names.
destruct (fold_left _ (map _ _) _) as [unique|e] eqn:Hu; [|done]. cbn [result_bind].
destruct (fold_merge_invariant _ _ _ one_entry_per_package_empty Hu) as [_ Hsub].
intros Hfold. destruct (fold_merge_invariant _ _ _ Hinv Hfold) as [Hinv' Hsub'].
split; [done|]. intros d [Hd|Hd]%Hsub'; [by left|right].
apply (ordering_elem_of set_order _ _ set_order_perm), elem_of_elements in Hd.
destruct (Hsub d Hd) as [Hd'|Hd']; [by apply not_elem_of_empty in Hd'|].
apply list_elem_of_fmap in Hd' as (x & -> & Hx). by exists x.
Qed.
End MergeInvariant.

(** ** sorted(retval, key=len) *)

Abbreviation shorter := (λ a b : string, (String.length a ≤ String.length b)%nat).

Lemma insert_by_len_perm x l : insert_by_len x l ≡ₚ x :: l.
Proof.
  induction l as [|y l IH]; [done|]. simpl.
  destruct (Nat.ltb _ _); [done|]. rewrite IH. apply Permutation_swap.
Qed.

Lemma insert_by_len_sorted x l :
  StronglySorted shorter l → StronglySorted shorter (insert_by_len x l).
Proof.
  induction 1 as [|y l Hs IH Hy]; simpl; [by repeat constructor|].
  destruct (Nat.ltb _ _) eqn:Hlt.
  - apply Nat.ltb_lt in Hlt. constructor; [by constructor|].
    constructor; [lia|]. eapply Forall_impl; [exact Hy|]. simpl. intros; lia.
  - apply Nat.ltb_ge in Hlt. constructor; [done|].
    rewrite insert_by_len_perm. by constructor.
Qed.

Lemma sorted_by_len_spec l :
  sorted_by_len l ≡ₚ l ∧ StronglySorted shorter (sorted_by_len l).
Proof.
  unfold sorted_by_len.
  assert (H : ∀ acc, StronglySorted shorter acc →
            fold_left (λ acc x, insert_by_len x acc) l acc ≡ₚ acc ++ l ∧
            StronglySorted shorter (fold_left (λ acc x, insert_by_len x acc) l acc)).
  { induction l as [|x l IH]; intros acc Hacc; simpl.
    - by rewrite app_nil_r.
    - destruct (IH (insert_by_len x acc)) as [Hp Hs]; [by apply insert_by_len_sorted|].
      split; [|done]. rewrite Hp, insert_by_len_perm.
      by rewrite (Permutation_middle acc l x). }
  apply (H []). constructor.
Qed.

(** ** Loops that thread an outcome *)

Lemma fold_outcome_invariant {A X} (f : outcome A → X → outcome A) (P : A → Prop)
    (l : list X) (a a' : A) :
  (∀ r x, f (Raises r) x = Raises r) →
  (∀ a x a', x ∈ l → P a → f (Returns a) x = Returns a' → P a') →
  P a →
  fold_left f l (Returns a) = Returns a' → P a'.
Proof.
  intros Hraise. revert a. induction l as [|x l IH]; intros a Hstep Ha; simpl.
  - by intros [= <-].
  - destruct (f (Returns a) x) as [a1|r] eqn:Hf.
    + apply IH; [|by apply (Hstep a x); [left|..]].
      intros ? ? ? ?. apply Hstep. by right.
    + assert (Hr : fold_left f l (Raises r) = Raises r).
      { clear -Hraise. induction l as [|y l IH]; [done|]. simpl. by rewrite Hraise. }
      by rewrite Hr.
Qed.

(** ** get_independent_runtime_deps returns run dependencies *)

Section IndependentDepsSubset.
Variable set_order : ordering.
Hypothesis set_order_perm : is_ordering set_order.
Variable remove_version : string → string.

Lemma independent_runtime_deps_subset tree node deps :
get_independent_runtime_deps set_order remove_version tree node = Returns deps →
∀ x, x ∈ deps →
     ∃ cmd, DependencyNode.build_command node = Some cmd ∧
            x ∈ BuildCommand.run_dependencies cmd ∧
            provides remove_version (remove_version x) node = false.
Proof.
unfold get_independent_runtime_deps.
destruct (DependencyNode.build_command node) as [cmd|];
  [|intros [= <-] x Hx; by apply not_elem_of_empty in Hx].
intros Hfold x Hx. exists cmd. split; [done|].
cut (x ∈ foreign_run_deps remove_version node cmd).
{ unfold foreign_run_deps. rewrite elem_of_filter. tauto. }
revert x Hx.
refine (fold_outcome_invariant (add_if_independent remove_version tree node)
          (λ s : gset string, ∀ x, x ∈ s → x ∈ foreign_run_deps remove_version node cmd)
          _ ∅ deps (λ _ _, eq_refl) _ _ Hfold).
- intros a run_dep a' Hin Ha. unfold add_if_independent. cbn [outcome_bind].
  destruct (lift _) as [candidates|]; [|done]. cbn [outcome_bind].
  destruct (filter _ candidates) as [|run_dep_node rest]; [done|].
  destruct (lift _) as [[]|]; [| |done]; cbn [outcome_bind]; intros [= <-]; [|done].
  intros x [Hx | ->%elem_of_singleton]%elem_of_union; [by apply Ha|].
  by apply (ordering_elem_of set_order _ _ set_order_perm), elem_of_elements in Hin.
- intros x Hx. by apply not_elem_of_empty in Hx.
Qed.
End IndependentDepsSubset.

(** ** get_installable_packages *)

Lemma lift_returns {A} (m : result A) (a : A) : lift m = Returns a → m = Ok a.
Proof. destruct m; simpl; congruence. Qed.

Lemma yielded_nodes_elem_of items node cmd :
  (node, cmd) ∈ yielded_nodes items →
  YNode node ∈ items ∧ DependencyNode.build_command node = Some cmd.
Proof.
  unfold yielded_nodes. rewrite list_elem_of_omap. intros ([n|c] & Hin & Hy); [|done].
  destruct (DependencyNode.build_command n) as [c|] eqn:Hc; [|done].
  simpl in Hy. injection Hy as <- <-. done.
Qed.

Section MergeErrors.
Variable set_order : ordering.
Hypothesis set_order_perm : is_ordering set_order.

Lemma name_in_raises name deps e : name_in name deps = Raise e → e = IndexError.
Proof.
induction deps as [|dep deps IH]; [done|]. simpl. unfold first_token.
destruct (py_split dep); [by intros [= <-]|]. cbn [result_bind].
destruct (String.eqb _ _); [done|]. apply IH.
Qed.

Lemma merge_one_raises deps_set dep e :
merge_one set_order (Ok deps_set) dep = Raise e → e = IndexError.
Proof.
unfold merge_one, check_matching, first_token. cbn [result_bind].
case_bool_decide; [done|].
destruct (py_split dep); [by intros [= <-]|]. cbn [result_bind].
destruct (_ && _)%bool; cbn [result_bind snd fst].
{ by destruct (str_is_empty dep). }
destruct (name_in _ _) as [[]|e'] eqn:Hn; cbn [result_bind snd fst]; [done| |].
- by destruct (str_is_empty dep).
- intros [= <-]. by apply name_in_raises in Hn.
Qed.

Lemma fold_merge_raises l deps_set e :
fold_left (merge_one set_order) l (Ok deps_set) = Raise e → e = IndexError.
Proof.
revert deps_set. induction l as [|dep l IH]; intros deps_set; [done|].
cbn [fold_left]. destruct (merge_one set_order (Ok deps_set) dep) as [s|e'] eqn:Hm.
- apply IH.
- rewrite fold_merge_raise. intros [= <-]. by apply merge_one_raises in Hm.
Qed.

Lemma check_and_add_raises generalize_version dependencies parent_set e :
check_and_add set_order generalize_version dependencies parent_set = Raise e →
e = IndexError.
Proof.
unfold check_and_add, _get_unique_deps_names.
destruct (fold_left _ (map _ _) _) as [unique|e'] eqn:Hu; cbn [result_bind].
- apply fold_merge_raises.
- intros [= <-]. by apply fold_merge_raises in Hu.
Qed.

Lemma fold_merge_blank l deps_set blank :
tokens_ok deps_set → blank ∈ l → py_split blank = [] →
∃ e, fold_left (merge_one set_order) l (Ok deps_set) = Raise e.
Proof.
revert deps_set. induction l as [|dep l IH]; intros deps_set Hok Hin Hblank.
{ by apply elem_of_nil in Hin. }
cbn [fold_left]. destruct (merge_one set_order (Ok deps_set) dep) as [s|e] eqn:Hm.
- apply elem_of_cons in Hin as [<-|Hin].
  + exfalso. revert Hm. unfold merge_one, check_matching, first_token.
    cbn [result_bind]. rewrite bool_decide_eq_false_2.
    * by rewrite Hblank.
    * intros Hin. by apply Hok in Hin.
  + apply IH; [|done..]. by apply (merge_one_tokens set_order deps_set dep).
- exists e. apply fold_merge_raise.
Qed.

Lemma check_and_add_blank generalize_version dependencies parent_set x :
py_split (generalize_version x) = [] → x ∈ dependencies →
∀ s, check_and_add set_order generalize_version dependencies parent_set ≠ Ok s.
Proof.
intros Hblank Hx s. unfold check_and_add, _get_unique_deps_names.
destruct (fold_merge_blank (map generalize_version dependencies) ∅
            (generalize_version x)) as [e ->]; [apply tokens_ok_empty| |done|done].
apply list_elem_of_fmap. by exists x.
Qed.
End MergeErrors.

Section InstallableSpec.
Variable set_order : ordering.
Hypothesis set_order_perm : is_ordering set_order.
Variable hash_None : Z.
Variable hash_key : list string → Z.
Variable remove_version : string → string.
Variable generalize_version : string → string.
Variable output_file_to_string : string → string.

Abbreviation installable :=
(get_installable_packages set_order hash_None hash_key remove_version
   generalize_version output_file_to_string).

Abbreviation from_inputs := (from_inputs generalize_version output_file_to_string).

Lemma add_node_packages_invariant G items external_deps independent retval item retval' :
item ∈ yielded_nodes items →
one_entry_per_package retval ∧
  (∀ d, d ∈ retval → from_inputs items external_deps independent d) →
add_node_packages set_order remove_version generalize_version output_file_to_string
  G independent (Returns retval) item = Returns retval' →
one_entry_per_package retval' ∧
  (∀ d, d ∈ retval' → from_inputs items external_deps independent d).
Proof.
destruct item as [node cmd]. intros [Hy Hcmd]%yielded_nodes_elem_of [Hinv Hfrom].
unfold add_node_packages. cbn [outcome_bind].
destruct (BuildCommand.runtime_package cmd) eqn:Hrt; [|by intros [= <-]].
set (run := if independent then _ else _).
destruct run as [run_deps|] eqn:Hrun; [|done]. cbn [outcome_bind].
assert (Hsub : ∀ x, x ∈ run_deps → x ∈ BuildCommand.run_dependencies cmd).
{ subst run. destruct independent.
  - intros x Hx.
    destruct (independent_runtime_deps_subset set_order set_order_perm remove_version
                G node run_deps Hrun x Hx) as (c & Hc & Hin & _).
    rewrite Hcmd in Hc. by injection Hc as <-.
  - by injection Hrun as <-. }
destruct (lift (check_and_add_set _ _ run_deps retval)) as [s1|] eqn:H1; [|done].
cbn [outcome_bind]. apply lift_returns in H1. unfold check_and_add_set in H1.
destruct (check_and_add_invariant set_order set_order_perm _ _ _ _ Hinv H1)
  as [Hinv1 Hsub1].
assert (Hfrom1 : ∀ d, d ∈ s1 → from_inputs items external_deps independent d).
{ intros d [Hd|(x & Hx & ->)]%Hsub1; [by apply Hfrom|].
  apply (ordering_elem_of set_order _ _ set_order_perm), elem_of_elements in Hx.
  exists x. split; [done|]. right. exists node, cmd. do 2 (split; [done|]).
  split; [done|]. left. by apply Hsub. }
destruct independent eqn:Hind; [by intros [= <-]|].
intros H2%lift_returns.
destruct (check_and_add_invariant set_order set_order_perm _ _ _ _ Hinv1 H2)
  as [Hinv2 Hsub2].
split; [done|]. intros d [Hd|(x & Hx & ->)]%Hsub2; [by apply Hfrom1|].
exists x. split; [done|]. right. exists node, cmd. do 2 (split; [done|]).
split; [done|]. by right.
Qed.

Lemma add_external_dep_invariant G items external_deps independent retval dep retval' :
dep ∈ external_deps →
one_entry_per_package retval ∧
  (∀ d, d ∈ retval → from_inputs items external_deps independent d) →
add_external_dep set_order hash_None hash_key generalize_version
  G independent (Returns retval) dep = Returns retval' →
one_entry_per_package retval' ∧
  (∀ d, d ∈ retval' → from_inputs items external_deps independent d).
Proof.
intros Hdep [Hinv Hfrom]. unfold add_external_dep. cbn [outcome_bind].
set (wanted := if independent then _ else _).
destruct wanted as [[]|]; cbn [outcome_bind]; [|by intros [= <-]|done].
intros H1%lift_returns. unfold check_and_add_set in H1.
destruct (check_and_add_invariant set_order set_order_perm _ _ _ _ Hinv H1)
  as [Hinv1 Hsub1].
split; [done|]. intros d [Hd|(x & Hx & ->)]%Hsub1; [by apply Hfrom|].
apply (ordering_elem_of set_order _ _ set_order_perm), elem_of_elements in Hx.
apply elem_of_singleton in Hx as ->. exists dep. split; [done|]. by left.
Qed.


(** A dependency string without a token (empty or blank once
  generalised) among the external dependencies makes
  [get_installable_packages] fail with [IndexError], whatever the
  graph holds, when all packages are asked for. *)
Theorem installable_packages_blank_dependency
  (build_commands : DiGraph DependencyNode.t) (external_deps : list string)
  (starting_nodes : list DependencyNode.t) (items : list yielded) (dep : string) :
(traverse_build_commands (graph_store build_commands) 0 starting_nodes true).2
  = Some (Ok items) →
dep ∈ external_deps →
py_split (generalize_version dep) = [] →
installable build_commands external_deps starting_nodes false
  = Some (Raises (Exception IndexError)).
Proof.
intros Hrun Hdep Hblank. unfold get_installable_packages. rewrite Hrun. f_equal.
set (f1 := add_node_packages _ _ _ _ _ _).
set (f2 := add_external_dep _ _ _ _ _ _).
assert (Hf1 : ∀ l acc,
          (∃ s, acc = Returns s) ∨ acc = Raises (Exception IndexError) →
          (∃ s, fold_left f1 l acc = Returns s) ∨
          fold_left f1 l acc = Raises (Exception IndexError)).
{ induction l as [|[node cmd] l IH]; intros acc Hacc; [done|]. simpl. apply IH.
  destruct Hacc as [[s ->]| ->]; [|by right]. subst f1. unfold add_node_packages.
  cbn [outcome_bind]. destruct (BuildCommand.runtime_package cmd); [|left; by eexists].
  unfold check_and_add_set.
  destruct (check_and_add _ _ _ s) as [s1|e] eqn:H1; cbn [lift outcome_bind].
  - destruct (check_and_add _ _ _ s1) as [s2|e] eqn:H2; cbn [lift].
    + left. by eexists.
    + right. do 2 f_equal. revert H2. apply (check_and_add_raises set_order).
  - right. do 2 f_equal. revert H1. apply (check_and_add_raises set_order). }
assert (Hf2 : ∀ l acc,
          (∃ s, acc = Returns s) ∨ acc = Raises (Exception IndexError) →
          (dep ∈ l ∨ acc = Raises (Exception IndexError)) →
          fold_left f2 l acc = Raises (Exception IndexError)).
{ induction l as [|x l IH]; intros acc Hacc Hcause.
  - destruct Hcause as [?%elem_of_nil|]; done.
  - simpl. subst f2. unfold add_external_dep at 2.
    destruct Hacc as [[s ->]| ->].
    + cbn [outcome_bind]. unfold check_and_add_set.
      destruct (check_and_add _ _ _ s) as [s1|e] eqn:H1; cbn [lift].
      * apply IH; [left; by eexists|].
        destruct Hcause as [[<-|?]%elem_of_cons|]; [|by left|done].
        exfalso. revert H1. apply (check_and_add_blank set_order _ _ _ dep); [done|].
        apply (ordering_elem_of set_order _ _ set_order_perm), elem_of_elements.
        by apply elem_of_singleton.
      * apply (check_and_add_raises set_order) in H1 as ->. apply IH; by right.
    + cbn [outcome_bind]. apply IH; by right. }
destruct (Hf1 (yielded_nodes items) (Returns ∅)) as [[s1 ->]| ->];
  [left; by eexists| |].
- cbn [outcome_bind]. rewrite Hf2; [done|left; by eexists|by left].
- done.
Qed.
End InstallableSpec.

(** ** Both adjacency dicts: add_node, add_edge, remove_node *)

Section Mirror.
Context {V : Type}.
Variable same : V → V → bool.
Variable U : list V.
Hypothesis HU : canonical same U.

Local Arguments memb : simpl never.

Abbreviation sound := (sound U).

Lemma sound_empty : sound empty_graph.
Proof.
split; [apply good_empty|]. split; [done|]. intros u v. unfold edge. simpl.
split; intros (keys & Hin & _); by apply elem_of_nil in Hin.
Qed.

Lemma sound_pred_keys G x :
sound G → x ∈ map fst (_pred G) ↔ x ∈ nodes G.
Proof. intros [_ [-> _]]. done. Qed.

Lemma pred_lookup_node G v :
sound G → v ∈ nodes G →
∃ keys, dict_get same (_pred G) v = Some keys ∧ (v, keys) ∈ _pred G ∧
        (∀ u, u ∈ keys ↔ edge G u v).
Proof.
intros [[[Hnd Hcl] HGU] [Hkeys Hmirror]] Hv.
assert (Hnd' : NoDup (map fst (_pred G))) by (by rewrite Hkeys).
assert (HU' : ∀ x, x ∈ map fst (_pred G) → x ∈ U) by (rewrite Hkeys; apply HGU).
destruct (dict_get_is_Some same U (_pred G) v HU (HGU v Hv)) as [keys Hget];
  [by rewrite Hkeys|].
assert (Hin : (v, keys) ∈ _pred G).
{ apply (dict_get_elem_of same U); auto. }
exists keys. split; [done|]. split; [done|]. intros u. rewrite <- Hmirror. split.
- intros Hu. by exists keys.
- intros (keys' & Hin' & Hu).
  apply (dict_get_elem_of same U) in Hin'; auto. congruence.
Qed.

Lemma add_node_sound G n :
sound G → n ∈ U → sound (add_node same G n).
Proof.
intros [HG Hpred] Hn.
destruct (add_node_spec same U HU G n HG Hn) as (HG1 & _ & He1).
split; [done|]. unfold add_node in *.
destruct (has_node same G n) eqn:Hhas; [done|].
destruct Hpred as [Hkeys Hmirror]. split.
- unfold nodes. simpl. rewrite !map_app. by rewrite Hkeys.
- intros u v. rewrite He1, <- Hmirror. simpl. split.
  + intros (keys & [Hin|Hin%list_elem_of_singleton]%elem_of_app & Hu).
    * by exists keys.
    * injection Hin as -> ->. by apply elem_of_nil in Hu.
  + intros (keys & Hin & Hu). exists keys. split; [|done]. apply elem_of_app. by left.
Qed.

Lemma add_edge_nodes G u v :
good U G → u ∈ U → v ∈ U →
nodes (add_edge same G u v) = nodes (add_node same (add_node same G u) v).
Proof.
intros HG Hu Hv.
destruct (add_node_spec same U HU G u HG Hu) as (HG1 & Hn1 & _).
destruct (add_node_spec same U HU _ v HG1 Hv) as (HG2 & Hn2 & _).
set (G2 := add_node same (add_node same G u) v) in *.
assert (Hu2 : u ∈ nodes G2) by (apply Hn2; left; apply Hn1; by right).
destruct HG2 as [[Hnd Hcl] HGU].
unfold add_edge. fold G2. unfold nodes at 1. simpl.
by destruct (dict_set_present same U HU (_succ G2) u
               (keys_add same (default [] (dict_get same (_succ G2) u)) v) HGU Hnd Hu Hu2)
  as [-> _].
Qed.

Lemma add_edge_sound G u v :
sound G → u ∈ U → v ∈ U → sound (add_edge same G u v).
Proof.
intros HG Hu Hv. pose proof HG as [Hgood _].
destruct (add_edge_spec same U HU G u v Hgood Hu Hv) as (HG' & Hn' & He').
split; [done|].
pose proof (add_edge_nodes G u v Hgood Hu Hv) as Hnodes.
assert (H1 : sound (add_node same G u)) by (by apply add_node_sound).
assert (H2 : sound (add_node same (add_node same G u) v)) by (by apply add_node_sound).
destruct (add_node_spec same U HU G u Hgood Hu) as (_ & Hn1 & He1).
destruct (add_node_spec same U HU _ v (proj1 H1) Hv) as (_ & Hn2 & He2).
set (G2 := add_node same (add_node same G u) v) in *.
assert (Hv2 : v ∈ nodes G2) by (apply Hn2; by right).
destruct (pred_lookup_node G2 v H2 Hv2) as (pk & Hget & Hin & Hpk).
destruct H2 as [[[Hnd Hcl] HGU] [Hkeys Hmirror]].
assert (Hnd' : NoDup (map fst (_pred G2))) by (by rewrite Hkeys).
assert (HU' : ∀ x, x ∈ map fst (_pred G2) → x ∈ U) by (rewrite Hkeys; apply HGU).
assert (Hv2' : v ∈ map fst (_pred G2)) by (by rewrite Hkeys).
destruct (dict_set_present same U HU (_pred G2) v (keys_add same pk u) HU' Hnd' Hv Hv2')
  as [Hfst Hset].
assert (Hpk_U : ∀ y, y ∈ pk → y ∈ U).
{ intros y Hy. apply HGU. apply Hpk in Hy. destruct Hy as (keys & Hk & _).
  unfold nodes. apply list_elem_of_fmap. by exists (y, keys). }
split.
- rewrite Hnodes. unfold add_edge. fold G2. simpl. rewrite Hget. simpl.
  by rewrite Hfst.
- intros a b. rewrite He', <- He1, <- He2. fold G2.
  unfold add_edge. fold G2. simpl. rewrite Hget. simpl. split.
  + intros (keys & Hk & Ha). apply Hset in Hk as [[-> ->]|[Hne Hk]].
    * apply (keys_add_elem_of same U HU) in Ha as [Ha| ->]; [|by right|done..].
      left. by apply Hpk.
    * left. apply Hmirror. by exists keys.
  + intros [Hab|[-> ->]].
    * assert (Hb : b ∈ nodes G2).
      { destruct Hab as (keys & Hk & Hb').
        rewrite Forall_forall in Hcl. specialize (Hcl _ Hk). simpl in Hcl.
        rewrite Forall_forall in Hcl. by apply Hcl. }
      destruct (canonical_eq_or_ne same U HU b v (HGU b Hb) Hv) as [->|Hne].
      -- exists (keys_add same pk u). split; [apply Hset; by left|].
         apply (keys_add_elem_of same U HU); [done..|]. left. by apply Hpk.
      -- apply Hmirror in Hab as (keys & Hk & Ha). exists keys.
         split; [|done]. apply Hset. by right.
    * exists (keys_add same pk u). split; [apply Hset; by left|].
      apply (keys_add_elem_of same U HU); [done..|]. by right.
Qed.

Lemma fold_add_edge_sound (es : list (V * V)) G :
sound G → (∀ e, e ∈ es → e.1 ∈ U ∧ e.2 ∈ U) →
sound (fold_left (λ H e, add_edge same H e.1 e.2) es G).
Proof.
revert G. induction es as [|e es IH]; intros G HG Hes; [done|].
simpl. apply IH.
- apply add_edge_sound; [done|apply Hes; left..].
- intros. apply Hes. by right.
Qed.

Lemma dict_del_keys {A B} (d1 : list (V * A)) (d2 : list (V * B)) k :
map fst d1 = map fst d2 →
map fst (dict_del same d1 k) = map fst (dict_del same d2 k).
Proof.
revert d2. induction d1 as [|[s a] d1 IH]; intros [|[s' b] d2] Heq; try done.
simpl in *. injection Heq as -> Heq. destruct (same s' k); [done|].
simpl. f_equal. by apply IH.
Qed.

Lemma dict_del_spec {A} (d : list (V * A)) k :
(∀ x, x ∈ map fst d → x ∈ U) → NoDup (map fst d) → k ∈ U →
NoDup (map fst (dict_del same d k)) ∧
∀ x b, (x, b) ∈ dict_del same d k ↔ x ≠ k ∧ (x, b) ∈ d.
Proof.
intros Hsub Hnd Hk. induction d as [|[s a] d IH]; simpl.
- split; [constructor|]. intros x b. split; [by intros ?%elem_of_nil|].
  by intros [_ ?%elem_of_nil].
- simpl in Hnd. apply NoDup_cons in Hnd as [Hs Hnd].
  assert (Hs' : s ∈ U) by (apply Hsub; left).
  assert (Hsub' : ∀ x, x ∈ map fst d → x ∈ U) by (intros; apply Hsub; by right).
  destruct (IH Hsub' Hnd) as [IH1 IH2].
  destruct (same s k) eqn:Hsame.
  + apply (canonical_same same U) in Hsame; [|done..]. subst s.
    split; [done|]. intros x b. rewrite elem_of_cons. split.
    * intros Hx. split; [|by right]. intros ->. apply Hs.
      apply list_elem_of_fmap. by exists (k, b).
    * intros [Hne [[= -> ->]|Hx]]; done.
  + assert (Hne : s ≠ k).
    { intros ->. rewrite (proj2 (canonical_same same U k k HU Hk Hk) eq_refl) in Hsame.
      done. }
    simpl. split.
    * apply NoDup_cons. split; [|done]. intros Hin. apply Hs.
      apply list_elem_of_fmap in Hin as ([x b] & -> & Hx). simpl.
      apply IH2 in Hx as [_ Hx]. apply list_elem_of_fmap. by exists (x, b).
    * intros x b. rewrite !elem_of_cons, IH2. split.
      -- intros [[= -> ->]|[? ?]]; split; auto.
      -- intros [? [?|?]]; auto.
Qed.

Lemma keys_del_elem_of keys n x :
(∀ y, y ∈ keys → y ∈ U) → n ∈ U →
x ∈ keys_del same keys n ↔ x ∈ keys ∧ x ≠ n.
Proof.
intros Hsub Hn. unfold keys_del. rewrite list_elem_of_filter. split.
- intros [Hx Hin]. split; [done|]. intros ->.
  apply Is_true_true, negb_true_iff in Hx.
  by rewrite (proj2 (canonical_same same U n n HU Hn Hn) eq_refl) in Hx.
- intros [Hin Hne]. split; [|done]. apply Is_true_true, negb_true_iff.
  destruct (same x n) eqn:Hsame; [|done].
  apply (canonical_same same U) in Hsame; [done|done|by apply Hsub|done].
Qed.

Lemma remove_node_sound G n :
sound G → n ∈ nodes G →
∃ G', remove_node same G n = Ok G' ∧ sound G' ∧
      (∀ x, x ∈ nodes G' ↔ x ∈ nodes G ∧ x ≠ n) ∧
      (∀ a b, edge G' a b ↔ edge G a b ∧ a ≠ n ∧ b ≠ n).
Proof.
intros HG Hn. pose proof HG as [[[Hnd Hcl] HGU] [Hkeys Hmirror]].
assert (HnU : n ∈ U) by (by apply HGU).
unfold remove_node.
rewrite (proj2 (has_node_elem_of same U HU G n (proj1 HG) HnU) Hn).
eexists. split; [reflexivity|].
assert (Hnd' : NoDup (map fst (_pred G))) by (by rewrite Hkeys).
assert (HU' : ∀ x, x ∈ map fst (_pred G) → x ∈ U) by (rewrite Hkeys; apply HGU).
destruct (dict_del_spec (_succ G) n HGU Hnd HnU) as [Hs1 Hs2].
destruct (dict_del_spec (_pred G) n HU' Hnd' HnU) as [Hp1 Hp2].
set (G' := {| _succ := map (λ e, (e.1, keys_del same e.2 n)) (dict_del same (_succ G) n);
              _pred := map (λ e, (e.1, keys_del same e.2 n)) (dict_del same (_pred G) n) |}).
assert (Hnodes : nodes G' = map fst (dict_del same (_succ G) n)).
{ unfold nodes, G'. simpl. rewrite map_map. done. }
assert (Hin : ∀ x, x ∈ nodes G' ↔ x ∈ nodes G ∧ x ≠ n).
{ intros x. rewrite Hnodes. unfold nodes. rewrite !list_elem_of_fmap. split.
  - intros ([y b] & -> & Hy). apply Hs2 in Hy as [Hne Hy]. split; [|done].
    by exists (y, b).
  - intros [([y b] & -> & Hy) Hne]. exists (y, b). split; [done|]. by apply Hs2. }
assert (Hsucc_U : ∀ x l, (x, l) ∈ _succ G → ∀ y, y ∈ l → y ∈ U).
{ intros x l Hx y Hy. apply HGU. rewrite Forall_forall in Hcl.
  specialize (Hcl _ Hx). simpl in Hcl. rewrite Forall_forall in Hcl. by apply Hcl. }
assert (Hpred_U : ∀ x l, (x, l) ∈ _pred G → ∀ y, y ∈ l → y ∈ U).
{ intros x l Hx y Hy. apply HGU.
  apply (edge_source G y x). apply Hmirror. by exists l. }
assert (Hedge : ∀ a b, edge G' a b ↔ edge G a b ∧ a ≠ n ∧ b ≠ n).
{ intros a b. unfold edge at 1. simpl. split.
  - intros (keys & Hk & Hb). apply list_elem_of_fmap in Hk as ([x l] & [= -> ->] & Hx).
    apply Hs2 in Hx as [Hne Hx]. simpl in *.
    apply keys_del_elem_of in Hb as [Hb Hbn]; [|by eapply Hsucc_U|done].
    split; [by exists l|done].
  - intros [(l & Hx & Hb) [Han Hbn]]. exists (keys_del same l n). split.
    + apply list_elem_of_fmap. exists (a, l). split; [done|]. by apply Hs2.
    + apply keys_del_elem_of; [by eapply Hsucc_U|done|done]. }
split; [split; [split; [split|]|split]|split; [done|done]].
- by rewrite Hnodes.
- apply Forall_forall. intros [x l] Hx. simpl. apply Forall_forall. intros y Hy.
  apply Hin. assert (He : edge G' x y) by (by exists l).
  apply Hedge in He as [He [_ Hyn]]. split; [|done].
  by apply (edge_target G (conj Hnd Hcl) x).
- intros x [Hx _]%Hin. by apply HGU.
- unfold nodes, G'. simpl. rewrite !map_map. simpl.
  change (map (λ x : V * list V, x.1) ?l) with (map fst l).
  by apply dict_del_keys.
- intros u v. rewrite Hedge, <- Hmirror. simpl. split.
  + intros (keys & Hk & Hu). apply list_elem_of_fmap in Hk as ([x l] & [= -> ->] & Hx).
    apply Hp2 in Hx as [Hne Hx]. simpl in *.
    apply keys_del_elem_of in Hu as [Hu Hun]; [|by eapply Hpred_U|done].
    split; [by exists l|done].
  + intros [(l & Hx & Hu) [Hun Hvn]]. exists (keys_del same l n). split.
    * apply list_elem_of_fmap. exists (v, l). split; [done|]. by apply Hp2.
    * apply keys_del_elem_of; [by eapply Hpred_U|done|done].
Qed.
End Mirror.

(** ** remove_external_deps_from_dag: what the pass does keep *)

Lemma bypass_first G predecessor predecessors successors :
  BuildTree.bypass G (predecessor :: predecessors) successors
    = fold_left (λ G successor, add_edge DependencyNode.same_key G predecessor successor)
        successors G.
Proof.
  unfold BuildTree.bypass. simpl.
  generalize (fold_left
                (λ G successor, add_edge DependencyNode.same_key G predecessor successor)
                successors G).
  induction predecessors as [|p ps IH]; intros G1; [done|]. simpl. apply IH.
Qed.

Lemma fold_add_edge_pairs {V} (same : V → V → bool) (G : DiGraph V) u (l : list V) :
  fold_left (λ G v, add_edge same G u v) l G
    = fold_left (λ H e, add_edge same H e.1 e.2) (map (λ v, (u, v)) l) G.
Proof. revert G. induction l as [|v l IH]; intros G; [done|]. simpl. apply IH. Qed.

Lemma canonical_distinct_keys {V} (same : V → V → bool) (l : list V) :
  canonical same l → NoDup l → distinct_keys same l.
Proof.
  intros Hcan. induction 1 as [|x l Hx Hnd IH]; [done|]. simpl. split.
  - apply Forall_forall. intros y Hy. apply not_true_iff_false. intros Hsame.
    apply (canonical_same same (x :: l)) in Hsame; [|done|left|by right].
    by subst.
  - apply IH. apply (canonical_subseteq same (x :: l)); [done|]. intros; by right.
Qed.

Lemma len_counts_buildable (U : list DependencyNode.t) (self : BuildTree.t) :
  canonical DependencyNode.same_key U → good U (BuildTree._tree self) →
  BuildTree.__len__ self = length (filter is_buildable (nodes (BuildTree._tree self))).
Proof.
  intros HU [[Hnd _] HGU]. unfold BuildTree.__len__.
  rewrite (py_set_distinct DependencyNode.same_key); [done|].
  apply distinct_keys_filter, canonical_distinct_keys; [|done].
  by apply (canonical_subseteq _ U).
Qed.

Section RemoveExternal.
Variable set_order : ordering.
Hypothesis set_order_perm : is_ordering set_order.
Variable U : list DependencyNode.t.
Hypothesis HU : canonical DependencyNode.same_key U.

Abbreviation same_key := DependencyNode.same_key.

Lemma remove_external_node_sound G node :
sound U G → node ∈ nodes G →
∃ G', BuildTree.remove_external_node G node = Ok G' ∧ sound U G' ∧
      (∀ x, x ∈ nodes G' ↔ x ∈ nodes G ∧ x ≠ node) ∧
      (∀ a b, edge G a b → a ≠ node → b ≠ node → edge G' a b) ∧
      (∀ a b, edge G' a b → depends_on G a b).
Proof.
intros HG Hnode. pose proof HG as [[Hwf HGU] Hpred].
assert (Hcan : canonical same_key (nodes G)) by (by apply (canonical_subseteq _ U)).
destruct (pred_lookup_node same_key U HU G node HG Hnode) as (pk & Hpk & _ & Hpk_edge).
destruct (succ_lookup_node same_key G Hcan Hwf node Hnode) as (sk & Hsk & Hsk_edge).
unfold BuildTree.remove_external_node, predecessors, successors.
rewrite Hpk, Hsk. cbn [result_bind].
assert (Hby : ∃ G1, BuildTree.bypass G pk sk = G1 ∧ sound U G1 ∧
                    (∀ x, x ∈ nodes G1 ↔ x ∈ nodes G) ∧
                    (∀ a b, edge G a b → edge G1 a b) ∧
                    (∀ a b, edge G1 a b → edge G a b ∨ (edge G a node ∧ edge G node b))).
{ destruct pk as [|p pk].
  - exists G. split; [done|]. split; [done|]. split; [done|]. split; [done|]. by left.
  - rewrite bypass_first, fold_add_edge_pairs.
    assert (Hp : edge G p node) by (apply Hpk_edge; left).
    assert (Hes : ∀ e, e ∈ map (λ v, (p, v)) sk → e.1 ∈ U ∧ e.2 ∈ U).
    { intros e (v & -> & Hv)%list_elem_of_fmap. simpl. split; apply HGU.
      - by apply (edge_source G p node).
      - apply (edge_target G Hwf node). by apply Hsk_edge. }
    destruct (fold_add_edge_spec same_key U HU _ G (proj1 HG) Hes) as (_ & Hn1 & He1).
    eexists. split; [reflexivity|]. split; [by apply fold_add_edge_sound|].
    split; [|split].
    + intros x. rewrite Hn1. split; [|by left].
      intros [?|(e & (v & -> & Hv)%list_elem_of_fmap & [->| ->])]; [done|..]; simpl.
      * by apply (edge_source G p node).
      * apply (edge_target G Hwf node). by apply Hsk_edge.
    + intros a b Hab. apply He1. by left.
    + intros a b [Hab|Hab]%He1; [by left|].
      apply list_elem_of_fmap in Hab as (v & [= -> ->] & Hv). right.
      split; [done|]. by apply Hsk_edge. }
destruct Hby as (G1 & -> & HG1 & Hn1 & Hkeep1 & Hnew1).
destruct (remove_node_sound same_key U HU G1 node HG1) as (G' & Hrm & HG' & Hn' & He');
  [by apply Hn1|].
exists G'. split; [done|]. split; [done|]. split; [|split].
- intros x. by rewrite Hn', Hn1.
- intros a b Hab Ha Hb. apply He'. split; [by apply Hkeep1|done].
- intros a b [Hab _]%He'. destruct (Hnew1 a b Hab) as [?|[? ?]].
  + by apply tc_once.
  + by apply (tc_l _ _ node), tc_once.
Qed.

Lemma remove_external_nodes_sound external_nodes G :
sound U G → NoDup external_nodes → (∀ x, x ∈ external_nodes → x ∈ nodes G) →
∃ G', fold_left (λ acc node, G <~ acc ;; BuildTree.remove_external_node G node)
        external_nodes (Ok G) = Ok G' ∧
      sound U G' ∧
      (∀ x, x ∈ nodes G' ↔ x ∈ nodes G ∧ x ∉ external_nodes) ∧
      (∀ a b, edge G a b → a ∉ external_nodes → b ∉ external_nodes → edge G' a b) ∧
      (∀ a b, edge G' a b → depends_on G a b).
Proof.
revert G. induction external_nodes as [|node rest IH]; intros G HG Hnd Hin.
- exists G. split; [done|]. split; [done|]. split; [|split].
  + intros x. rewrite elem_of_nil. tauto.
  + done.
  + intros a b. apply tc_once.
- apply NoDup_cons in Hnd as [Hnode Hnd].
  destruct (remove_external_node_sound G node HG) as (G1 & Hrun & HG1 & Hn1 & Hk1 & Hd1);
    [apply Hin; left|].
  destruct (IH G1 HG1 Hnd) as (G' & Hfold & HG' & Hn' & Hk' & Hd').
  { intros x Hx. apply Hn1. split; [apply Hin; by right|]. by intros ->. }
  exists G'. cbn [fold_left result_bind]. rewrite Hrun.
  split; [done|]. split; [done|]. split; [|split].
  + intros x. rewrite Hn', Hn1, not_elem_of_cons. tauto.
  + intros a b Hab [Ha Ha']%not_elem_of_cons [Hb Hb']%not_elem_of_cons.
    apply Hk'; [|done..]. by apply Hk1.
  + intros a b Hab%Hd'. clear -Hab Hd1.
    induction Hab as [a b Hab|a c b Hac _ IH].
    * by apply Hd1.
    * eapply tc_transitive; [by apply Hd1|done].
Qed.

(** On a graph in the shape networkx keeps, the pass returns; the graph
  it leaves has exactly the nodes that have a build command, so
  [len()] of the tree is what it was; every edge between two such
  nodes is still there; and every edge of the result is a dependency
  (an edge or a chain of edges) of the graph before the pass. *)
Theorem remove_external_deps_leaves_buildable (self : BuildTree.t) :
sound U (BuildTree._tree self) →
∃ G',
  BuildTree.remove_external_deps_from_dag set_order self
    = Ok (BuildTree.with_tree self G') ∧
  sound U G' ∧
  (∀ x, x ∈ nodes G' ↔ x ∈ nodes (BuildTree._tree self) ∧ is_buildable x = true) ∧
  BuildTree.__len__ (BuildTree.with_tree self G') = BuildTree.__len__ self ∧
  (∀ a b, edge (BuildTree._tree self) a b →
          is_buildable a = true → is_buildable b = true → edge G' a b) ∧
  (∀ a b, edge G' a b → depends_on (BuildTree._tree self) a b).
Proof.
intros HG. set (G := BuildTree._tree self) in *.
pose proof HG as [[Hwf HGU] _].
assert (Hcan : canonical same_key (nodes G)) by (by apply (canonical_subseteq _ U)).
unfold BuildTree.remove_external_deps_from_dag. fold G.
set (external_nodes := set_order _ (py_set same_key (filter is_external (nodes G)))).
assert (Hfilter : ∀ x, x ∈ filter is_external (nodes G) → x ∈ nodes G).
{ by intros x [_ ?]%list_elem_of_filter. }
assert (Hext : ∀ x, x ∈ external_nodes ↔ x ∈ nodes G ∧ is_external x = true).
{ intros x. subst external_nodes. rewrite (set_order_perm _ _). split.
  - intros [Hx Hin]%py_set_elem_of%list_elem_of_filter. split; [done|].
    by apply Is_true_true.
  - intros [Hin Hx]. apply (py_set_keeps same_key G Hcan); [done|].
    apply list_elem_of_filter. split; [by apply Is_true_true|done]. }
destruct (remove_external_nodes_sound external_nodes G HG)
  as (G' & Hfold & HG' & Hn' & Hk' & Hd').
{ subst external_nodes. rewrite (set_order_perm _ _).
  by apply (py_set_NoDup same_key G Hcan). }
{ by intros x [? _]%Hext. }
assert (Hnodes : ∀ x, x ∈ nodes G' ↔ x ∈ nodes G ∧ is_buildable x = true).
{ intros x. rewrite Hn', Hext. unfold is_buildable.
  destruct (is_external x); simpl; split.
  + intros [Hx Hnot]. exfalso. by apply Hnot.
  + by intros [_ ?].
  + intros [Hx _]. done.
  + intros [Hx _]. split; [done|]. by intros [_ ?]. }
exists G'. rewrite Hfold. cbn [result_bind].
split; [done|]. split; [done|]. split; [done|]. split; [|split; [|done]].
- rewrite (len_counts_buildable U (BuildTree.with_tree self G') HU (proj1 HG')).
  rewrite (len_counts_buildable U self HU (proj1 HG)). fold G. simpl.
  apply Permutation_length, NoDup_Permutation.
  + apply NoDup_filter. by destruct HG' as [[[? _] _] _].
  + apply NoDup_filter. by destruct Hwf.
  + intros x. rewrite !list_elem_of_filter, Hnodes. split.
    * intros [? [? ?]]. done.
    * intros [Hb ?]. split; [done|]. split; [done|]. by apply Is_true_true.
- intros a b Hab Ha Hb. apply Hk'; [done|..]; rewrite Hext; unfold is_buildable in *;
    intros [_ Hx]; by rewrite Hx in *.
Qed.
End RemoveExternal.

(** ** networkx.descendants: the nodes a path from the source leads to *)

Lemma tc_flip_edge {V} (R S : relation V) x y :
  (∀ a b, R a b → S b a) → tc R x y → tc S y x.
Proof.
  intros HRS. induction 1 as [x y Hxy|x z y Hxz _ IH].
  - by apply tc_once, HRS.
  - eapply tc_r; [exact IH|]. by apply HRS.
Qed.

Section DescendantsSpec.
Context {V : Type}.
Variable same : V → V → bool.
Variable U : list V.
Hypothesis HU : canonical same U.
Variable G : DiGraph V.
Hypothesis HG : sound U G.

Lemma transpose_edge a b : edge (transpose G) a b ↔ edge G b a.
Proof. destruct HG as [_ [_ Hmirror]]. apply Hmirror. Qed.

Lemma transpose_nodes : nodes (transpose G) = nodes G.
Proof. by destruct HG as [_ [Hkeys _]]. Qed.

Lemma transpose_well_formed : well_formed (transpose G).
Proof.
destruct HG as [[[Hnd Hcl] HGU] [Hkeys Hmirror]]. split.
- by rewrite transpose_nodes.
- apply Forall_forall. intros [v keys] Hin. simpl. apply Forall_forall. intros u Hu.
  rewrite transpose_nodes. apply (edge_source G u v). apply Hmirror. by exists keys.
Qed.

Lemma transpose_pred_consistent : pred_consistent (transpose G).
Proof.
split; [by rewrite transpose_nodes|].
intros u v. rewrite transpose_edge. done.
Qed.

Lemma transpose_depends_on a b : depends_on (transpose G) a b ↔ depends_on G b a.
Proof.
split; apply tc_flip_edge; intros x y; by rewrite transpose_edge.
Qed.

Lemma reach_forward_transpose rounds reached :
reach_forward same rounds G reached = reach_back same rounds (transpose G) reached.
Proof.
revert reached. induction rounds as [|rounds IH]; intros reached; [done|].
simpl. change (new_successors same G reached)
  with (new_predecessors same (transpose G) reached).
destruct (new_predecessors same (transpose G) reached); [done|]. apply IH.
Qed.

Lemma descendants_spec source :
source ∈ nodes G →
∃ reachable, descendants same G source = Ok reachable ∧
             ∀ x, x ∈ reachable ↔ x ≠ source ∧ depends_on G source x.
Proof.
intros Hsrc. pose proof HG as [[Hwf HGU] _].
assert (Hcan : canonical same (nodes G)) by (by apply (canonical_subseteq _ U)).
assert (Hcan' : canonical same (nodes (transpose G))) by (by rewrite transpose_nodes).
unfold descendants.
rewrite (proj2 (has_node_elem_of same U HU G source (proj1 HG) (HGU _ Hsrc)) Hsrc).
eexists. split; [reflexivity|]. intros x.
rewrite reach_forward_transpose, <- transpose_nodes, <- transpose_depends_on.
apply (ancestors_spec same (transpose G) Hcan' transpose_well_formed
         transpose_pred_consistent).
by rewrite transpose_nodes.
Qed.
End DescendantsSpec.

(** ** is_independent *)

Lemma is_independent_answer (U : list DependencyNode.t)
    (tree : DiGraph DependencyNode.t) (node : DependencyNode.t) :
  canonical DependencyNode.same_key U → sound U tree → node ∈ nodes tree →
  ∃ answer, is_independent node tree = Ok answer ∧
            (answer = true ↔ no_build_below tree node).
Proof.
  intros HU HG Hnode. unfold is_independent, no_build_below.
  destruct (descendants_spec DependencyNode.same_key U HU tree HG node Hnode)
    as (reachable & -> & Hreach).
  cbn [result_bind]. eexists. split; [reflexivity|].
  destruct (py_set _ (filter is_buildable reachable)) as [|y ys] eqn:Hset.
  - split; [intros _|done]. intros x Hne Hdep.
    apply (proj1 (py_set_nil DependencyNode.same_key _)) in Hset.
    assert (Hx : x ∈ reachable) by (by apply Hreach).
    destruct (DependencyNode.build_command x) as [c|] eqn:Hc; [|done].
    assert (Hin : x ∈ filter is_buildable reachable).
    { apply list_elem_of_filter. split; [|done].
      unfold is_buildable, is_external. by rewrite Hc. }
    rewrite Hset in Hin. by apply elem_of_nil in Hin.
  - split; [done|]. intros Hall. exfalso.
    assert (Hy : y ∈ filter is_buildable reachable).
    { apply (py_set_elem_of DependencyNode.same_key). rewrite Hset. left. }
    apply list_elem_of_filter in Hy as [Hb Hy]. apply Hreach in Hy as [Hne Hdep].
    specialize (Hall y Hne Hdep). unfold is_buildable, is_external in Hb.
    by rewrite Hall in Hb.
Qed.

(** [is_independent(node, tree)] on a node of the tree answers whether no
    other node that [node] depends on, by an edge or a chain of edges, has
    a build command; on an object that is not a key of the graph it fails
    with [NetworkXError]. *)
Theorem is_independent_spec (U : list DependencyNode.t)
    (tree : DiGraph DependencyNode.t) (node : DependencyNode.t) :
  canonical DependencyNode.same_key U →
  sound U tree →
  (node ∈ nodes tree →
     ∃ answer, is_independent node tree = Ok answer ∧
       (answer = true ↔
        ∀ x, x ≠ node → depends_on tree node x → DependencyNode.build_command x = None)) ∧
  (has_node DependencyNode.same_key tree node = false →
     is_independent node tree = Raise NetworkXError).
Proof.
  intros HU HG. split.
  - intros Hnode.
    destruct (is_independent_answer U tree node HU HG Hnode) as (answer & Hrun & Hiff).
    exists answer. split; [done|]. exact Hiff.
  - intros Hmiss. unfold is_independent, descendants. by rewrite Hmiss.
Qed.

(** ** build_command_dependencies *)

Lemma buildable_successors_elem_of succs dep cmd :
  (dep, cmd) ∈ buildable_successors succs ↔
  dep ∈ succs ∧ DependencyNode.build_command dep = Some cmd.
Proof.
  unfold buildable_successors. rewrite list_elem_of_omap. split.
  - intros (d & Hd & Hc). destruct (DependencyNode.build_command d) as [c|] eqn:Hcmd; [|done].
    simpl in Hc. injection Hc as <- <-. done.
  - intros [Hd Hc]. exists dep. split; [done|]. by rewrite Hc.
Qed.

Lemma unique_packages_fold deps acc :
  NoDup acc →
  let step := λ (dep_packages : list (gset string))
                (dep : DependencyNode.t * BuildCommand.t),
                if bool_decide (DependencyNode.packages dep.1 ∈ dep_packages)
                then dep_packages
                else dep_packages ++ [DependencyNode.packages dep.1] in
  NoDup (fold_left step deps acc) ∧
  ∀ p, p ∈ fold_left step deps acc ↔
       p ∈ acc ∨ ∃ dep, dep ∈ deps ∧ DependencyNode.packages dep.1 = p.
Proof.
  intros Hnd step. revert acc Hnd. induction deps as [|dep deps IH]; intros acc Hnd.
  - split; [done|]. intros p. split; [by left|]. by intros [?|(? & ?%elem_of_nil & _)].
  - simpl. unfold step at 2 4. case_bool_decide as Hin.
    + destruct (IH acc Hnd) as [IH1 IH2]. split; [done|]. intros p. rewrite IH2. split.
      * intros [?|(d & Hd & Hp)]; [by left|]. right. exists d. split; [by right|done].
      * intros [?|(d & [->|Hd]%elem_of_cons & Hp)]; [by left|left; by subst|].
        right. by exists d.
    + destruct (IH (acc ++ [DependencyNode.packages dep.1])) as [IH1 IH2].
      { apply NoDup_app. split; [done|]. split; [|apply NoDup_singleton].
        by intros x Hx ->%list_elem_of_singleton. }
      split; [done|]. intros p. rewrite IH2, elem_of_app, list_elem_of_singleton. split.
      * intros [[?| ->]|(d & Hd & Hp)]; [by left|right; exists dep; split; [left|done]|].
        right. exists d. split; [by right|done].
      * intros [?|(d & [->|Hd]%elem_of_cons & Hp)]; [left; by left|left; by right|].
        right. by exists d.
Qed.

Section DependencyNamesSpec.
Variable name : BuildCommand.t → string.

Lemma first_names_fold deps groups terms :
(∀ p, p ∈ groups → ∃ dep, dep ∈ deps ∧ p = DependencyNode.packages dep.1) →
∃ reps,
  fold_left
    (λ acc dep_package,
       terms <~~ acc ;;
       term <~~ first_name name deps dep_package ;;
       Returns (terms ++ [term]))
    groups (Returns terms)
  = Returns (terms ++ map (λ r, name r.2) reps) ∧
  map (λ r, DependencyNode.packages r.1) reps = groups ∧
  ∀ r, r ∈ reps → r ∈ deps.
Proof.
revert terms. induction groups as [|p groups IH]; intros terms Hgroups.
- exists []. simpl. rewrite app_nil_r. split; [done|]. split; [done|].
  by intros r ?%elem_of_nil.
- destruct (Hgroups p) as (dep & Hdep & Hp); [left|].
  cbn [fold_left outcome_bind]. unfold first_name at 2.
  destruct (filter (λ x, p = DependencyNode.packages x.1) deps) as [|x xs] eqn:Hf.
  { exfalso. assert (Hin : dep ∈ filter (λ x, p = DependencyNode.packages x.1) deps)
      by (by apply list_elem_of_filter).
    rewrite Hf in Hin. by apply elem_of_nil in Hin. }
  assert (Hx : x ∈ filter (λ x, p = DependencyNode.packages x.1) deps)
    by (rewrite Hf; left).
  apply list_elem_of_filter in Hx as [Hxp Hx].
  cbn [outcome_bind].
  destruct (IH (terms ++ [name x.2])) as (reps & Hfold & Hmap & Hreps).
  { intros q Hq. apply Hgroups. by right. }
  exists (x :: reps). rewrite Hfold. split; [|split].
  + by rewrite <- app_assoc.
  + simpl. by rewrite Hmap, Hxp.
  + intros r [->|Hr]%elem_of_cons; [done|by apply Hreps].
Qed.

(** [build_command_dependencies] on a node of the graph never fails: it
  names one build command for each distinct package set among the
  successors that have a build command, each taken from such a
  successor, in quotes and joined by commas.  Successors without a
  build command are not named.  On an object that is not a node of the
  graph it raises the graph's [NetworkXError]. *)
Theorem build_command_dependencies_spec (self : BuildTree.t) (node : DependencyNode.t) :
(∀ succs,
   successors DependencyNode.same_key (BuildTree._tree self) node = Ok succs →
   ∃ reps : list (DependencyNode.t * BuildCommand.t),
     build_command_dependencies name self node
       = Returns (join ", " (map (λ r, quoted (name r.2)) reps)) ∧
     NoDup (map (λ r, DependencyNode.packages r.1) reps) ∧
     (∀ r, r ∈ reps → r.1 ∈ succs ∧ DependencyNode.build_command r.1 = Some r.2) ∧
     (∀ dep, dep ∈ succs → is_buildable dep = true →
             ∃ r, r ∈ reps ∧ DependencyNode.packages r.1 = DependencyNode.packages dep)) ∧
(∀ e,
   successors DependencyNode.same_key (BuildTree._tree self) node = Raise e →
   build_command_dependencies name self node = Raises (Exception e)).
Proof.
split.
- intros succs Hs. unfold build_command_dependencies. rewrite Hs.
  cbn [lift outcome_bind]. set (deps := buildable_successors succs).
  destruct (unique_packages_fold deps [] (NoDup_nil_2)) as [Hnd Hin].
  fold (unique_packages deps) in Hnd, Hin.
  destruct (first_names_fold deps (unique_packages deps) []) as (reps & -> & Hmap & Hreps).
  { intros p [?%elem_of_nil|(dep & Hdep & <-)]%Hin; [done|]. by exists dep. }
  exists reps. cbn [outcome_bind app]. rewrite map_map. split; [done|]. split; [|split].
  + by rewrite Hmap.
  + intros [d c] Hr%Hreps. by apply buildable_successors_elem_of in Hr.
  + intros dep Hdep Hb. unfold is_buildable, is_external in Hb.
    destruct (DependencyNode.build_command dep) as [c|] eqn:Hc; [|done].
    assert (Hp : DependencyNode.packages dep ∈ unique_packages deps).
    { apply Hin. right. exists (dep, c). split; [|done].
      by apply buildable_successors_elem_of. }
    rewrite <- Hmap in Hp. apply list_elem_of_fmap in Hp as (r & Hr & Hin').
    by exists r.
- intros e He. unfold build_command_dependencies. by rewrite He.
Qed.
End DependencyNamesSpec.

(** ** A graph of dependency nodes as a graph of objects *)

Section AsObjects.
Variable G : DiGraph DependencyNode.t.

Lemma as_objects_nodes : nodes (as_objects G) = map ONode (nodes G).
Proof. unfold nodes, as_objects. simpl. by rewrite !map_map. Qed.

Lemma as_objects_edge x y :
edge (as_objects G) x y ↔ ∃ a b, x = ONode a ∧ y = ONode b ∧ edge G a b.
Proof.
unfold edge, as_objects. simpl. split.
- intros (keys & ([a l] & [= -> ->] & Hin)%list_elem_of_fmap & Hy).
  apply list_elem_of_fmap in Hy as (b & -> & Hb). exists a, b.
  split; [done|]. split; [done|]. by exists l.
- intros (a & b & -> & -> & l & Hin & Hb). exists (map ONode l). split.
  + apply list_elem_of_fmap. by exists (a, l).
  + apply list_elem_of_fmap. by exists b.
Qed.

Lemma as_objects_edge_nodes a b : edge (as_objects G) (ONode a) (ONode b) ↔ edge G a b.
Proof.
rewrite as_objects_edge. split.
- by intros (a' & b' & [= <-] & [= <-] & H).
- intros H. by exists a, b.
Qed.

Lemma as_objects_depends_on_inv x y :
depends_on (as_objects G) x y →
∃ a b, x = ONode a ∧ y = ONode b ∧ depends_on G a b.
Proof.
induction 1 as [x y Hxy|x z y Hxz _ IH].
- apply as_objects_edge in Hxy as (a & b & -> & -> & H). exists a, b.
  split; [done|]. split; [done|]. by apply tc_once.
- apply as_objects_edge in Hxz as (a & c & -> & -> & H).
  destruct IH as (c' & b & [= <-] & -> & Hcb). exists a, b.
  split; [done|]. split; [done|]. by apply (tc_l _ _ c).
Qed.

Lemma as_objects_depends_on a b :
depends_on (as_objects G) (ONode a) (ONode b) ↔ depends_on G a b.
Proof.
split.
- by intros (a' & b' & [= <-] & [= <-] & H)%as_objects_depends_on_inv.
- induction 1 as [a b Hab|a c b Hac _ IH].
  + by apply tc_once, as_objects_edge_nodes.
  + apply (tc_l _ _ (ONode c)); [by apply as_objects_edge_nodes|done].
Qed.

Lemma as_objects_well_formed : well_formed G → well_formed (as_objects G).
Proof.
intros [Hnd Hcl]. split.
- rewrite as_objects_nodes. apply NoDup_fmap_2; [|done]. by intros ? ? [= ->].
- apply Forall_forall. intros [x l] Hin. simpl. apply Forall_forall. intros y Hy.
  assert (He : edge (as_objects G) x y) by (by exists l).
  apply as_objects_edge in He as (a & b & -> & -> & He).
  rewrite as_objects_nodes. apply list_elem_of_fmap. exists b. split; [done|].
  by apply (edge_target G (conj Hnd Hcl) a).
Qed.

Lemma as_objects_acyclic : acyclic G → acyclic (as_objects G).
Proof.
intros Hac x Hx. pose proof Hx as (a & b & -> & [= <-] & _)%as_objects_depends_on_inv.
apply (Hac a). by apply as_objects_depends_on.
Qed.

Lemma as_objects_no_root : false_start_node ∉ nodes (as_objects G).
Proof. rewrite as_objects_nodes. by intros (n & ? & _)%list_elem_of_fmap. Qed.
End AsObjects.

Lemma canonical_objects (U : list DependencyNode.t) :
  canonical DependencyNode.same_key U →
  canonical obj_same_key (false_start_node :: map ONode U).
Proof.
  intros HU. apply Forall_forall. intros x Hx. apply Forall_forall. intros y Hy.
  apply elem_of_cons in Hx as [->|(a & -> & Ha)%list_elem_of_fmap];
    apply elem_of_cons in Hy as [->|(b & -> & Hb)%list_elem_of_fmap]; simpl; try done.
  rewrite (canonical_same DependencyNode.same_key U a b HU Ha Hb).
  split; [by intros ->|by intros [= ->]].
Qed.

(** ** The depth-first search yields only what the start nodes lead to *)

Section DfsReach.
Context {V : Type}.
Variable same : V → V → bool.
Variable G : DiGraph V.
(** A property that the adjacency of a node that has it passes on. *)
Variable R : V → Prop.
Hypothesis R_closed :
∀ x keys c, R x → dict_get same (_succ G) x = Some keys → c ∈ keys → R c.

Lemma dfs_while_reach fuel visited stack out visited' out' :
dfs_while same fuel G visited stack out = Some (Ok (visited', out')) →
Forall (λ f : frame V, R f.1.1 ∧ ∀ c, c ∈ f.2 → R c) stack →
(∀ x, x ∈ out → R x) →
∀ x, x ∈ out' → R x.
Proof.
revert visited stack out. induction fuel as [|fuel IH]; intros visited stack out; [done|].
simpl. destruct stack as [|[[parent depth_now] children] rest].
{ intros [= <- <-]. done. }
intros Hrun [[Hparent Hchildren] Hrest]%Forall_cons Hout. simpl in *.
destruct children as [|child children'].
- apply (IH _ _ _ Hrun Hrest). destruct rest; [done|].
  intros x [Hx| ->%list_elem_of_singleton]%elem_of_app; auto.
- assert (Hstack' : Forall (λ f : frame V, R f.1.1 ∧ ∀ c, c ∈ f.2 → R c)
                      ((parent, depth_now, children') :: rest)).
  { constructor; [|done]. simpl. split; [done|]. intros c Hc. apply Hchildren. by right. }
  destruct (memb same child visited); [by apply (IH _ _ _ Hrun)|].
  destruct (Nat.ltb 1 depth_now); [|by apply (IH _ _ _ Hrun)].
  destruct (dict_get same (_succ G) child) as [grandchildren|] eqn:Hget; [|done].
  apply (IH _ _ _ Hrun); [|done]. constructor; [|done]. simpl.
  assert (Hchild : R child) by (apply Hchildren; left).
  split; [done|]. intros c Hc. by apply (R_closed child grandchildren).
Qed.

Lemma dfs_starts_reach fuel starts visited out visited' out' :
dfs_starts same fuel G starts visited out = Some (Ok (visited', out')) →
(∀ s, s ∈ starts → R s) →
(∀ x, x ∈ out → R x) →
∀ x, x ∈ out' → R x.
Proof.
revert visited out. induction starts as [|start more IH]; intros visited out; simpl.
{ intros [= <- <-]. done. }
intros Hrun Hstarts Hout.
assert (Hmore : ∀ s, s ∈ more → R s) by (intros; apply Hstarts; by right).
destruct (memb same start visited); [by apply (IH _ _ Hrun)|].
destruct (dict_get same (_succ G) start) as [children|] eqn:Hget; [|done].
destruct (dfs_while same fuel G (start :: visited) _ out) as [[[v1 o1]|]|] eqn:Hw;
  [|done|done].
apply (IH _ _ Hrun Hmore). intros x [Hx| ->%list_elem_of_singleton]%elem_of_app.
- apply (dfs_while_reach _ _ _ _ _ _ Hw); [|done..]. constructor; [|done]. simpl.
  split; [apply Hstarts; left|]. intros c Hc.
  apply (R_closed start children); [apply Hstarts; left|done..].
- apply Hstarts. left.
Qed.

Lemma dfs_postorder_reach fuel source out :
dfs_postorder_nodes same fuel G source = Some (Ok out) →
(∀ s, s ∈ match source with None => nodes G | Some s => [s] end → R s) →
∀ x, x ∈ out → R x.
Proof.
unfold dfs_postorder_nodes. intros Hrun Hstarts.
destruct (dfs_starts same fuel G _ [] []) as [[[v o]|]|] eqn:Hs; [|done|done].
injection Hrun as <-. apply (dfs_starts_reach _ _ _ _ _ _ Hs Hstarts).
by intros x ?%elem_of_nil.
Qed.
End DfsReach.

(** ** The graph behind the virtual root *)

Lemma dict_get_stored {V A} (same : V → V → bool) (d : list (V * A)) k a :
  dict_get same d k = Some a → ∃ stored, (stored, a) ∈ d ∧ same stored k = true.
Proof.
  induction d as [|[s a'] d IH]; [done|]. simpl.
  destruct (same s k) eqn:Hs.
  - intros [= ->]. exists s. split; [left|done].
  - intros (stored & Hin & Hst)%IH. exists stored. split; [by right|done].
Qed.

Lemma rooted_graph_edges (G : DiGraph obj) (starting_nodes : list DependencyNode.t) :
  well_formed G →
  canonical obj_same_key (false_start_node :: nodes G ++ map ONode starting_nodes) →
  let G' := fold_left (λ G dep, add_edge obj_same_key G false_start_node (ONode dep))
              starting_nodes
              (add_node obj_same_key (copy obj_same_key G) false_start_node) in
  ∀ a b, edge G' a b ↔
         edge G a b ∨ (a = false_start_node ∧ ∃ s, s ∈ starting_nodes ∧ b = ONode s).
Proof.
  intros Hwf Hcan G'.
  set (U := false_start_node :: nodes G ++ map ONode starting_nodes) in *.
  assert (HG : good U G).
  { split; [done|]. intros x Hx. subst U. right. apply elem_of_app. by left. }
  destruct (copy_spec obj_same_key U Hcan G HG) as (H1 & Hn1 & He1).
  destruct (add_node_spec obj_same_key U Hcan _ false_start_node H1) as (H2 & Hn2 & He2);
    [left|].
  assert (Hfold : G' = fold_left (λ H e, add_edge obj_same_key H e.1 e.2)
                         (map (λ x, (false_start_node, x)) (map ONode starting_nodes))
                         (add_node obj_same_key (copy obj_same_key G) false_start_node)).
  { subst G'. by rewrite fold_add_edge_from. }
  destruct (fold_add_edge_spec obj_same_key U Hcan
              (map (λ x, (false_start_node, x)) (map ONode starting_nodes)) _ H2)
    as (_ & _ & He3).
  { intros e (x & -> & Hx)%list_elem_of_fmap. simpl. split; [left|].
    right. apply elem_of_app. by right. }
  rewrite <- Hfold in He3. intros a b. rewrite He3, He2, He1. split.
  - intros [?|Hab]; [by left|]. right.
    apply list_elem_of_fmap in Hab as (x & [= -> ->] & Hx).
    apply list_elem_of_fmap in Hx as (s & -> & Hs). split; [done|]. by exists s.
  - intros [?|[-> (s & Hs & ->)]]; [by left|]. right.
    apply list_elem_of_fmap. exists (ONode s). split; [done|].
    apply list_elem_of_fmap. by exists s.
Qed.

(** ** What a traversal yields *)

Lemma omap_omap {A B C} (f : A → option C) (g : B → option C) (h : A → option B)
    (l : list A) :
  (∀ x, f x = h x ≫= g) → omap f l = omap g (omap h l).
Proof.
  intros Hf. induction l as [|x l IH]; [done|]. simpl in *. rewrite Hf.
  destruct (h x) as [y|]; simpl; [|exact IH]. destruct (g y); [f_equal|]; exact IH.
Qed.

Lemma nodes_of_objects (objects : list obj) :
  let out := omap (λ o, match o with ONode n => Some n | OStr _ => None end) objects in
  (∀ n, n ∈ out ↔ ONode n ∈ objects) ∧
  (NoDup objects → NoDup out) ∧
  (∀ return_node,
     omap (yield_of return_node) objects
       = omap (λ n, yield_of return_node (ONode n)) out).
Proof.
  intros out. split; [|split].
  - intros n. subst out. rewrite list_elem_of_omap. split.
    + by intros ([s|m] & Hin & [= <-]).
    + intros Hin. by exists (ONode n).
  - subst out. induction 1 as [|o l Ho Hnd IH]; simpl; [constructor|].
    destruct o as [s|n]; [done|]. apply NoDup_cons. split; [|done].
    rewrite list_elem_of_omap. intros ([s|m] & Hin & [= <-]). done.
  - intros r. subst out. apply omap_omap. by intros [s|n].
Qed.

Section Traversal.
Variable U : list DependencyNode.t.
Hypothesis HU : canonical DependencyNode.same_key U.
Variable G : DiGraph DependencyNode.t.
Hypothesis HG : good U G.
Hypothesis Hacyc : acyclic G.
Variable starting_nodes : list DependencyNode.t.
Hypothesis Hstarts : ∀ s, s ∈ starting_nodes → s ∈ U.

(** The nodes a traversal visits: all of them without start nodes, the
  start nodes and what they depend on otherwise. *)
Abbreviation visits n :=
(match starting_nodes with
 | [] => n ∈ nodes G
 | _ :: _ => n ∈ starting_nodes ∨ ∃ s, s ∈ starting_nodes ∧ depends_on G s n
 end).

Lemma traversal_canonical :
canonical obj_same_key
  (false_start_node :: nodes (as_objects G) ++ map ONode starting_nodes).
Proof.
apply (canonical_subseteq obj_same_key _ _ (canonical_objects U HU)).
intros x [->|[Hx|Hx]%elem_of_app]%elem_of_cons; [left|right..].
- rewrite as_objects_nodes in Hx. apply list_elem_of_fmap in Hx as (n & -> & Hn).
  apply list_elem_of_fmap. exists n. split; [done|]. by apply HG.
- apply list_elem_of_fmap in Hx as (n & -> & Hn).
  apply list_elem_of_fmap. exists n. split; [done|]. by apply Hstarts.
Qed.

Lemma traversal_visits :
∃ out : list DependencyNode.t,
  NoDup out ∧
  (∀ return_node,
     (traverse_build_commands (graph_store G) 0 starting_nodes return_node).2
       = Some (Ok (omap (λ n, yield_of return_node (ONode n)) out))) ∧
  (∀ n, n ∈ out ↔ visits n).
Proof.
pose proof traversal_canonical as Hcan.
pose proof (as_objects_well_formed G (proj1 HG)) as Hwf.
pose proof (as_objects_acyclic G Hacyc) as Hac.
cut (∃ objects : list obj,
       NoDup objects ∧
       (∀ return_node,
          (traverse_build_commands (graph_store G) 0 starting_nodes return_node).2
            = Some (Ok (omap (yield_of return_node) objects))) ∧
       (∀ n, ONode n ∈ objects ↔ visits n)).
{ intros (objects & Hnd & Hrun & Hin).
  destruct (nodes_of_objects objects) as (Hout & Hnd' & Hy).
  eexists. split; [by apply Hnd'|]. split.
  - intros r. by rewrite Hrun, Hy.
  - intros n. by rewrite Hout. }
destruct starting_nodes as [|s0 starts] eqn:Hs.
- assert (Hcan' : canonical obj_same_key (nodes (as_objects G))).
  { apply (canonical_subseteq obj_same_key _ _ Hcan). intros x Hx.
    right. apply elem_of_app. by left. }
  destruct (dfs_postorder_correct obj_same_key (as_objects G) Hcan' Hwf Hac
              (dfs_fuel (as_objects G)) None)
    as (out & Hrun & Hnd & _ & Hall & _); [done|done|].
  exists out. split; [done|]. split.
  + intros r. unfold traverse_build_commands. cbn [graph_store deref cells snd].
    by rewrite Hrun.
  + intros n. split.
    * intros Hn.
      assert (Hclosed : ∀ x keys c,
                x ∈ nodes (as_objects G) →
                dict_get obj_same_key (_succ (as_objects G)) x = Some keys →
                c ∈ keys → c ∈ nodes (as_objects G)).
      { intros x keys c _ (stored & Hin & _)%dict_get_stored Hc.
        destruct Hwf as [_ Hcl]. rewrite Forall_forall in Hcl.
        specialize (Hcl _ Hin). simpl in Hcl. rewrite Forall_forall in Hcl.
        by apply Hcl. }
      assert (Hin : ONode n ∈ nodes (as_objects G)).
      { by apply (dfs_postorder_reach obj_same_key (as_objects G) _ Hclosed
                    _ None out Hrun). }
      rewrite as_objects_nodes in Hin.
      by apply list_elem_of_fmap in Hin as (m & [= <-] & Hm).
    * intros Hn. apply Hall; [done|]. rewrite as_objects_nodes.
      apply list_elem_of_fmap. by exists n.
- assert (Hne : s0 :: starts ≠ []) by done.
  clear Hs. set (l := s0 :: starts) in *. clearbody l.
  pose proof (as_objects_no_root G) as Hroot.
  destruct (rooted_graph_spec (as_objects G) l Hwf Hac Hcan Hroot)
    as (Hwf' & Hcan' & Hacyc' & Hroot' & Hsub & Hstart_edges).
  pose proof (rooted_graph_edges (as_objects G) l Hwf Hcan) as Hedges.
  set (G' := fold_left (λ G dep, add_edge obj_same_key G false_start_node (ONode dep))
               l (add_node obj_same_key (copy obj_same_key (as_objects G))
                    false_start_node)) in *.
  destruct (dfs_postorder_correct obj_same_key G' Hcan' Hwf' Hacyc' (dfs_fuel G')
              (Some false_start_node))
    as (out & Hrun & Hnd & Hdep & _ & Hsrc); [done|by intros ? [= <-]|].
  exists out. split; [done|]. split.
  + intros r. rewrite traverse_rooted by done.
    cbn [graph_store deref cells]. fold G'. by rewrite Hrun.
  + intros n. split.
    * intros Hn.
      assert (Hclosed : ∀ x keys c,
                x ∈ nodes G' ∧ rtc (edge G') false_start_node x →
                dict_get obj_same_key (_succ G') x = Some keys →
                c ∈ keys →
                c ∈ nodes G' ∧ rtc (edge G') false_start_node c).
      { intros x keys c [Hx Hrx] Hget Hc.
        assert (He : edge G' x c).
        { exists keys. split; [|done]. by apply (succ_lookup obj_same_key G' Hcan' Hwf'). }
        split; [by apply (edge_target G' Hwf' x)|]. by eapply rtc_r. }
      assert (Hreach : ONode n ∈ nodes G' ∧ rtc (edge G') false_start_node (ONode n)).
      { apply (dfs_postorder_reach obj_same_key G' _ Hclosed
                 _ (Some false_start_node) out Hrun); [|done].
        intros s ->%list_elem_of_singleton. done. }
      destruct Hreach as [_ Hreach].
      assert (Hwalk : ∀ a x, tc (edge G') (ONode a) x →
                             ∃ b, x = ONode b ∧ depends_on G a b).
      { intros a x Hax. remember (ONode a) as y eqn:Hy. revert a Hy.
        induction Hax as [y x Hyx|y z x Hyz _ IH]; intros a ->.
        - apply Hedges in Hyx as [Hyx|[[=] _]].
          apply as_objects_edge in Hyx as (a' & b & [= <-] & -> & Hab).
          exists b. split; [done|]. by apply tc_once.
        - apply Hedges in Hyz as [Hyz|[[=] _]].
          apply as_objects_edge in Hyz as (a' & c & [= <-] & -> & Hac').
          destruct (IH c eq_refl) as (b & -> & Hcb). exists b. split; [done|].
          by apply (tc_l _ _ c). }
      apply rtc_tc in Hreach as [[=]|Hreach].
      inversion Hreach as [? ? Hedge|? z ? Hedge Hrest]; subst.
      -- apply Hedges in Hedge as [Hedge|[_ (s & Hs & [= <-])]]; [|by left].
         by apply as_objects_edge in Hedge as (? & ? & [=] & _).
      -- apply Hedges in Hedge as [Hedge|[_ (s & Hs & ->)]].
         { by apply as_objects_edge in Hedge as (? & ? & [=] & _). }
         destruct (Hwalk s _ Hrest) as (b & [= <-] & Hsb). right. by exists s.
    * intros Hn.
      assert (Hdepends : depends_on G' false_start_node (ONode n)).
      { destruct Hn as [Hn|(s & Hs & Hsn)].
        - by apply tc_once, Hstart_edges.
        - apply (tc_l _ _ (ONode s)); [by apply Hstart_edges|].
          apply (edge_depends_on_mono (as_objects G) G' Hsub).
          by apply as_objects_depends_on. }
      assert (Hb : before out (ONode n) false_start_node).
      { apply Hdep; [by apply Hsrc|done]. }
      by apply before_elem_of in Hb as [? _].
Qed.
End Traversal.

(** ** BuildTree.__iter__ and BuildTree.BuildNodes *)

Lemma yield_nodes_filter (out : list DependencyNode.t) :
  omap (λ n, yield_of true (ONode n)) out = map YNode (filter is_buildable out).
Proof.
  induction out as [|n out IH]; [done|]. rewrite filter_cons.
  unfold is_buildable, is_external in *. simpl in *.
  destruct (DependencyNode.build_command n); simpl; [f_equal|]; exact IH.
Qed.

Lemma yield_commands_filter (out : list DependencyNode.t) :
  ∃ cmds, omap (λ n, yield_of false (ONode n)) out = map YCommand cmds ∧
          map DependencyNode.build_command (filter is_buildable out) = map Some cmds.
Proof.
  induction out as [|n out (cmds & IH1 & IH2)]; [by exists []|].
  rewrite filter_cons. unfold is_buildable, is_external in *. simpl in *.
  destruct (DependencyNode.build_command n) as [c|] eqn:Hc; simpl.
  - exists (c :: cmds). simpl. rewrite Hc. split; [f_equal; exact IH1|by f_equal].
  - exists cmds. split; [exact IH1|done].
Qed.

Section Iteration.
Variable U : list DependencyNode.t.
Hypothesis HU : canonical DependencyNode.same_key U.
Variable self : BuildTree.t.
Hypothesis HG : good U (BuildTree._tree self).
Hypothesis Hacyc : acyclic (BuildTree._tree self).
Hypothesis Hinitial : ∀ s, s ∈ BuildTree._initial_nodes self → s ∈ U.

(** On an acyclic tree [BuildNodes] returns, and yields each node once:
  with no initial nodes, the nodes of the graph that have a build
  command; with initial nodes, those among the initial nodes and the
  nodes they depend on, by an edge or a chain of edges, that have a
  build command, and no other node. *)
Theorem BuildNodes_yields_what_initial_nodes_need :
∃ ns : list DependencyNode.t,
  BuildNodes self = Some (Ok (map YNode ns)) ∧
  NoDup ns ∧
  ∀ n, n ∈ ns ↔
       is_buildable n = true ∧
       match BuildTree._initial_nodes self with
       | [] => n ∈ nodes (BuildTree._tree self)
       | _ :: _ =>
           n ∈ BuildTree._initial_nodes self ∨
           ∃ s, s ∈ BuildTree._initial_nodes self ∧
                depends_on (BuildTree._tree self) s n
       end.
Proof.
destruct (traversal_visits U HU _ HG Hacyc _ Hinitial) as (out & Hnd & Hrun & Hin).
exists (filter is_buildable out). split; [|split].
- unfold BuildNodes. by rewrite Hrun, yield_nodes_filter.
- by apply NoDup_filter.
- intros n. rewrite list_elem_of_filter, Hin. split.
  + intros [Hb ?]. split; [by apply Is_true_true|done].
  + intros [Hb ?]. split; [by apply Is_true_true|done].
Qed.

(** Iterating an acyclic tree gives the build commands of the nodes that
  [BuildNodes] gives, in the same order; with no initial nodes there
  are [len(tree)] of them. *)
Theorem iter_yields_commands_of_BuildNodes :
∃ (ns : list DependencyNode.t) (cmds : list BuildCommand.t),
  BuildNodes self = Some (Ok (map YNode ns)) ∧
  __iter__ self = Some (Ok (map YCommand cmds)) ∧
  map DependencyNode.build_command ns = map Some cmds ∧
  (BuildTree._initial_nodes self = [] → length cmds = BuildTree.__len__ self).
Proof.
destruct (traversal_visits U HU _ HG Hacyc _ Hinitial) as (out & Hnd & Hrun & Hin).
destruct (yield_commands_filter out) as (cmds & Hcmds & Hmap).
exists (filter is_buildable out), cmds. split; [|split; [|split]].
- unfold BuildNodes. by rewrite Hrun, yield_nodes_filter.
- unfold __iter__. by rewrite Hrun, Hcmds.
- done.
- intros Hnone. rewrite Hnone in Hin.
  assert (Hlen : length cmds = length (filter is_buildable out)).
  { apply (f_equal length) in Hmap. by rewrite !length_map in Hmap. }
  rewrite Hlen. unfold BuildTree.__len__.
  destruct HG as [[Hnodup _] HGU].
  rewrite (py_set_distinct DependencyNode.same_key).
  + apply Permutation_length, NoDup_Permutation; [by apply NoDup_filter..|].
    intros n. rewrite !list_elem_of_filter, Hin. done.
  + apply distinct_keys_filter, canonical_distinct_keys; [|done].
    by apply (canonical_subseteq _ U).
Qed.
End Iteration.

(** ** Graphs only grow under add_node and add_edge *)

Section Growth.
Context {V : Type}.
Variable same : V → V → bool.

Lemma dict_set_keys {A} (d : list (V * A)) k a x :
x ∈ map fst (dict_set same d k a) ↔ x ∈ map fst d ∨ (x = k ∧ memb same k (map fst d) = false).
Proof.
unfold memb. induction d as [|[s a'] d IH]; simpl.
- rewrite list_elem_of_singleton, elem_of_nil. tauto.
- destruct (same s k) eqn:Hs; simpl.
  + rewrite !elem_of_cons. split; [tauto|]. intros [?|[_ ?]]; [done|done].
  + rewrite !elem_of_cons, IH. tauto.
Qed.

Lemma dict_set_entries {A} (d : list (V * A)) k a (grow : A → A → Prop) :
(∀ old, dict_get same d k = Some old → grow old a) →
∀ x b, (x, b) ∈ d → (x, b) ∈ dict_set same d k a ∨
                    ∃ b', (x, b') ∈ dict_set same d k a ∧ grow b b'.
Proof.
induction d as [|[s a'] d IH]; intros Hgrow x b; [by intros ?%elem_of_nil|].
simpl in *. destruct (same s k) eqn:Hs.
- intros [[= -> ->]|Hin]%elem_of_cons.
  + right. exists a. split; [left|]. by apply Hgrow.
  + left. by right.
- intros [[= -> ->]|Hin]%elem_of_cons; [left; left|].
  destruct (IH Hgrow x b Hin) as [?|(b' & ? & ?)]; [left; by right|].
  right. exists b'. split; [by right|done].
Qed.

Lemma add_node_grows G n :
(∀ x, x ∈ nodes G → x ∈ nodes (add_node same G n)) ∧
(∀ x, x ∈ nodes (add_node same G n) → x ∈ nodes G ∨ x = n) ∧
(∀ a b, edge G a b → edge (add_node same G n) a b).
Proof.
unfold add_node. destruct (has_node same G n); [by auto|].
unfold nodes, edge. simpl. rewrite map_app. simpl. split; [|split].
- intros x Hx. apply elem_of_app. by left.
- intros x [?| ->%list_elem_of_singleton]%elem_of_app; auto.
- intros a b (keys & Hin & Hb). exists keys. split; [|done]. apply elem_of_app. by left.
Qed.

Lemma keys_add_grows (keys : list V) k x : x ∈ keys → x ∈ keys_add same keys k.
Proof.
unfold keys_add. destruct (memb same k keys); [done|]. intros. apply elem_of_app. by left.
Qed.

Lemma add_edge_grows G u v :
(∀ x, x ∈ nodes G → x ∈ nodes (add_edge same G u v)) ∧
(∀ x, x ∈ nodes (add_edge same G u v) → x ∈ nodes G ∨ x = u ∨ x = v) ∧
(∀ a b, edge G a b → edge (add_edge same G u v) a b).
Proof.
destruct (add_node_grows G u) as (Hn1 & Hn1' & He1).
destruct (add_node_grows (add_node same G u) v) as (Hn2 & Hn2' & He2).
set (G2 := add_node same (add_node same G u) v) in *.
unfold add_edge. fold G2. split; [|split].
- intros x Hx. unfold nodes. simpl. apply dict_set_keys. left. by apply Hn2, Hn1.
- intros x Hx. unfold nodes in Hx. simpl in Hx.
  apply dict_set_keys in Hx as [Hx|[-> _]]; [|by auto].
  apply Hn2' in Hx as [Hx| ->]; [|by auto]. apply Hn1' in Hx as [?| ->]; auto.
- intros a b Hab%He1%He2. destruct Hab as (keys & Hin & Hb). unfold edge. simpl.
  destruct (dict_set_entries (_succ G2) u
              (keys_add same (default [] (dict_get same (_succ G2) u)) v)
              (λ old new, ∀ x, x ∈ old → x ∈ new)) with (x := a) (b := keys)
    as [?|(keys' & ? & Hgrow)]; [|done|by exists keys|].
  + intros old ->. simpl. intros x. apply keys_add_grows.
  + exists keys'. split; [done|]. by apply Hgrow.
Qed.
End Growth.

(** ** The remote resolver: what it adds and what it asks *)

Section ResolverGrowth.
Variable set_order : ordering.
Hypothesis set_order_perm : is_ordering set_order.
Variable hash_None : Z.
Variable hash_key : list string → Z.
Variable remove_version : string → string.
Variable _channels : list string.
Variable get_latest_package_info : list string → string → result (option package_info).
Variable str_of_nodes : list DependencyNode.t → string.
Variable G0 : DiGraph DependencyNode.t.

Abbreviation grown := (grown G0).
Abbreviation asked_once := (asked_once remove_version).

Abbreviation external := (λ n, DependencyNode.build_command n = None).

Lemma external_not_buildable n : external n → is_buildable n = true → False.
Proof. unfold is_buildable, is_external. by intros ->. Qed.

Lemma add_edge_grown G u v :
grown G → (external u ∨ u ∈ nodes G) → (external v ∨ v ∈ nodes G) →
grown (add_edge DependencyNode.same_key G u v).
Proof.
intros (Hn & Hb & He) Hu Hv.
destruct (add_edge_grows DependencyNode.same_key G u v) as (Hn1 & Hn1' & He1).
split; [|split].
- intros x Hx. by apply Hn1, Hn.
- intros x [Hx|[-> | ->]]%Hn1' Hbx; [by apply Hb|..].
  + destruct Hu as [Hu|Hu]; [by destruct (external_not_buildable u)|by apply Hb].
  + destruct Hv as [Hv|Hv]; [by destruct (external_not_buildable v)|by apply Hb].
- intros a b Hab. by apply He1, He.
Qed.

Lemma add_node_grown G n :
grown G → external n → grown (add_node DependencyNode.same_key G n).
Proof.
intros (Hn & Hb & He) Hext.
destruct (add_node_grows DependencyNode.same_key G n) as (Hn1 & Hn1' & He1).
split; [|split].
- intros x Hx. by apply Hn1, Hn.
- intros x [Hx| ->]%Hn1' Hbx; [by apply Hb|by destruct (external_not_buildable n)].
- intros a b Hab. by apply He1, He.
Qed.

Lemma fold_link_remote_grown node info st :
external node → grown st.1 →
grown (fold_left (link_remote set_order hash_None hash_key remove_version node) info st).1.
Proof.
intros Hnode. revert st. induction info as [|dep info IH]; intros st Hst; [done|].
simpl. apply IH. unfold link_remote.
destruct (set_order _ (local_dest _ _ _)) as [|dest rest] eqn:Hpop; simpl.
- apply add_edge_grown; [done|by left|by left].
- apply add_edge_grown; [done|by left|right].
  assert (Hin : dest ∈ dest :: rest) by left. rewrite <- Hpop in Hin.
  apply (proj1 (ordering_elem_of set_order _ _ set_order_perm)) in Hin.
  unfold local_dest in Hin. apply py_set_elem_of in Hin.
  by apply list_elem_of_filter in Hin as [_ ?].
Qed.

Lemma resolve_packages_grown node G ancestor_channels packages st st' e :
external node →
grown (dep_graph st) ∧ asked_once st ∧ Forall external (deps st) →
resolve_packages set_order hash_None hash_key remove_version _channels
  get_latest_package_info node G ancestor_channels packages st = (st', e) →
grown (dep_graph st') ∧ asked_once st' ∧ Forall external (deps st').
Proof.
intros Hnode. revert st. induction packages as [|package rest IH]; intros st Hst; simpl.
- by intros [= <- <-].
- destruct (existsb _ (seen st)) eqn:Hseen; [by apply IH|].
  destruct Hst as (Hgrown & [Hnd Hasked] & Hdeps).
  set (q := mkQuery node G
              (DependencyNode.channels node ++ ancestor_channels ++ _channels) package).
  assert (Hasked1 :
    NoDup (map (λ q, remove_version (q_package q)) (queries st ++ [q])) ∧
    ∀ q', q' ∈ queries st ++ [q] →
          existsb (String.eqb (remove_version (q_package q')))
            (remove_version package :: seen st) = true).
  { split.
    - rewrite map_app. simpl. apply NoDup_app. split; [done|].
      split; [|apply NoDup_singleton].
      intros x (q' & -> & Hq)%list_elem_of_fmap Heq%list_elem_of_singleton.
      apply Hasked in Hq. rewrite Heq in Hq. congruence.
    - intros q' [Hq| ->%list_elem_of_singleton]%elem_of_app; simpl.
      + rewrite (Hasked q' Hq). apply orb_true_r.
      + by rewrite String.eqb_refl. }
  destruct (get_latest_package_info _ package) as [[info|]|err].
  + apply IH. simpl. split; [|split; [done|]].
    * apply fold_link_remote_grown; [done|]. simpl. by apply add_node_grown.
    * by apply fold_link_remote_external.
  + by apply IH.
  + by intros [= <- <-].
Qed.

Lemma resolve_loop_grown fuel st :
grown (dep_graph st) ∧ asked_once st ∧ Forall external (deps st) →
let run := resolve_loop set_order hash_None hash_key remove_version _channels
             get_latest_package_info str_of_nodes fuel st in
(grown (dep_graph run.1) ∧ asked_once run.1) ∧
(run.2 = Returned → deps run.1 = []).
Proof.
revert st. induction fuel as [|fuel IH]; intros st (Hgrown & Hasked & Hdeps);
  [done|].
simpl. destruct (set_order _ (deps st)) as [|node remaining] eqn:Hpop.
{ simpl. split; [done|]. intros _. apply Permutation_nil_r.
  by rewrite <- (set_order_perm _ (deps st)), Hpop. }
assert (Hperm : node :: remaining ≡ₚ deps st) by (rewrite <- Hpop; apply set_order_perm).
assert (Hall : Forall external (node :: remaining)) by (by rewrite Hperm).
apply Forall_cons in Hall as [Hnode Hremaining].
destruct (resolve_packages _ _ _ _ _ _ _ _ _ _ _) as [st1 e] eqn:Hres.
apply resolve_packages_grown in Hres as (Hg1 & Ha1 & Hd1); [|done|done].
destruct e as [[| | |code msg]|]; simpl; try done. by apply IH.
Qed.

(** The resolver only adds to the graph, and only nodes without a build
  command: every node and every edge of the graph it is given is in
  the graph it leaves, and every node with a build command of the
  graph it leaves was there before.  This holds of every run, also
  one that fails or does not finish. *)
Theorem remote_deps_add_external_nodes_only (fuel : nat) :
let run := _create_remote_deps set_order hash_None hash_key remove_version _channels
             get_latest_package_info str_of_nodes fuel G0 in
(∀ x, x ∈ nodes G0 → x ∈ nodes (dep_graph run.1)) ∧
(∀ x, x ∈ nodes (dep_graph run.1) → is_buildable x = true → x ∈ nodes G0) ∧
(∀ a b, edge G0 a b → edge (dep_graph run.1) a b).
Proof.
unfold _create_remote_deps.
destruct (resolve_loop_grown fuel
  {| dep_graph := G0;
     deps := py_set DependencyNode.same_key (filter is_external (nodes G0));
     seen := []; queries := [] |}) as [[H _] _]; [|exact H].
simpl. split; [done|]. split.
- split; [constructor|]. by intros q ?%elem_of_nil.
- apply Forall_forall. intros n Hn%py_set_elem_of.
  apply list_elem_of_filter in Hn as [Hn _]. unfold is_external in Hn.
  by destruct (DependencyNode.build_command n).
Qed.

(** The resolver asks the channel at most once for a package name, and
  it returns only when no node is left in its work set. *)
Theorem remote_deps_ask_once (fuel : nat) :
let run := _create_remote_deps set_order hash_None hash_key remove_version _channels
             get_latest_package_info str_of_nodes fuel G0 in
NoDup (map (λ q, remove_version (q_package q)) (queries run.1)) ∧
(run.2 = Returned → deps run.1 = []).
Proof.
unfold _create_remote_deps.
destruct (resolve_loop_grown fuel
  {| dep_graph := G0;
     deps := py_set DependencyNode.same_key (filter is_external (nodes G0));
     seen := []; queries := [] |}) as [[_ [H1 _]] H2]; [|by split].
simpl. split; [done|]. split.
- split; [constructor|]. by intros q ?%elem_of_nil.
- apply Forall_forall. intros n Hn%py_set_elem_of.
  apply list_elem_of_filter in Hn as [Hn _]. unfold is_external in Hn.
  by destruct (DependencyNode.build_command n).
Qed.
End ResolverGrowth.

(** ** The edge linker on the whole graph *)

Lemma grown_refl G : grown G G.
Proof. by split; [|split]. Qed.

Lemma grown_trans G1 G2 G3 : grown G1 G2 → grown G2 G3 → grown G1 G3.
Proof.
  intros (Hn1 & Hb1 & He1) (Hn2 & Hb2 & He2). split; [|split]; auto.
Qed.

Lemma dependency_met_grown remove_version G G' node dependency :
  grown G G' → dependency_met remove_version G node dependency →
  dependency_met remove_version G' node dependency.
Proof.
  intros (_ & _ & He) [?|(dest & Hedge & Hp)]; [by left|].
  right. exists dest. split; [by apply He|done].
Qed.

Lemma external_node_provides hash_None hash_key remove_version dependency :
  provides remove_version (remove_version dependency)
    (external_node hash_None hash_key dependency) = true.
Proof.
  unfold provides, external_node. simpl. rewrite elements_singleton. simpl.
  by rewrite String.eqb_refl.
Qed.

Section LinkerGrowth.
Variable set_order : ordering.
Hypothesis set_order_perm : is_ordering set_order.
Variable hash_None : Z.
Variable hash_key : list string → Z.
Variable remove_version : string → string.

Abbreviation link_one := (link_dependency set_order hash_None hash_key remove_version).
Abbreviation link_all := (link_node set_order hash_None hash_key remove_version).

Lemma local_dest_elem_of tree name dest rest :
set_order _ (local_dest remove_version tree name) = dest :: rest →
dest ∈ nodes tree ∧ provides remove_version name dest = true.
Proof.
intros Hpop. assert (Hin : dest ∈ dest :: rest) by left. rewrite <- Hpop in Hin.
apply (proj1 (ordering_elem_of set_order _ _ set_order_perm)) in Hin.
unfold local_dest in Hin. apply py_set_elem_of in Hin.
apply list_elem_of_filter in Hin as [Hp Hin]. split; [done|]. by apply Is_true_true.
Qed.

Lemma link_dependency_grown node tree dependency :
node ∈ nodes tree → grown tree (link_one node tree dependency).
Proof.
intros Hnode. unfold link_dependency.
destruct (set_order _ (local_dest _ _ _)) as [|dest rest] eqn:Hpop.
- apply (grown_trans _ (add_node DependencyNode.same_key tree
                          (external_node hash_None hash_key dependency))).
  + by apply add_node_grown; [apply grown_refl|].
  + apply add_edge_grown; [apply grown_refl| |by left]. right.
    by apply add_node_grows.
- apply local_dest_elem_of in Hpop as [Hdest _].
  destruct (negb _); [|apply grown_refl].
  apply add_edge_grown; [apply grown_refl|by right..].
Qed.

Lemma fold_link_dependency_grown node dependencies tree :
node ∈ nodes tree → grown tree (fold_left (link_one node) dependencies tree).
Proof.
revert tree. induction dependencies as [|d ds IH]; intros tree Hnode;
  [apply grown_refl|].
simpl. pose proof (link_dependency_grown node tree d Hnode) as Hg.
apply (grown_trans _ _ _ Hg). apply IH. by apply Hg.
Qed.

Lemma link_node_grown tree node :
node ∈ nodes tree → grown tree (link_all tree node).
Proof.
intros Hnode. unfold link_node.
destruct (DependencyNode.build_command node); [|apply grown_refl].
by apply fold_link_dependency_grown.
Qed.

Lemma fold_link_node_grown snapshot tree :
(∀ n, n ∈ snapshot → n ∈ nodes tree) →
grown tree (fold_left link_all snapshot tree).
Proof.
revert tree. induction snapshot as [|n ns IH]; intros tree Hin; [apply grown_refl|].
simpl. assert (Hg : grown tree (link_all tree n)) by (apply link_node_grown, Hin; left).
apply (grown_trans _ _ _ Hg). apply IH. intros m Hm. apply Hg, Hin. by right.
Qed.

(** The linker only adds to the graph, and only nodes without a build
  command: every node and every edge of the graph before linking is in
  the linked graph, and every node of the linked graph that has a
  build command was there before. *)
Theorem create_edges_adds_external_nodes_only (tree : DiGraph DependencyNode.t) :
let linked := _create_edges set_order hash_None hash_key remove_version tree in
(∀ x, x ∈ nodes tree → x ∈ nodes linked) ∧
(∀ x, x ∈ nodes linked → is_buildable x = true → x ∈ nodes tree) ∧
(∀ a b, edge tree a b → edge linked a b).
Proof.
apply fold_link_node_grown. intros n Hn.
apply (proj1 (ordering_elem_of set_order _ _ set_order_perm)) in Hn.
by apply py_set_elem_of in Hn.
Qed.

(** *** Every dependency is met after linking *)

Variable U : list DependencyNode.t.
Hypothesis HU : canonical DependencyNode.same_key U.
Hypothesis Hcreated : ∀ n, n ∈ U → as_created hash_None hash_key n.

Abbreviation met := (dependency_met remove_version).

Lemma eq_provides node dest name :
node ∈ U → dest ∈ U → DependencyNode.__eq__ node dest = true →
provides remove_version name dest = true → provides remove_version name node = true.
Proof.
intros Hn Hd Heq Hp. unfold DependencyNode.__eq__ in Heq.
destruct (DependencyNode.build_command node) as [c1|] eqn:H1,
         (DependencyNode.build_command dest) as [c2|] eqn:H2.
- assert (Hsame : DependencyNode.same_key node dest = true).
  { unfold DependencyNode.same_key, DependencyNode.__hash__, DependencyNode.__eq__.
    rewrite (Hcreated node Hn), (Hcreated dest Hd), H1, H2, Heq.
    rewrite (BuildCommand_eq_hash hash_None hash_key c1 c2 Heq).
    by rewrite Z.eqb_refl. }
  apply (canonical_same _ U) in Hsame; [|done..]. by subst.
- apply bool_decide_eq_true in Heq. unfold provides in *. by rewrite Heq.
- apply bool_decide_eq_true in Heq. unfold provides in *. by rewrite Heq.
- apply bool_decide_eq_true in Heq. unfold provides in *. by rewrite Heq.
Qed.

Lemma link_dependency_met node tree dependency :
sound U tree → node ∈ nodes tree →
external_node hash_None hash_key dependency ∈ U →
sound U (link_one node tree dependency) ∧
met (link_one node tree dependency) node dependency.
Proof.
intros HG Hnode Hnew. pose proof HG as [[_ HGU] _]. unfold link_dependency.
destruct (set_order _ (local_dest _ _ _)) as [|dest rest] eqn:Hpop.
- set (new_node := external_node hash_None hash_key dependency) in *.
  assert (H1 : sound U (add_node DependencyNode.same_key tree new_node))
    by (by apply add_node_sound).
  destruct (add_node_spec _ U HU tree new_node (proj1 HG) Hnew) as (_ & Hn1 & _).
  split.
  + apply add_edge_sound; [done..|by apply HGU|done].
  + right. exists new_node. split; [|apply external_node_provides].
    apply (add_edge_spec _ U HU); [apply H1|by apply HGU|done|]. by right.
- apply local_dest_elem_of in Hpop as [Hdest Hp].
  destruct (DependencyNode.__eq__ node dest) eqn:Heq; simpl.
  + split; [done|]. left. apply (eq_provides node dest); auto.
  + split; [apply add_edge_sound; auto|].
    right. exists dest. split; [|done].
    apply (add_edge_spec _ U HU); [apply HG|by apply HGU..|]. by right.
Qed.

Lemma fold_link_dependency_met node dependencies tree :
sound U tree → node ∈ nodes tree →
(∀ d, d ∈ dependencies → external_node hash_None hash_key d ∈ U) →
sound U (fold_left (link_one node) dependencies tree) ∧
∀ d, d ∈ dependencies →
     met (fold_left (link_one node) dependencies tree) node d.
Proof.
revert tree. induction dependencies as [|d ds IH]; intros tree HG Hnode Hnew.
- split; [done|]. by intros d ?%elem_of_nil.
- simpl. destruct (link_dependency_met node tree d HG Hnode) as [HG1 Hmet1];
    [apply Hnew; left|].
  pose proof (link_dependency_grown node tree d Hnode) as Hg1.
  destruct (IH (link_one node tree d) HG1) as [HG2 Hmet2];
    [by apply Hg1|intros; apply Hnew; by right|].
  split; [done|]. intros d' [->|Hd]%elem_of_cons; [|by apply Hmet2].
  apply (dependency_met_grown _ (link_one node tree d)); [|done].
  apply fold_link_dependency_grown. by apply Hg1.
Qed.

Lemma fold_link_node_met snapshot tree :
sound U tree → (∀ n, n ∈ snapshot → n ∈ nodes tree) →
(∀ n cmd d, n ∈ snapshot → DependencyNode.build_command n = Some cmd →
            d ∈ BuildCommand.get_all_dependencies cmd →
            external_node hash_None hash_key d ∈ U) →
sound U (fold_left link_all snapshot tree) ∧
∀ n cmd d, n ∈ snapshot → DependencyNode.build_command n = Some cmd →
           d ∈ BuildCommand.get_all_dependencies cmd →
           met (fold_left link_all snapshot tree) n d.
Proof.
revert tree. induction snapshot as [|n ns IH]; intros tree HG Hin Hnew.
- split; [done|]. by intros n cmd d ?%elem_of_nil.
- simpl. assert (Hn : n ∈ nodes tree) by (apply Hin; left).
  pose proof (link_node_grown tree n Hn) as Hg1.
  assert (H1 : sound U (link_all tree n) ∧
               ∀ cmd d, DependencyNode.build_command n = Some cmd →
                        d ∈ BuildCommand.get_all_dependencies cmd →
                        met (link_all tree n) n d).
  { unfold link_node.
    destruct (DependencyNode.build_command n) as [cmd|] eqn:Hc; [|by split].
    destruct (fold_link_dependency_met n
                (set_order _ (elements (BuildCommand.get_all_dependencies cmd)))
                tree HG Hn) as [HG1 Hmet1].
    { intros d Hd. apply (Hnew n cmd d); [left|done|].
      by apply (ordering_elem_of set_order _ _ set_order_perm), elem_of_elements in Hd. }
    split; [done|]. intros cmd' d [= <-] Hd. apply Hmet1.
    by apply (ordering_elem_of set_order _ _ set_order_perm), elem_of_elements. }
  destruct H1 as [HG1 Hmet1].
  destruct (IH (link_all tree n) HG1) as [HG2 Hmet2].
  { intros m Hm. apply Hg1, Hin. by right. }
  { intros m cmd d Hm. apply Hnew. by right. }
  split; [done|]. intros m cmd d [->|Hm]%elem_of_cons Hc Hd; [|by eapply Hmet2].
  apply (dependency_met_grown _ (link_all tree n)); [|by eapply Hmet1].
  apply fold_link_node_grown. intros m Hm. apply Hg1, Hin. by right.
Qed.

End LinkerGrowth.

(** ** get_independent_runtime_deps *)

Section IndependentDepsSpec.
Variable set_order : ordering.
Hypothesis set_order_perm : is_ordering set_order.
Variable remove_version : string → string.
Variable U : list DependencyNode.t.
Hypothesis HU : canonical DependencyNode.same_key U.
Variable tree : DiGraph DependencyNode.t.
Hypothesis HG : sound U tree.
Variable node : DependencyNode.t.
Hypothesis Hnode : node ∈ nodes tree.

Abbreviation provider x dest :=
(edge tree node dest ∧ provides remove_version (remove_version x) dest = true).

(** One round of the loop: [StopIteration] when no successor provides
  the dependency; otherwise the answer of [is_independent] on the
  first successor that does decides. *)
Lemma add_if_independent_step deps x :
(add_if_independent remove_version tree node (Returns deps) x = Raises StopIteration ∧
 ∀ dest, edge tree node dest →
         provides remove_version (remove_version x) dest = false) ∨
(∃ dest answer,
   provider x dest ∧ (answer = true ↔ no_build_below tree dest) ∧
   add_if_independent remove_version tree node (Returns deps) x
     = Returns (if answer then deps ∪ {[ x ]} else deps)).
Proof.
pose proof HG as [[Hwf HGU] _].
assert (Hcan : canonical DependencyNode.same_key (nodes tree))
  by (by apply (canonical_subseteq _ U)).
destruct (succ_lookup_node DependencyNode.same_key tree Hcan Hwf node Hnode)
  as (keys & Hkeys & Hedge).
unfold add_if_independent, successors. rewrite Hkeys. cbn [outcome_bind lift].
destruct (filter (provides remove_version (remove_version x)) keys)
  as [|dest rest] eqn:Hf.
- left. split; [done|]. intros dest Hd%Hedge. apply not_true_iff_false. intros Hp.
  assert (Hin : dest ∈ filter (provides remove_version (remove_version x)) keys).
  { apply list_elem_of_filter. split; [by apply Is_true_true|done]. }
  rewrite Hf in Hin. by apply elem_of_nil in Hin.
- right. assert (Hin : dest ∈ dest :: rest) by left. rewrite <- Hf in Hin.
  apply list_elem_of_filter in Hin as [Hp%Is_true_true Hin%Hedge].
  destruct (is_independent_answer U tree dest HU HG) as (answer & -> & Hiff).
  { by apply (edge_target tree Hwf node). }
  exists dest, answer. done.
Qed.

Lemma independent_deps_fold l deps :
(∀ x, x ∈ l → ∃ dest, provider x dest) →
∃ deps',
  fold_left (add_if_independent remove_version tree node) l (Returns deps)
    = Returns deps' ∧
  (∀ x, x ∈ deps' → x ∈ deps ∨ (x ∈ l ∧ ∃ dest, provider x dest ∧ no_build_below tree dest)) ∧
  (∀ x, x ∈ deps → x ∈ deps') ∧
  (∀ x, x ∈ l → (∀ dest, provider x dest → no_build_below tree dest) → x ∈ deps').
Proof.
revert deps. induction l as [|x l IH]; intros deps Hmet.
- exists deps. split; [done|]. split; [by left|]. split; [done|].
  by intros x ?%elem_of_nil.
- cbn [fold_left].
  destruct (add_if_independent_step deps x)
    as [[_ Hnone]|(dest & answer & [Hedge Hp] & Hiff & ->)].
  { destruct (Hmet x) as (dest & Hedge & Hp); [left|].
    rewrite (Hnone dest Hedge) in Hp. done. }
  destruct (IH (if answer then deps ∪ {[ x ]} else deps))
    as (deps' & -> & Hsound & Hkeep & Hcomplete).
  { intros y Hy. apply Hmet. by right. }
  exists deps'. split; [done|]. split; [|split].
  + intros y [Hy|[Hy Hd]]%Hsound.
    * destruct answer; [|by left].
      apply elem_of_union in Hy as [?| ->%elem_of_singleton]; [by left|].
      right. split; [left|]. exists dest. split; [done|]. by apply Hiff.
    * right. split; [by right|done].
  + intros y Hy. apply Hkeep. destruct answer; [|done]. apply elem_of_union. by left.
  + intros y [->|Hy]%elem_of_cons Hall; [|by apply Hcomplete].
    apply Hkeep. assert (answer = true) as -> by (by apply Hiff, Hall).
    apply elem_of_union. right. by apply elem_of_singleton.
Qed.

Lemma independent_deps_fold_stops l deps x :
x ∈ l →
(∀ dest, edge tree node dest → provides remove_version (remove_version x) dest = false) →
fold_left (add_if_independent remove_version tree node) l (Returns deps)
  = Raises StopIteration.
Proof.
intros Hx Hnone. revert deps. induction l as [|y l IH]; intros deps.
{ by apply elem_of_nil in Hx. }
assert (Hstop : ∀ l', fold_left (add_if_independent remove_version tree node) l'
                        (Raises StopIteration) = Raises StopIteration).
{ induction l' as [|z l' IH']; [done|]. simpl. apply IH'. }
cbn [fold_left].
destruct (add_if_independent_step deps y)
  as [[-> _]|(dest & answer & [Hedge Hp] & _ & Hstep)]; [apply Hstop|].
apply elem_of_cons in Hx as [->|Hx].
- rewrite (Hnone dest Hedge) in Hp. done.
- rewrite Hstep. by apply IH.
Qed.

(** [get_independent_runtime_deps] on a node of the tree that has a
  build command.  Its candidates are the run dependencies that no
  package of the node itself provides.  When each of them is provided
  by a successor of the node, the call returns: every string returned
  is a candidate provided by a successor that depends on no build
  command, and a candidate all of whose providing successors depend on
  no build command is returned.  When some candidate is provided by no
  successor, the call fails with [StopIteration]. *)
Theorem independent_runtime_deps_spec (cmd : BuildCommand.t) :
DependencyNode.build_command node = Some cmd →
let candidates := foreign_run_deps remove_version node cmd in
((∀ x, x ∈ candidates → ∃ dest, provider x dest) →
   ∃ deps,
     get_independent_runtime_deps set_order remove_version tree node = Returns deps ∧
     (∀ x, x ∈ deps →
           x ∈ candidates ∧ ∃ dest, provider x dest ∧ no_build_below tree dest) ∧
     (∀ x, x ∈ candidates →
           (∀ dest, provider x dest → no_build_below tree dest) → x ∈ deps)) ∧
((∃ x, x ∈ candidates ∧
       ∀ dest, edge tree node dest →
               provides remove_version (remove_version x) dest = false) →
   get_independent_runtime_deps set_order remove_version tree node
     = Raises StopIteration).
Proof.
intros Hcmd candidates. unfold get_independent_runtime_deps. rewrite Hcmd.
fold candidates.
assert (Hin : ∀ x, x ∈ set_order _ (elements candidates) ↔ x ∈ candidates).
{ intros x. by rewrite (set_order_perm _ _), elem_of_elements. }
split.
- intros Hmet.
  destruct (independent_deps_fold (set_order _ (elements candidates)) ∅)
    as (deps & -> & Hsound & _ & Hcomplete).
  { intros x Hx%Hin. by apply Hmet. }
  exists deps. split; [done|]. split.
  + intros x [Hx|[Hx Hd]]%Hsound; [by apply not_elem_of_empty in Hx|].
    split; [by apply Hin|done].
  + intros x Hx%Hin. by apply Hcomplete.
- intros (x & Hx%Hin & Hnone). by apply (independent_deps_fold_stops _ _ x).
Qed.
End IndependentDepsSpec.

(** ** After linking, get_independent_runtime_deps does not run out of
    successors *)

Section IndependentAfterLinking.
Variable set_order : ordering.
Hypothesis set_order_perm : is_ordering set_order.
Variable hash_None : Z.
Variable hash_key : list string → Z.
Variable remove_version : string → string.
Variable U : list DependencyNode.t.
Hypothesis HU : canonical DependencyNode.same_key U.
Hypothesis Hcreated : ∀ n, n ∈ U → as_created hash_None hash_key n.

End IndependentAfterLinking.

(** ** The start nodes of a variant *)

Section Roots.
Context {V : Type}.
Variable same : V → V → bool.
Variable U : list V.
Hypothesis HU : canonical same U.
Variable G : DiGraph V.
Hypothesis HG : sound U G.

(** A node without predecessors. *)
Abbreviation root s := (s ∈ nodes G ∧ ∀ p, ¬ edge G p s).

Lemma in_degree_fold (l : list V) :
(∀ n, n ∈ l → n ∈ nodes G) →
∃ degrees,
  fold_right
    (λ n acc,
       rest <~ acc ;;
       match dict_get same (_pred G) n with
       | Some preds => Ok ((n, length preds) :: rest)
       | None => Raise KeyError
       end)
    (Ok []) l = Ok degrees ∧
  map fst degrees = l ∧
  ∀ n d, (n, d) ∈ degrees → (d = 0 ↔ ∀ p, ¬ edge G p n).
Proof.
induction l as [|n l IH]; intros Hl.
- exists []. split; [done|]. split; [done|]. by intros n d ?%elem_of_nil.
- destruct IH as (degrees & Hrun & Hmap & Hzero); [intros; apply Hl; by right|].
  destruct (pred_lookup_node same U HU G n HG) as (pk & Hget & _ & Hpk); [apply Hl; left|].
  exists ((n, length pk) :: degrees). simpl. rewrite Hrun. cbn [result_bind].
  rewrite Hget. split; [done|]. split; [by rewrite Hmap|].
  intros m d [[= -> ->]|Hin]%elem_of_cons; [|by apply Hzero].
  destruct pk as [|p pk]; simpl.
  + split; [intros _ p Hp%Hpk; by apply elem_of_nil in Hp|done].
  + split; [done|]. intros Hnone. exfalso. apply (Hnone p), Hpk. left.
Qed.

Lemma in_degree_roots :
∃ degrees,
  in_degree same G = Ok degrees ∧
  ∀ s, s ∈ py_set same (map fst (filter (λ nd, Nat.eqb nd.2 0 = true) degrees)) ↔ root s.
Proof.
destruct (in_degree_fold (nodes G)) as (degrees & Hrun & Hmap & Hzero); [done|].
exists degrees. split; [exact Hrun|].
pose proof HG as [[Hwf HGU] _].
assert (Hcan : canonical same (nodes G)) by (by apply (canonical_subseteq _ U)).
assert (Hsub : ∀ x, x ∈ map fst (filter (λ nd, Nat.eqb nd.2 0 = true) degrees) ↔ root x).
{ intros x. rewrite list_elem_of_fmap. split.
  - intros ([n d] & -> & [Hd Hin]%list_elem_of_filter). simpl in *.
    apply Nat.eqb_eq in Hd. split.
    + rewrite <- Hmap. apply list_elem_of_fmap. by exists (n, d).
    + by apply (Hzero n d).
  - intros [Hx Hnone]. rewrite <- Hmap in Hx.
    apply list_elem_of_fmap in Hx as ([n d] & -> & Hin). simpl in *.
    exists (n, d). split; [done|]. apply list_elem_of_filter. split; [|done].
    simpl. apply Nat.eqb_eq. by apply (Hzero n d). }
intros s. rewrite <- Hsub. split; [apply py_set_elem_of|].
apply (py_set_keeps same G Hcan). intros y Hy. by apply Hsub in Hy as [? _].
Qed.

Hypothesis Hacyc : acyclic G.

(** In an acyclic graph every node is a node without predecessors or a
  dependency of one. *)
Lemma every_node_below_a_root n :
n ∈ nodes G → ∃ s, root s ∧ (s = n ∨ depends_on G s n).
Proof.
pose proof HG as [[Hwf HGU] _].
assert (Hcan : canonical same (nodes G)) by (by apply (canonical_subseteq _ U)).
destruct (dfs_postorder_correct same G Hcan Hwf Hacyc (dfs_fuel G) None)
  as (out & _ & Hnd & Hdep & Hall & _); [done|done|].
specialize (Hall eq_refl).
assert (Hgoal : ∀ k n l1 l2,
          n ∈ nodes G → out = l1 ++ n :: l2 → (length l2 ≤ k)%nat →
          ∃ s, root s ∧ (s = n ∨ depends_on G s n)).
{ clear n. induction k as [|k IH]; intros n l1 l2 Hn Hout Hlen.
  - destruct (pred_lookup_node same U HU G n HG Hn) as (pk & _ & _ & Hpk).
    destruct pk as [|p pk].
    + exists n. split; [|by left]. split; [done|].
      intros p Hp%Hpk. by apply elem_of_nil in Hp.
    + exfalso. assert (Hp : edge G p n) by (apply Hpk; left).
      assert (Hb : before out n p).
      { apply Hdep; [|by apply tc_once]. apply Hall. by apply (edge_source G p n). }
      destruct Hb as (a & b & c & Hb). rewrite Hout in Hb, Hnd.
      apply NoDup_split_unique in Hb as [_ ->]; [|done].
      rewrite length_app in Hlen. simpl in Hlen. lia.
  - destruct (pred_lookup_node same U HU G n HG Hn) as (pk & _ & _ & Hpk).
    destruct pk as [|p pk].
    + exists n. split; [|by left]. split; [done|].
      intros p Hp%Hpk. by apply elem_of_nil in Hp.
    + assert (Hp : edge G p n) by (apply Hpk; left).
      assert (Hpn : p ∈ nodes G) by (by apply (edge_source G p n)).
      assert (Hb : before out n p).
      { apply Hdep; [|by apply tc_once]. by apply Hall. }
      destruct Hb as (a & b & c & Hb). pose proof Hb as Hb'.
      rewrite Hout in Hb', Hnd.
      apply NoDup_split_unique in Hb' as [_ ->]; [|done].
      destruct (IH p (a ++ n :: b) c Hpn) as (s & Hs & Hsp).
      { rewrite Hb. by rewrite <- app_assoc. }
      { rewrite length_app in Hlen. simpl in Hlen. lia. }
      exists s. split; [done|]. right. destruct Hsp as [->|Hsp].
      * by apply tc_once.
      * eapply tc_r; [exact Hsp|done]. }
intros Hn. specialize (Hall n Hn).
apply list_elem_of_split in Hall as (l1 & l2 & Hout).
by apply (Hgoal (length l2) n l1 l2).
Qed.
End Roots.

Section StartNodes.
Variable set_order : ordering.
Hypothesis set_order_perm : is_ordering set_order.
Variable U : list DependencyNode.t.
Hypothesis HU : canonical DependencyNode.same_key U.
Variable variant_tree : DiGraph DependencyNode.t.
Hypothesis HG : sound U variant_tree.
Hypothesis Hacyc : acyclic variant_tree.

(** When no packages are asked for, the start nodes of a variant are the
  nodes without predecessors.  Every node of an acyclic graph is one
  of them or a dependency of one, so the traversal from the start
  nodes, which gives the test feedstocks of the variant, yields every
  node of the graph that has a build command.  When packages are asked
  for, the start nodes are the nodes with a build command that have
  one of the packages. *)
Theorem start_nodes_reach_every_node :
(∃ starts,
   variant_start_nodes variant_tree [] = Some (Ok starts) ∧
   (∀ s, s ∈ starts ↔ s ∈ nodes variant_tree ∧ ∀ p, ¬ edge variant_tree p s) ∧
   (∀ n, n ∈ nodes variant_tree →
         n ∈ starts ∨ ∃ s, s ∈ starts ∧ depends_on variant_tree s n) ∧
   ∃ ns,
     (traverse_build_commands (graph_store variant_tree) 0
        (set_order _ starts) true).2 = Some (Ok (map YNode ns)) ∧
     ∀ n, n ∈ ns ↔ n ∈ nodes variant_tree ∧ is_buildable n = true) ∧
(∀ package packages,
   ∃ starts,
     variant_start_nodes variant_tree (package :: packages) = Some (Ok starts) ∧
     ∀ s, s ∈ starts ↔
          s ∈ nodes variant_tree ∧ is_buildable s = true ∧
          ∃ p, p ∈ package :: packages ∧ p ∈ DependencyNode.packages s).
Proof.
pose proof HG as [[Hwf HGU] _].
assert (Hcan : canonical DependencyNode.same_key (nodes variant_tree))
  by (by apply (canonical_subseteq _ U)).
destruct (in_degree_roots DependencyNode.same_key U HU variant_tree HG)
  as (degrees & Hdeg & Hroots).
split.
- eexists. unfold variant_start_nodes. rewrite Hdeg. split; [reflexivity|].
  set (starts := py_set _ _) in *.
  assert (Hbelow : ∀ n, n ∈ nodes variant_tree →
                        n ∈ starts ∨ ∃ s, s ∈ starts ∧ depends_on variant_tree s n).
  { intros n Hn.
    destruct (every_node_below_a_root DependencyNode.same_key U HU variant_tree HG
                Hacyc n Hn) as (s & Hs%Hroots & [->|Hsn]); [by left|].
    right. by exists s. }
  split; [exact Hroots|]. split; [exact Hbelow|].
  destruct (traversal_visits U HU variant_tree (proj1 HG) Hacyc (set_order _ starts))
    as (out & Hnd & Hrun & Hin).
  { intros s Hs. apply (proj1 (ordering_elem_of set_order _ _ set_order_perm)) in Hs.
    apply HGU. by apply Hroots in Hs as [? _]. }
  exists (filter is_buildable out). split.
  + by rewrite Hrun, yield_nodes_filter.
  + intros n. rewrite list_elem_of_filter, Hin.
    assert (Hstart : ∀ s, s ∈ set_order _ starts ↔ s ∈ starts).
    { intros s. apply (ordering_elem_of set_order _ _ set_order_perm). }
    destruct (set_order _ starts) as [|s0 rest] eqn:Hord.
    * split; [intros [Hb ?]; split; [done|by apply Is_true_true]|].
      intros [Hn Hb]. split; [by apply Is_true_true|done].
    * rewrite <- Hord in *. clear Hord. split.
      -- intros [Hb Hreach]. split; [|by apply Is_true_true].
         destruct Hreach as [Hs%Hstart|(s & Hs & Hsn)].
         ++ by apply Hroots in Hs as [? _].
         ++ by apply (depends_on_target variant_tree Hwf s).
      -- intros [Hn Hb]. split; [by apply Is_true_true|].
         destruct (Hbelow n Hn) as [Hs|(s & Hs & Hsn)]; [left; by apply Hstart|].
         right. exists s. split; [by apply Hstart|done].
- intros package packages. unfold variant_start_nodes. rewrite Hdeg.
  destruct (traversal_visits U HU variant_tree (proj1 HG) Hacyc [])
    as (out & Hnd & Hrun & Hin); [by intros s ?%elem_of_nil|].
  rewrite Hrun, yield_nodes_filter. eexists. split; [reflexivity|].
  assert (Hy : ∀ n, n ∈ map fst (yielded_nodes (map YNode (filter is_buildable out))) ↔
                    n ∈ nodes variant_tree ∧ is_buildable n = true).
  { intros n. rewrite list_elem_of_fmap. split.
    - intros ([m c] & -> & [Hin' Hc]%yielded_nodes_elem_of). simpl.
      apply list_elem_of_fmap in Hin' as (m' & [= <-] & Hm').
      apply list_elem_of_filter in Hm' as [Hb Hm']. split; [by apply Hin|].
      by apply Is_true_true.
    - intros [Hn Hb]. pose proof Hb as Hb'. unfold is_buildable, is_external in Hb'.
      destruct (DependencyNode.build_command n) as [c|] eqn:Hc; [|done].
      exists (n, c). split; [done|]. unfold yielded_nodes.
      apply list_elem_of_omap. exists (YNode n). split.
      + apply list_elem_of_fmap. exists n. split; [done|].
        apply list_elem_of_filter. split; [by apply Is_true_true|by apply Hin].
      + by rewrite Hc. }
  intros s. split.
  + intros [Hone Hs%Hy]%py_set_elem_of%list_elem_of_filter. destruct Hs as [Hs Hb].
    split; [done|]. split; [done|]. unfold has_one_of in Hone.
    apply existsb_exists in Hone as (p & Hp%list_elem_of_In & Hin'%bool_decide_eq_true).
    by exists p.
  + intros (Hs & Hb & p & Hp & Hin'). apply (py_set_keeps _ variant_tree Hcan).
    * intros y [_ [Hy' _]%Hy]%list_elem_of_filter. done.
    * apply list_elem_of_filter. split; [|by apply Hy].
      unfold has_one_of. apply existsb_exists. exists p.
      split; [by apply list_elem_of_In|by apply bool_decide_eq_true].
Qed.
End StartNodes.

(** ** get_installable_packages, independent packages only *)

Section InstallableIndependent.
Variable set_order : ordering.
Variable hash_None : Z.
Variable hash_key : list string → Z.
Variable remove_version : string → string.
Variable generalize_version : string → string.
Variable output_file_to_string : string → string.

Lemma fold_external_raises G independent l r :
fold_left (add_external_dep set_order hash_None hash_key generalize_version G independent)
  l (Raises r) = Raises r.
Proof. induction l as [|x l IH]; [done|]. simpl. apply IH. Qed.

Lemma fold_external_absent G l dep acc :
dep ∈ l →
has_node DependencyNode.same_key G (external_node hash_None hash_key dep) = false →
∃ r, fold_left (add_external_dep set_order hash_None hash_key generalize_version G true)
       l acc = Raises r.
Proof.
intros Hin Hmiss. revert acc. induction l as [|x l IH]; intros acc.
{ by apply elem_of_nil in Hin. }
simpl. apply elem_of_cons in Hin as [<-|Hin]; [|by apply IH].
destruct acc as [retval|r]; [|exists r; apply fold_external_raises].
exists (Exception NetworkXError).
unfold add_external_dep at 2. cbn [outcome_bind].
unfold is_independent, descendants.
change (DependencyNode.__init__ hash_None hash_key {[ dep ]} None None)
  with (external_node hash_None hash_key dep).
rewrite Hmiss. cbn [result_bind lift outcome_bind]. apply fold_external_raises.
Qed.

(** When only independent packages are asked for, every external
  dependency has to be a node of the graph: if one is not,
  [get_installable_packages] does not return a list, the search for
  what the missing node depends on failing with [NetworkXError] unless
  an earlier step has failed already.  When the loop over the nodes
  has returned and the missing one is the first external dependency,
  [NetworkXError] is what the call raises. *)
Theorem installable_packages_independent_needs_nodes
  (build_commands : DiGraph DependencyNode.t) (external_deps : list string)
  (starting_nodes : list DependencyNode.t) (dep : string) :
dep ∈ external_deps →
has_node DependencyNode.same_key build_commands
  (external_node hash_None hash_key dep) = false →
(∀ l, get_installable_packages set_order hash_None hash_key remove_version
        generalize_version output_file_to_string
        build_commands external_deps starting_nodes true ≠ Some (Returns l)) ∧
(∀ items retval rest,
   (traverse_build_commands (graph_store build_commands) 0 starting_nodes true).2
     = Some (Ok items) →
   fold_left (add_node_packages set_order remove_version generalize_version
                output_file_to_string build_commands true)
     (yielded_nodes items) (Returns ∅) = Returns retval →
   external_deps = dep :: rest →
   get_installable_packages set_order hash_None hash_key remove_version
     generalize_version output_file_to_string
     build_commands external_deps starting_nodes true
   = Some (Raises (Exception NetworkXError))).
Proof.
intros Hin Hmiss. split.
- intros l. unfold get_installable_packages.
  destruct (traverse_build_commands _ _ _ _).2 as [[items|e]|]; [|done|done].
  destruct (fold_left _ (yielded_nodes items) _) as [s1|r]; cbn [outcome_bind]; [|done].
  destruct (fold_external_absent build_commands external_deps dep (Returns s1) Hin Hmiss)
    as [r ->]. done.
- intros items retval rest Hrun Hnodes ->. unfold get_installable_packages.
  rewrite Hrun, Hnodes. cbn [outcome_bind fold_left].
  unfold add_external_dep at 2. cbn [outcome_bind].
  unfold is_independent, descendants.
  change (DependencyNode.__init__ hash_None hash_key {[ dep ]} None None)
    with (external_node hash_None hash_key dep).
  rewrite Hmiss. cbn [result_bind lift outcome_bind].
  by rewrite fold_external_raises.
Qed.
End InstallableIndependent.

(** ** DependencyNode.__eq__ is not an equivalence *)

(** [==] on nodes is not transitive: a node without a build command
    equals every node that has its package set, also two nodes whose
    build commands differ.  And the node without a build command and a
    node with one are equal while their hashes are those of [None] and
    of the build command: a dict or a set takes them for the same key
    only when the two hashes happen to be equal. *)
Theorem node_equality_not_transitive (hash_None : Z) (hash_key : list string → Z)
    (a b c : DependencyNode.t) (ca cc : BuildCommand.t) :
  DependencyNode.build_command a = Some ca →
  DependencyNode.build_command b = None →
  DependencyNode.build_command c = Some cc →
  DependencyNode.packages a = DependencyNode.packages b →
  DependencyNode.packages b = DependencyNode.packages c →
  BuildCommand.__eq__ ca cc = false →
  DependencyNode.__eq__ a b = true ∧ DependencyNode.__eq__ b c = true ∧
  DependencyNode.__eq__ a c = false ∧
  (as_created hash_None hash_key a → as_created hash_None hash_key b →
   (DependencyNode.same_key a b = true ↔ hash_key (BuildCommand.key ca) = hash_None)).
Proof.
  intros Ha Hb Hc Hab Hbc Hne.
  assert (Heq : DependencyNode.__eq__ a b = true).
  { unfold DependencyNode.__eq__. rewrite Ha, Hb. by apply bool_decide_eq_true. }
  split; [done|]. split; [|split].
  - unfold DependencyNode.__eq__. rewrite Hb. by apply bool_decide_eq_true.
  - unfold DependencyNode.__eq__. by rewrite Ha, Hc.
  - intros Hca Hcb. unfold DependencyNode.same_key, DependencyNode.__hash__.
    rewrite Heq, andb_true_r, Hca, Hcb, Ha, Hb. simpl. apply Z.eqb_eq.
Qed.

(** ** BuildTree._get_repo *)

Lemma string_length_app (a b : string) :
  String.length (a +:+ b) = (String.length a + String.length b)%nat.
Proof. induction a as [|c a IH]; simpl; [done|by rewrite IH]. Qed.

Lemma drop_chars_app (a b : string) : drop_chars (String.length a) (a +:+ b) = b.
Proof. induction a as [|c a IH]; simpl; [by destruct b|done]. Qed.

Lemma substring_app (a b : string) : String.substring 0 (String.length a) (a +:+ b) = a.
Proof. induction a as [|c a IH]; simpl; [by destruct b|by rewrite IH]. Qed.

Lemma prefix_app (p a b : string) :
  String.prefix p a = true → String.prefix p (a +:+ b) = true.
Proof.
  revert a. induction p as [|c p IH]; intros a.
  - intros _. by destruct (a +:+ b).
  - destruct a as [|d a]; simpl; [intros; discriminate|].
    destruct (Ascii.ascii_dec c d); [apply IH|intros; discriminate].
Qed.

Lemma endswith_app (a s : string) : endswith (a +:+ s) s = true.
Proof.
  unfold endswith. rewrite string_length_app.
  replace (String.length a + String.length s - String.length s)%nat
    with (String.length a) by lia.
  rewrite drop_chars_app, String.eqb_refl.
  apply andb_true_iff. split; [|done]. apply Nat.leb_le. lia.
Qed.

Lemma rfind_app_some (c : ascii) (a b : string) i :
  rfind c b = Some i → rfind c (a +:+ b) = Some (String.length a + i)%nat.
Proof.
  intros Hb. induction a as [|x a IH]; simpl; [done|]. by rewrite IH.
Qed.

Lemma rfind_app_none (c : ascii) (a b : string) :
  rfind c b = None → rfind c (a +:+ b) = rfind c a.
Proof.
  intros Hb. induction a as [|x a IH]; simpl; [done|]. by rewrite IH.
Qed.

(** The last component of a path. *)
Lemma basename_last (base name : string) :
  rfind "/" name = None → basename (base +:+ "/" +:+ name) = name.
Proof.
  intros Hname. unfold basename.
  rewrite (rfind_app_some "/" base ("/" +:+ name) 0)
    by (change ("/" +:+ name) with (String "/" name); simpl; by rewrite Hname).
  replace (S (String.length base + 0)) with (String.length (base +:+ "/"))
    by (rewrite string_length_app; simpl; lia).
  replace (base +:+ "/" +:+ name) with ((base +:+ "/") +:+ name).
  - apply drop_chars_app.
  - apply string_app_assoc.
Qed.

(** The extension [.git] is split off a name without a slash, unless the
    name is empty or made of dots. *)
Lemma splitext_git (stem : string) :
  rfind "/" stem = None →
  splitext_root (stem +:+ ".git") = if has_non_dot stem then stem else stem +:+ ".git".
Proof.
  intros Hstem. unfold splitext_root.
  rewrite (rfind_app_some "." stem ".git" 0) by done.
  rewrite (rfind_app_none "/" stem ".git"), Hstem by done. simpl.
  rewrite Nat.add_0_r, Nat.sub_0_r, substring_app.
  by destruct (has_non_dot stem).
Qed.

Section GetRepoSpec.
Variable SUPPORTED_GIT_PROTOCOLS : list string.
Variable path_exists : string → bool.
Variable _git_location : string.
Variable _repository_folder : string.

Local Abbreviation get_repo :=
(_get_repo SUPPORTED_GIT_PROTOCOLS path_exists _git_location _repository_folder).

(** [_get_repo], a feedstock given as a URL: the clone URL ends in [.git]
  whether the feedstock value does or not, and the repository is named
  by the last component of the URL without that extension; a last
  component that is empty or made of dots keeps the extension, so that a
  URL with a trailing slash is cloned into [.git].  The clone is asked
  for exactly when the directory does not exist. *)
Theorem get_repo_of_url (base stem : string) :
existsb (λ protocol, String.prefix protocol base) SUPPORTED_GIT_PROTOCOLS = true →
rfind "/" stem = None →
endswith (base +:+ "/" +:+ stem) ".git" = false →
let url := base +:+ "/" +:+ stem in
let repository := if has_non_dot stem then stem else stem +:+ ".git" in
let repo_dir :=
  if str_is_empty _repository_folder then repository
  else path_join _repository_folder repository in
get_repo url
  = (repo_dir, if path_exists repo_dir then None else Some (url +:+ ".git", repo_dir)) ∧
get_repo (url +:+ ".git") = get_repo url.
Proof.
intros Hprotocol Hstem Hgit url repository repo_dir.
assert (Hurl : ∀ rest,
  existsb (λ protocol, String.prefix protocol (base +:+ rest)) SUPPORTED_GIT_PROTOCOLS
  = true).
{ intros rest. apply existsb_exists. apply existsb_exists in Hprotocol.
  destruct Hprotocol as (protocol & Hin & Hp). exists protocol.
  split; [done|by apply prefix_app]. }
assert (Hname : splitext_root (basename (url +:+ ".git"))
                = if has_non_dot stem then stem else stem +:+ ".git").
{ replace (url +:+ ".git") with (base +:+ "/" +:+ (stem +:+ ".git")).
  - rewrite basename_last by (by rewrite rfind_app_none).
    by apply splitext_git.
  - unfold url. by rewrite !string_app_assoc. }
assert (Hurl1 : existsb (λ protocol, String.prefix protocol url)
                   SUPPORTED_GIT_PROTOCOLS = true) by apply Hurl.
assert (Hurl2 : existsb (λ protocol, String.prefix protocol (url +:+ ".git"))
                   SUPPORTED_GIT_PROTOCOLS = true).
{ unfold url. rewrite string_app_assoc. apply Hurl. }
assert (Hgit' : endswith url ".git" = false) by done.
clearbody url.
assert (Hfirst : get_repo url
  = (repo_dir, if path_exists repo_dir then None else Some (url +:+ ".git", repo_dir))).
{ unfold _get_repo. by rewrite Hurl1, Hgit', Hname. }
split; [done|].
rewrite Hfirst. unfold _get_repo. by rewrite Hurl2, endswith_app, Hname.
Qed.

End GetRepoSpec.

(** ** get_installable_packages returns *)

Section MergeReturns.
Variable set_order : ordering.
Hypothesis set_order_perm : is_ordering set_order.

(** [check_matching] and the [add] that follows do not fail on a string
  that has a token. *)
Lemma merge_one_returns deps_set dep :
tokens_ok deps_set → py_split dep ≠ [] →
∃ s, merge_one set_order (Ok deps_set) dep = Ok s ∧ tokens_ok s.
Proof.
intros Hok Hdep.
cut (∃ s, merge_one set_order (Ok deps_set) dep = Ok s).
{ intros [s Hs]. exists s. split; [done|].
  by apply (merge_one_tokens set_order deps_set dep). }
unfold merge_one, check_matching, first_token. cbn [result_bind].
case_bool_decide; [by eexists|].
destruct (py_split dep) as [|name rest]; [done|]. cbn [result_bind].
destruct (_ && _)%bool; simpl.
{ destruct (str_is_empty dep); by eexists. }
rewrite (name_in_set set_order set_order_perm) by done. cbn [result_bind].
destruct (existsb _ _); simpl; [by eexists|].
destruct (str_is_empty dep); by eexists.
Qed.

Lemma fold_merge_returns l deps_set :
tokens_ok deps_set → Forall (λ d, py_split d ≠ []) l →
∃ s, fold_left (merge_one set_order) l (Ok deps_set) = Ok s ∧ tokens_ok s.
Proof.
intros Hok Hl. revert deps_set Hok.
induction Hl as [|dep l Hdep _ IH]; intros deps_set Hok; [by exists deps_set|].
cbn [fold_left].
destruct (merge_one_returns deps_set dep Hok Hdep) as (s & -> & Hs). by apply IH.
Qed.

Lemma check_and_add_returns (generalize_version : string → string)
  dependencies parent_set :
tokens_ok parent_set →
(∀ x, x ∈ dependencies → py_split (generalize_version x) ≠ []) →
∃ s, check_and_add set_order generalize_version dependencies parent_set = Ok s ∧
     tokens_ok s.
Proof.
intros Hok Hdeps. unfold check_and_add, _get_unique_deps_names.
destruct (fold_merge_returns (map generalize_version dependencies) ∅ tokens_ok_empty)
  as (unique & -> & Hunique).
{ apply Forall_forall. intros d (x & -> & Hx)%list_elem_of_fmap. by apply Hdeps. }
cbn [result_bind]. apply fold_merge_returns; [done|].
apply Forall_forall. intros d Hd. apply Hunique.
apply (proj1 (ordering_elem_of set_order _ _ set_order_perm)) in Hd.
by apply elem_of_elements in Hd.
Qed.
End MergeReturns.

Section InstallableReturns.
Variable set_order : ordering.
Hypothesis set_order_perm : is_ordering set_order.
Variable hash_None : Z.
Variable hash_key : list string → Z.
Variable remove_version : string → string.
Variable generalize_version : string → string.
Variable output_file_to_string : string → string.
Variable U : list DependencyNode.t.
Hypothesis HU : canonical DependencyNode.same_key U.

(** The generalised form of the string has a token. *)
Abbreviation named x := (py_split (generalize_version x) ≠ []).

Lemma fold_node_packages_returns G nodes retval :
tokens_ok retval →
(∀ node cmd x, (node, cmd) ∈ nodes →
               contributes output_file_to_string false cmd x → named x) →
∃ s, fold_left (add_node_packages set_order remove_version generalize_version
                  output_file_to_string G false) nodes (Returns retval) = Returns s ∧
     tokens_ok s.
Proof.
revert retval. induction nodes as [|[node cmd] nodes IH]; intros retval Hok Hnamed.
{ by exists retval. }
cbn [fold_left]. unfold add_node_packages at 2. cbn [outcome_bind].
destruct (BuildCommand.runtime_package cmd) eqn:Hrt.
- destruct (check_and_add_returns set_order set_order_perm generalize_version
              (set_order _ (elements (BuildCommand.run_dependencies cmd))) retval Hok)
    as (s1 & H1 & Hs1).
  { intros x Hx. apply (Hnamed node cmd); [left|]. split; [done|]. left.
    apply (proj1 (ordering_elem_of set_order _ _ set_order_perm)) in Hx.
    by apply elem_of_elements in Hx. }
  unfold check_and_add_set. rewrite H1. cbn [lift outcome_bind].
  destruct (check_and_add_returns set_order set_order_perm generalize_version
              (map output_file_to_string (BuildCommand.output_files cmd)) s1 Hs1)
    as (s2 & H2 & Hs2).
  { intros x Hx. apply (Hnamed node cmd); [left|]. split; [done|]. by right. }
  rewrite H2. cbn [lift]. apply IH; [done|].
  intros n c x Hin. apply (Hnamed n c). by right.
- apply IH; [done|]. intros n c x Hin. apply (Hnamed n c). by right.
Qed.

Lemma fold_external_returns G external_deps retval :
tokens_ok retval →
(∀ x, x ∈ external_deps → named x) →
∃ s, fold_left (add_external_dep set_order hash_None hash_key generalize_version G false)
       external_deps (Returns retval) = Returns s ∧
     tokens_ok s.
Proof.
revert retval. induction external_deps as [|dep l IH]; intros retval Hok Hnamed.
{ by exists retval. }
cbn [fold_left]. unfold add_external_dep at 2. cbn [outcome_bind].
destruct (check_and_add_returns set_order set_order_perm generalize_version
            (set_order _ (elements ({[ dep ]} : gset string))) retval Hok)
  as (s1 & H1 & Hs1).
{ intros x Hx. apply (proj1 (ordering_elem_of set_order _ _ set_order_perm)) in Hx.
  apply elem_of_elements, elem_of_singleton in Hx as ->. apply Hnamed. left. }
unfold check_and_add_set. rewrite H1. cbn [lift]. apply IH; [done|].
intros x Hx. apply Hnamed. by right.
Qed.

End InstallableReturns.

(** ** The example tree, once more *)

Lemma pred_consistent_checked {V} (G : DiGraph V) :
  map fst (_pred G) = nodes G →
  Forall (λ e, (e.2, e.1) ∈ edges G) (edges (transpose G)) →
  Forall (λ e, (e.2, e.1) ∈ edges (transpose G)) (edges G) →
  pred_consistent G.
Proof.
  intros Hkeys H1 H2. split; [done|]. intros u v.
  change (edge (transpose G) v u ↔ edge G u v). rewrite !edge_edges.
  rewrite Forall_forall in H1, H2. split.
  - intros Hin. apply (H1 (v, u) Hin).
  - intros Hin. apply (H2 (u, v) Hin).
Qed.

Lemma identity_order_is_ordering : is_ordering identity_order.
Proof. intros A l. reflexivity. Qed.

Lemma example_tree_canonical : canonical DependencyNode.same_key (nodes example_tree).
Proof. by apply (bool_decide_unpack _); vm_compute. Qed.

Lemma example_tree_sound : sound (nodes example_tree) example_tree.
Proof.
  split; [split; [|done]|].
  - by apply (bool_decide_unpack _); vm_compute.
  - apply pred_consistent_checked; by apply (bool_decide_unpack _); vm_compute.
Qed.

Lemma example_tree_acyclic : acyclic example_tree.
Proof.
  apply (acyclic_ranked (λ n, example_rank (ONode n))).
  by apply (bool_decide_unpack _); vm_compute.
Qed.

(** ** The properties above on the example tree *)


Lemma installable_packages_blank_dependency_witness :
  get_installable_packages identity_order 0 example_hash example_remove_version
    (λ d, d) (λ f, f) example_tree ["cudatoolkit 11.2"; " "] [] false
    = Some (Raises (Exception IndexError)).
Proof.
  eapply (installable_packages_blank_dependency identity_order identity_order_is_ordering
            0 example_hash example_remove_version (λ d, d) (λ f, f) example_tree
            ["cudatoolkit 11.2"; " "] [] _ " ").
  - vm_compute. reflexivity.
  - right. left.
  - reflexivity.
Defined.

Lemma remove_external_deps_leaves_buildable_witness :
  ∃ G',
    BuildTree.remove_external_deps_from_dag identity_order (BuildTree.mk example_tree [] [])
      = Ok (BuildTree.mk G' [] []) ∧
    ∀ x, x ∈ nodes G' ↔ x ∈ nodes example_tree ∧ is_buildable x = true.
Proof.
  destruct (remove_external_deps_leaves_buildable identity_order identity_order_is_ordering
              (nodes example_tree) example_tree_canonical
              (BuildTree.mk example_tree [] []) example_tree_sound)
    as (G' & Hrun & _ & Hnodes & _).
  exists G'. split; [exact Hrun|exact Hnodes].
Defined.

Lemma is_independent_spec_witness :
  ∃ answer,
    is_independent numpy example_tree = Ok answer ∧
    (answer = true ↔
     ∀ x, x ≠ numpy → depends_on example_tree numpy x →
          DependencyNode.build_command x = None).
Proof.
  destruct (is_independent_spec (nodes example_tree) example_tree numpy
              example_tree_canonical example_tree_sound) as [H _].
  apply H. by apply (bool_decide_unpack _); vm_compute.
Defined.

Lemma BuildNodes_yields_what_initial_nodes_need_witness :
  ∃ ns, BuildNodes (BuildTree.mk example_tree [] [pytorch]) = Some (Ok (map YNode ns)) ∧
        NoDup ns.
Proof.
  destruct (BuildNodes_yields_what_initial_nodes_need (nodes example_tree)
              example_tree_canonical (BuildTree.mk example_tree [] [pytorch]))
    as (ns & Hrun & Hnd & _).
  - split; [|done]. apply example_tree_sound.
  - exact example_tree_acyclic.
  - simpl. intros s ->%list_elem_of_singleton.
    by apply (bool_decide_unpack _); vm_compute.
  - exists ns. split; [exact Hrun|exact Hnd].
Defined.

Lemma iter_yields_commands_of_BuildNodes_witness :
  ∃ cmds, __iter__ (BuildTree.mk example_tree [] []) = Some (Ok (map YCommand cmds)) ∧
          length cmds = BuildTree.__len__ (BuildTree.mk example_tree [] []).
Proof.
  destruct (iter_yields_commands_of_BuildNodes (nodes example_tree)
              example_tree_canonical (BuildTree.mk example_tree [] []))
    as (ns & cmds & _ & Hrun & _ & Hlen).
  - split; [|done]. apply example_tree_sound.
  - exact example_tree_acyclic.
  - simpl. by intros s ?%elem_of_nil.
  - exists cmds. split; [exact Hrun|]. by apply Hlen.
Defined.

Lemma remote_deps_add_external_nodes_only_witness :
  (∀ x, x ∈ nodes example_linked_tree → x ∈ nodes example_tree) ∧
  (∀ x, x ∈ nodes example_tree → is_buildable x = true → x ∈ nodes example_linked_tree) ∧
  (∀ a b, edge example_linked_tree a b → edge example_tree a b).
Proof.
  exact (remote_deps_add_external_nodes_only identity_order identity_order_is_ordering
           0 example_hash example_remove_version ["defaults"] example_channel
           (λ _, "deps") example_linked_tree 10).
Defined.

Lemma remote_deps_ask_once_witness :
  NoDup (map (λ q, example_remove_version (q_package q))
           (queries (_create_remote_deps identity_order 0 example_hash
                       example_remove_version ["defaults"] example_channel
                       (λ _, "deps") 10 example_linked_tree).1)).
Proof.
  exact (proj1 (remote_deps_ask_once identity_order identity_order_is_ordering
                  0 example_hash example_remove_version ["defaults"] example_channel
                  (λ _, "deps") example_linked_tree 10)).
Defined.

Lemma create_edges_adds_external_nodes_only_witness :
  (∀ x, x ∈ nodes example_recipes → x ∈ nodes example_linked_tree) ∧
  (∀ x, x ∈ nodes example_linked_tree → is_buildable x = true → x ∈ nodes example_recipes) ∧
  (∀ a b, edge example_recipes a b → edge example_linked_tree a b).
Proof.
  exact (create_edges_adds_external_nodes_only identity_order identity_order_is_ordering
           0 example_hash example_remove_version example_recipes).
Defined.

Lemma example_recipes_sound : sound (nodes example_linked_tree) example_recipes.
Proof.
  split; [split|].
  - by apply (bool_decide_unpack _); vm_compute.
  - apply Forall_forall. by apply (bool_decide_unpack _); vm_compute.
  - apply pred_consistent_checked; by apply (bool_decide_unpack _); vm_compute.
Qed.

Lemma example_recipes_dependencies n cmd d :
  n ∈ nodes example_recipes → DependencyNode.build_command n = Some cmd →
  d ∈ BuildCommand.get_all_dependencies cmd →
  external_node 0 example_hash d ∈ nodes example_linked_tree.
Proof.
  intros Hn Hc Hd. apply elem_of_elements in Hd.
  assert (Hnodes : nodes example_recipes = [tensorflow; pytorch; blas])
    by (vm_compute; reflexivity).
  rewrite Hnodes in Hn.
  assert (Hcases : elements (BuildCommand.get_all_dependencies cmd) = ["numpy"] ∨
                   elements (BuildCommand.get_all_dependencies cmd) = []).
  { apply elem_of_cons in Hn as [->|Hn]; [|apply elem_of_cons in Hn as [->|Hn]];
      [..|apply list_elem_of_singleton in Hn as ->];
      injection Hc as <-; [left|left|right]; by vm_compute. }
  destruct Hcases as [He|He]; rewrite He in Hd.
  - apply list_elem_of_singleton in Hd as ->.
    by apply (bool_decide_unpack _); vm_compute.
  - by apply elem_of_nil in Hd.
Qed.


(** ** The linked example, before the channel is asked *)

Lemma example_linked_tree_canonical :
  canonical DependencyNode.same_key (nodes example_linked_tree).
Proof. by apply (bool_decide_unpack _); vm_compute. Qed.

Lemma example_linked_tree_sound : sound (nodes example_linked_tree) example_linked_tree.
Proof.
  split; [split; [|done]|].
  - by apply (bool_decide_unpack _); vm_compute.
  - apply pred_consistent_checked; by apply (bool_decide_unpack _); vm_compute.
Qed.

Lemma independent_runtime_deps_spec_witness :
  ∃ deps,
    get_independent_runtime_deps identity_order example_remove_version
      example_linked_tree tensorflow = Returns deps ∧
    ∀ x, x ∈ deps →
         ∃ dest, (edge example_linked_tree tensorflow dest ∧
                  provides example_remove_version (example_remove_version x) dest = true) ∧
                 no_build_below example_linked_tree dest.
Proof.
  destruct (independent_runtime_deps_spec identity_order identity_order_is_ordering
              example_remove_version (nodes example_linked_tree)
              example_linked_tree_canonical example_linked_tree
              example_linked_tree_sound tensorflow)
    with (cmd := example_cmd "tensorflow" {[ "numpy" ]} ["tensorflow-channel"])
    as [Hreturns _].
  - by apply (bool_decide_unpack _); vm_compute.
  - reflexivity.
  - destruct Hreturns as (deps & Hrun & Hsound & _).
    + intros x Hx%elem_of_elements.
      assert (He : elements (foreign_run_deps example_remove_version tensorflow
                    (example_cmd "tensorflow" {[ "numpy" ]} ["tensorflow-channel"]))
                   = ["numpy"]) by (vm_compute; reflexivity).
      rewrite He in Hx. apply list_elem_of_singleton in Hx as ->.
      exists numpy. split; [|reflexivity].
      apply edge_edges. by apply (bool_decide_unpack _); vm_compute.
    + exists deps. split; [exact Hrun|]. intros x Hx. by apply Hsound.
Defined.


Lemma start_nodes_reach_every_node_witness :
  ∃ starts,
    variant_start_nodes example_tree [] = Some (Ok starts) ∧
    ∃ ns,
      (traverse_build_commands (graph_store example_tree) 0
         (identity_order _ starts) true).2 = Some (Ok (map YNode ns)) ∧
      ∀ n, n ∈ ns ↔ n ∈ nodes example_tree ∧ is_buildable n = true.
Proof.
  destruct (start_nodes_reach_every_node identity_order identity_order_is_ordering
              (nodes example_tree) example_tree_canonical example_tree
              example_tree_sound example_tree_acyclic)
    as [(starts & Hrun & _ & _ & Hall) _].
  exists starts. split; [exact Hrun|exact Hall].
Defined.

Lemma installable_packages_independent_needs_nodes_witness :
  get_installable_packages identity_order 0 example_hash example_remove_version
    (λ d, d) (λ f, f) example_tree ["cudatoolkit 11.2"] [] true
  = Some (Raises (Exception NetworkXError)).
Proof.
  eapply (proj2 (installable_packages_independent_needs_nodes identity_order
                   0 example_hash example_remove_version (λ d, d) (λ f, f)
                   example_tree ["cudatoolkit 11.2"] [] "cudatoolkit 11.2" _ _)).
  - vm_compute. reflexivity.
  - vm_compute. reflexivity.
  - reflexivity.
  Unshelve.
  + left.
  + vm_compute. reflexivity.
Defined.

Lemma node_equality_not_transitive_witness :
  DependencyNode.__eq__ (example_node "numpy" ∅) numpy = true ∧
  DependencyNode.__eq__ numpy
    (DependencyNode.__init__ 0 example_hash {[ "numpy" ]}
       (Some (example_cmd "numpy-mkl" ∅ [])) None) = true ∧
  DependencyNode.__eq__ (example_node "numpy" ∅)
    (DependencyNode.__init__ 0 example_hash {[ "numpy" ]}
       (Some (example_cmd "numpy-mkl" ∅ [])) None) = false.
Proof.
  destruct (node_equality_not_transitive 0 example_hash
              (example_node "numpy" ∅) numpy
              (DependencyNode.__init__ 0 example_hash {[ "numpy" ]}
                 (Some (example_cmd "numpy-mkl" ∅ [])) None)
              (example_cmd "numpy" ∅ ["numpy-channel"]) (example_cmd "numpy-mkl" ∅ []))
    as (Hab & Hbc & Hac & _); try reflexivity.
  split; [exact Hab|]. split; [exact Hbc|exact Hac].
Defined.

Lemma get_repo_of_url_witness :
  _get_repo ["https:"; "http:"; "git@"] (λ _, false) "https://github.com/open-ce" "./"
    "https://github.com/open-ce/numpy-feedstock"
  = ("./numpy-feedstock",
     Some ("https://github.com/open-ce/numpy-feedstock.git", "./numpy-feedstock")).
Proof.
  apply (proj1 (get_repo_of_url ["https:"; "http:"; "git@"] (λ _, false)
                  "https://github.com/open-ce" "./"
                  "https://github.com/open-ce" "numpy-feedstock"
                  eq_refl eq_refl eq_refl)).
Defined.

